(** * godelta: the command-line front end of an rsync-style delta tool

    A shallow embedding of [main.go] (package main of Elbandi/godelta):
    the three commands [fpgen], [diff] and [patch], their orchestration
    functions [generateFingerprint], [makeDiff] and [applyPatch], and [main].

    The program is I/O glue around three libraries that are not part of the
    repository: [encoding/gob] (the wire encoding), [github.com/Elbandi/gsync]
    (signatures, lookup table, delta scan, patch application) and
    [crypto/sha256].  The libraries are modelled below, each in a module of
    its own; the functions of [main.go] are translated statement by
    statement on top of them. *)

From Stdlib Require Import ZArith NArith.
From Stdlib.Strings Require Import Byte Ascii.
From stdpp Require Import base option list strings gmap.

Local Open Scope Z_scope.
Local Open Scope list_scope.

(** ** Bytes *)

Abbreviation byte := Byte.byte.

#[global] Instance byte_eq_dec : EqDecision byte := Byte.byte_eq_dec.

(** ** Errors

    The Go [error] values the program can see, as far as their identity
    matters: [io.EOF] is compared against, all others are only tested for
    being non-nil and printed. *)

Inductive error : Type :=
  | context_Canceled                       (* ctx.Err() of a cancelled context *)
  | gob_error                              (* a malformed or truncated record *)
  | fs_ErrNotExist (path : string)          (* os.Open on a missing file *)
  | gsync_error (msg : string) (cause : error).   (* an error wrapped by gsync *)

#[global] Instance error_eq_dec : EqDecision error.
Proof. solve_decision. Defined.

(** ** Records exchanged with gsync

    [main.go] reads the fields [Index], [Weak], [Strong], [Error] of a
    [gsync.BlockSignature] and [Index], [Data], [Error] of a
    [gsync.BlockOperation].  [Index] is a [uint64], [Weak] a [uint32]. *)

Record BlockSignature : Type := mkSig {
  sig_Index : N;
  sig_Weak : N;
  sig_Strong : list byte;
  sig_Error : option error
}.

Record BlockOperation : Type := mkOp {
  op_Index : N;
  op_Data : list byte;
  op_Error : option error
}.

#[global] Instance BlockSignature_eq_dec : EqDecision BlockSignature.
Proof. solve_decision. Defined.

#[global] Instance BlockOperation_eq_dec : EqDecision BlockOperation.
Proof. solve_decision. Defined.

(** ** encoding/gob *)

Module gob.

(** Modelled from the spec: package [encoding/gob] is not part of the
    repository.  The spec asks only for "some ordered, language-neutral
    serialization of the data-model records"; the one used here writes a
    tag byte per record, numbers as their binary digits, and byte strings
    behind their length.  A record's [Error] field is not transmitted: the
    program encodes a record only after it has found the field nil, and a
    decoded record has it nil. *)

Inductive value : Type :=
  | VInt (n : Z)                                   (* an int64, [bar.Total] *)
  | VSig (index weak : N) (strong : list byte)     (* a BlockSignature *)
  | VOp (index : N) (data : list byte).            (* a BlockOperation *)

Fixpoint enc_pos (p : positive) : list byte :=
  match p with
  | xH => [x01]
  | xO q => x02 :: enc_pos q
  | xI q => x03 :: enc_pos q
  end.

Definition enc_N (n : N) : list byte :=
  match n with
  | N0 => [x00]
  | Npos p => enc_pos p
  end.

Definition enc_Z (z : Z) : list byte :=
  match z with
  | Z0 => [x00]
  | Zpos p => x01 :: enc_pos p
  | Zneg p => x02 :: enc_pos p
  end.

Definition enc_bytes (l : list byte) : list byte :=
  enc_N (N.of_nat (length l)) ++ l.

Definition encode (v : value) : list byte :=
  match v with
  | VInt n => x10 :: enc_Z n
  | VSig i w s => x11 :: enc_N i ++ enc_N w ++ enc_bytes s
  | VOp i d => x12 :: enc_N i ++ enc_bytes d
  end.

Fixpoint dec_pos (l : list byte) : option (positive * list byte) :=
  match l with
  | x01 :: r => Some (xH, r)
  | x02 :: r => '(q, r') ← dec_pos r; Some (xO q, r')
  | x03 :: r => '(q, r') ← dec_pos r; Some (xI q, r')
  | _ => None
  end.

Definition dec_N (l : list byte) : option (N * list byte) :=
  match l with
  | x00 :: r => Some (N0, r)
  | _ => '(p, r) ← dec_pos l; Some (Npos p, r)
  end.

Definition dec_Z (l : list byte) : option (Z * list byte) :=
  match l with
  | x00 :: r => Some (Z0, r)
  | x01 :: r => '(p, r') ← dec_pos r; Some (Zpos p, r')
  | x02 :: r => '(p, r') ← dec_pos r; Some (Zneg p, r')
  | _ => None
  end.

Definition dec_bytes (l : list byte) : option (list byte * list byte) :=
  '(n, r) ← dec_N l;
  if decide (N.to_nat n ≤ length r)%nat
  then Some (take (N.to_nat n) r, drop (N.to_nat n) r)
  else None.

(** What one [Decode] call finds at the head of a stream. *)
Inductive decoded (A : Type) : Type :=
  | EOF                                  (* io.EOF: the stream is exhausted *)
  | Bad                                  (* any other error *)
  | Val (a : A) (rest : list byte).
Arguments EOF {A}.
Arguments Bad {A}.
Arguments Val {A} a rest.

Definition of_option {A} (o : option (A * list byte)) : decoded A :=
  match o with
  | Some (a, r) => Val a r
  | None => Bad
  end.

Definition decode (l : list byte) : decoded value :=
  match l with
  | [] => EOF
  | x10 :: r => of_option ('(n, r') ← dec_Z r; Some (VInt n, r'))
  | x11 :: r =>
      of_option ('(i, r1) ← dec_N r; '(w, r2) ← dec_N r1;
                 '(s, r3) ← dec_bytes r2; Some (VSig i w s, r3))
  | x12 :: r =>
      of_option ('(i, r1) ← dec_N r; '(d, r2) ← dec_bytes r1;
                 Some (VOp i d, r2))
  | _ => Bad
  end.

(** [Decode] into a variable of a given Go type: a record of another type
    is a decoding error. *)
Definition decode_int (l : list byte) : decoded Z :=
  match decode l with
  | EOF => EOF
  | Val (VInt n) r => Val n r
  | _ => Bad
  end.

Definition decode_sig (l : list byte) : decoded BlockSignature :=
  match decode l with
  | EOF => EOF
  | Val (VSig i w s) r => Val (mkSig i w s None) r
  | _ => Bad
  end.

Definition decode_op (l : list byte) : decoded BlockOperation :=
  match decode l with
  | EOF => EOF
  | Val (VOp i d) r => Val (mkOp i d None) r
  | _ => Bad
  end.

Definition of_sig (c : BlockSignature) : value :=
  VSig (sig_Index c) (sig_Weak c) (sig_Strong c).

Definition of_op (o : BlockOperation) : value :=
  VOp (op_Index o) (op_Data o).

(** The bytes an encoder has written after encoding the values [vs]. *)
Definition stream (vs : list value) : list byte :=
  concat (map encode vs).

End gob.

(** ** Hash functions

  The rolling checksum and the strong hash of gsync and [crypto/sha256]
  are taken as they come: nothing below depends on how they are computed.
  [literalBlocks] is the "small multiple of BlockSize" at which the delta
  scan flushes its pending literal bytes. *)

Class Primitives : Type := {
weak : list byte → N;
strong : list byte → list byte;
sha256_Sum : list byte → list byte;
literalBlocks : nat
}.

(** ** Cancellation

  A [context.Context] as the loops of the program see it.  Every loop
  polls [ctx.Done()] once per iteration ([select] with a [default]
  branch); [ctx s k] tells whether the [k]-th poll of stage [s] finds the
  context cancelled.  The stages run concurrently, so what one of them
  observes at its [k]-th poll says nothing about the others. *)

Inductive stage : Type :=
| in_Signatures | in_LookUpTable | in_Sync | in_Apply    (* loops of gsync *)
| in_generateFingerprint                                 (* range sigsCh *)
| in_makeDiff_decoder                                    (* goroutine of makeDiff *)
| in_makeDiff                                            (* range opsCh *)
| in_applyPatch_decoder.                                 (* goroutine of applyPatch *)

Definition Context : Type := stage → nat → bool.

(** [context.WithCancel(context.Background())] whose [cancel] is not called
  before [main] returns. *)
Definition context_Background : Context := λ _ _, false.

(** ** github.com/Elbandi/gsync *)

Module gsync.
Section with_primitives.
Context `{Primitives}.

(** Modelled from the spec: [gsync.Signatures] (spec 4.2) is not part of
    the repository.  The base file is read sequentially in chunks of
    [BlockSize] bytes, the last one possibly shorter; each chunk gives one
    signature, indices counting from 0.  Cancellation observed between
    chunks ends the sequence with an error-marked record. *)
Fixpoint Signatures_from (done : nat → bool) (bs fuel k : nat)
    (r : list byte) : list BlockSignature :=
  match fuel with
  | O => []
  | S fuel' =>
      match r with
      | [] => []
      | _ =>
          if done k then [mkSig (N.of_nat k) 0 [] (Some context_Canceled)]
          else
            let chunk := take bs r in
            mkSig (N.of_nat k) (weak chunk) (strong chunk) None
              :: Signatures_from done bs fuel' (S k) (drop bs r)
      end
  end.

Definition Signatures (done : nat → bool) (BlockSize : Z)
    (r : list byte) : list BlockSignature :=
  Signatures_from done (Z.to_nat BlockSize) (length r) 0 r.

(** Modelled from the spec: [gsync.LookUpTable] (spec 4.3) is not part of
    the repository.  A map from weak checksum to the (index, strong)
    entries sharing it, in insertion order; construction fails, publishing
    nothing, on an error-marked signature or on cancellation. *)
Fixpoint LookUpTable_from (done : nat → bool) (k : nat)
    (sigs : list BlockSignature) (tbl : gmap N (list (N * list byte)))
    : error + gmap N (list (N * list byte)) :=
  match sigs with
  | [] => inr tbl
  | c :: rest =>
      if done k then inl context_Canceled
      else
        match sig_Error c with
        | Some e => inl (gsync_error "failed reading signature" e)
        | None =>
            LookUpTable_from done (S k) rest
              (<[sig_Weak c :=
                   default [] (tbl !! sig_Weak c) ++ [(sig_Index c, sig_Strong c)]]> tbl)
        end
  end.

Definition LookUpTable (done : nat → bool) (sigs : list BlockSignature)
    : error + gmap N (list (N * list byte)) :=
  LookUpTable_from done 0 sigs ∅.

(** The lookup of spec 4.3/4.4: the bucket of the window's weak checksum
    is searched in order for an entry whose strong hash equals the
    window's; the first one wins. *)
Definition lookup (tbl : gmap N (list (N * list byte)))
    (window : list byte) : option N :=
  match tbl !! weak window with
  | None => None
  | Some bucket =>
      fst <$> List.find (λ c, bool_decide (c.2 = strong window)) bucket
  end.

(** The two kinds of operation, in the sentinel convention of the record:
    a literal carries its bytes in [Data]; an operation with empty [Data]
    copies the base block [Index]. *)
Definition Copy (i : N) : BlockOperation := mkOp i [] None.

Definition Literal (d : list byte) : BlockOperation := mkOp 0 d None.

(** Flushing the pending literal bytes: one Literal operation, if there
    are any. *)
Definition flush (pending : list byte) : list BlockOperation :=
  match pending with
  | [] => []
  | _ => [Literal pending]
  end.

(** Modelled from the spec: [gsync.Sync] (spec 4.4) is not part of the
    repository.  A window of [BlockSize] bytes (fewer at the end of the
    stream) over the unread target [rest], and the pending literal bytes.
    A window that matches a base block flushes the pending bytes, emits
    the Copy and advances by the window; a full window that does not match
    gives its oldest byte to the pending bytes and advances by one; a
    short window that does not match is the end of the stream: the pending
    bytes are flushed, then the window.  Cancellation is polled at every
    window position. *)
Fixpoint Sync_from (done : nat → bool) (bs : nat)
    (tbl : gmap N (list (N * list byte))) (fuel k : nat)
    (rest pending : list byte) : list BlockOperation :=
  match fuel with
  | O => []
  | S fuel' =>
      if done k then [mkOp 0 [] (Some context_Canceled)]
      else
        match rest with
        | [] => flush pending
        | b :: rest' =>
            let window := take bs rest in
            match lookup tbl window with
            | Some i =>
                flush pending ++ Copy i
                  :: Sync_from done bs tbl fuel' (S k) (drop bs rest) []
            | None =>
                if decide (length window < bs)%nat
                then flush pending ++ flush window
                else
                  let pending' := pending ++ [b] in
                  if decide (literalBlocks * bs ≤ length pending')%nat
                  then Literal pending'
                         :: Sync_from done bs tbl fuel' (S k) rest' []
                  else Sync_from done bs tbl fuel' (S k) rest' pending'
            end
        end
  end.

Definition Sync (done : nat → bool) (BlockSize : Z) (target : list byte)
    (tbl : gmap N (list (N * list byte))) : list BlockOperation :=
  Sync_from done (Z.to_nat BlockSize) tbl (S (length target)) 0 target [].

(** Modelled from the spec: [gsync.Apply] (spec 4.5) is not part of the
    repository.  Operations are consumed in order: a Literal appends its
    data, a Copy appends the base block at offset [Index * BlockSize]
    ([BlockSize] bytes or what is left of the file), an error-marked
    operation or a cancellation aborts.  The result is what has been
    written to the output (and fed to the digest accumulator) and the
    error, if any. *)
Fixpoint Apply_from (done : nat → bool) (bs : nat) (cache : list byte)
    (k : nat) (ops : list BlockOperation) (written : list byte)
    : list byte * option error :=
  match ops with
  | [] => (written, None)
  | o :: rest =>
      if done k then (written, Some context_Canceled)
      else
        match op_Error o with
        | Some e =>
            (written, Some (gsync_error "failed applying block operations" e))
        | None =>
            let block :=
              match op_Data o with
              | [] => take bs (drop (N.to_nat (op_Index o) * bs) cache)
              | d => d
              end in
            Apply_from done bs cache (S k) rest (written ++ block)
        end
  end.

Definition Apply (done : nat → bool) (BlockSize : Z) (cache : list byte)
    (ops : list BlockOperation) : list byte * option error :=
  Apply_from done (Z.to_nat BlockSize) cache 0 ops [].

End with_primitives.
End gsync.


(** ** The process and its environment *)

(** The command line after [flag.Parse()]: the package-level flag variables
    of [main.go] and the remaining arguments ([flag.Arg]). *)
Record Flags : Type := mkFlags {
  sourcefilePath : string;
  infilePath : string;
  outfilePath : string;
  progress : bool;
  debug : bool;
  blockSize : Z;
  args : list string
}.

(** The defaults of the flag declarations. *)
Definition flag_defaults (rest : list string) : Flags :=
  {| sourcefilePath := ""; infilePath := ""; outfilePath := "";
     progress := false; debug := false; blockSize := 6 * 1024; args := rest |}.

Definition flag_Arg (cfg : Flags) (i : nat) : string :=
  default "" (args cfg !! i).

(** An open [*os.File]. *)
Inductive File : Type :=
  | os_Stdin
  | os_Stdout
  | os_File (name : string).

(** What the process does to the file system by name, and the block size the
    gsync functions find in the package variable [gsync.BlockSize] when they
    are called. *)
Inductive event : Type :=
  | ev_Open (name : string)
  | ev_Create (name : string)
  | ev_Remove (name : string)
  | ev_Stat (name : string)
  | ev_gsync (function : string) (BlockSize : Z).

(** Operands of a [log] call; they are kept unformatted. *)
Inductive operand : Type :=
  | a_string (s : string)
  | a_error (e : error)
  | a_int (n : Z)
  | a_uint (n : N).

(** What is written to standard error. *)
Inductive message : Type :=
  | log_line (operands : list operand)   (* log.Print*, log.Fatal* *)
  | flag_usage.                          (* flag.Usage() *)

Record World : Type := mkWorld {
  fs : gmap string (list byte);      (* the files, by path *)
  stdin : list byte;
  stdout : list byte;
  stderr : list message;
  gsync_BlockSize : Z;               (* the package variable gsync.BlockSize *)
  trace : list event
}.

Definition with_fs (f : gmap string (list byte) → gmap string (list byte))
    (w : World) : World :=
  mkWorld (f (fs w)) (stdin w) (stdout w) (stderr w) (gsync_BlockSize w) (trace w).

Definition with_stdout (f : list byte → list byte) (w : World) : World :=
  mkWorld (fs w) (stdin w) (f (stdout w)) (stderr w) (gsync_BlockSize w) (trace w).

Definition with_stderr (m : message) (w : World) : World :=
  mkWorld (fs w) (stdin w) (stdout w) (stderr w ++ [m]) (gsync_BlockSize w) (trace w).

Definition with_BlockSize (n : Z) (w : World) : World :=
  mkWorld (fs w) (stdin w) (stdout w) (stderr w) n (trace w).

Definition with_event (e : event) (w : World) : World :=
  mkWorld (fs w) (stdin w) (stdout w) (stderr w) (gsync_BlockSize w) (trace w ++ [e]).

(** A statement either completes with a value or ends the process:
    [log.Fatal*] prints and calls [os.Exit(1)], which runs no deferred
    call. *)
Inductive result (A : Type) : Type :=
  | Ok (a : A)
  | Exit (code : Z).
Arguments Ok {A} a.
Arguments Exit {A} code.

Definition M (A : Type) : Type := World → result A * World.

#[global] Instance M_ret : MRet M := λ A a w, (Ok a, w).

#[global] Instance M_bind : MBind M := λ A B f m w,
  match m w with
  | (Ok a, w') => f a w'
  | (Exit c, w') => (Exit c, w')
  end.

Definition when (b : bool) (m : M unit) : M unit :=
  if b then m else mret ().

(** *** package os *)

Definition os_Open (name : string) : M (error + File) := λ w,
  (Ok (match fs w !! name with
       | Some _ => inr (os_File name)
       | None => inl (fs_ErrNotExist name)
       end),
   with_event (ev_Open name) w).

(** [os.Create] truncates the file if it exists. *)
Definition os_Create (name : string) : M (error + File) := λ w,
  (Ok (inr (os_File name)),
   with_event (ev_Create name) (with_fs (insert name []) w)).

Definition os_Remove (name : string) : M unit := λ w,
  (Ok (), with_event (ev_Remove name) (with_fs (delete name) w)).

(** [os.Stat]: the [FileInfo] (its size is all the program asks of it), or
    an error.  In this file system a path that names no file is a missing
    file, and the error is the one for which [os.IsNotExist] holds; what
    [main] does with another error is kept in [missing_or_empty]. *)
Definition os_Stat (name : string) : M (error + Z) := λ w,
  (Ok (match fs w !! name with
       | Some c => inr (Z.of_nat (length c))
       | None => inl (fs_ErrNotExist name)
       end),
   with_event (ev_Stat name) w).

Definition File_Name (f : File) : string :=
  match f with
  | os_Stdin => "/dev/stdin"
  | os_Stdout => "/dev/stdout"
  | os_File name => name
  end.

(** The bytes a reader of [f] finds. *)
Definition contents (f : File) (w : World) : list byte :=
  match f with
  | os_Stdin => stdin w
  | os_Stdout => []
  | os_File name => default [] (fs w !! name)
  end.

Definition File_read (f : File) : M (list byte) := λ w, (Ok (contents f w), w).

(** [f.Stat()] on an open file: the [FileInfo] (its size is all the
    program asks of it) or an error.  In this file system it does not fail
    on a file that is open. *)
Definition File_Stat (f : File) : M (error + Z) := λ w,
  (Ok (inr (Z.of_nat (length (contents f w)))), w).

Definition File_Write (f : File) (data : list byte) : M unit := λ w,
  (Ok (),
   match f with
   | os_Stdin => w
   | os_Stdout => with_stdout (λ old, old ++ data) w
   | os_File name => with_fs (alter (λ old, old ++ data) name) w
   end).

(** *** packages fmt, flag, log, hex *)

Definition fmt_Println (s : string) : M unit := λ w,
  (Ok (), with_stdout (λ old, old ++ String.list_byte_of_string s ++ [x0a]) w).

Definition flag_Usage : M unit := λ w, (Ok (), with_stderr flag_usage w).

Definition log_Print (operands : list operand) : M unit := λ w,
  (Ok (), with_stderr (log_line operands) w).

Definition log_Fatal {A : Type} (operands : list operand) : M A := λ w,
  (Exit 1, with_stderr (log_line operands) w).

(** [fi, err := f.Stat()], [log.Fatal(err)] when [err] is not nil, then
    [fi.Size()]. *)
Definition File_Size (f : File) : M Z :=
  fi ← File_Stat f;
  match fi with
  | inl err => log_Fatal [a_error err]
  | inr size => mret size
  end.

Definition hex_digit (n : N) : Ascii.ascii :=
  nth (N.to_nat n) (String.list_ascii_of_string "0123456789abcdef") "0"%char.

Fixpoint hex_EncodeToString (src : list byte) : string :=
  match src with
  | [] => ""
  | b :: rest =>
      String (hex_digit (Byte.to_N b / 16))
        (String (hex_digit (Byte.to_N b mod 16)) (hex_EncodeToString rest))
  end.

(** *** encoding/gob on a file *)

(** [enc.Encode(v)] on an encoder writing to [f]. *)
Definition gob_Encode (f : File) (v : gob.value) : M (option error) :=
  File_Write f (gob.encode v);; mret None.

(** *** gsync on files

    Each call reads [gsync.BlockSize] when it is made. *)

Section gsync_calls.
Context `{Primitives}.

Definition gsync_Signatures (ctx : Context) (r : File)
    : M (list BlockSignature * option error) := λ w,
  (Ok (gsync.Signatures (ctx in_Signatures) (gsync_BlockSize w) (contents r w), None),
   with_event (ev_gsync "Signatures" (gsync_BlockSize w)) w).

(** On failure the table returned next to the error is nil. *)
Definition gsync_LookUpTable (ctx : Context) (sigsCh : list BlockSignature)
    : M (gmap N (list (N * list byte)) * option error) := λ w,
  (Ok (match gsync.LookUpTable (ctx in_LookUpTable) sigsCh with
       | inr tbl => (tbl, None)
       | inl e => (∅, Some e)
       end),
   with_event (ev_gsync "LookUpTable" (gsync_BlockSize w)) w).

(** The operations, what the digest accumulator has been fed when they are
    drained ([Sync] hands it every byte it reads from the target, in
    order), and the error returned at once (nil for a reader that is
    there). *)
Definition gsync_Sync (ctx : Context) (r : File)
    (remote : gmap N (list (N * list byte)))
    : M (list BlockOperation * list byte * option error) := λ w,
  (Ok (gsync.Sync (ctx in_Sync) (gsync_BlockSize w) (contents r w) remote,
       contents r w, None),
   with_event (ev_gsync "Sync" (gsync_BlockSize w)) w).

(** What is written goes to [dst] also when [Apply] fails; the first
    component is what the digest accumulator has been fed. *)
Definition gsync_Apply (ctx : Context) (dst cache : File)
    (ops : list BlockOperation) : M (list byte * option error) := λ w,
  let r := gsync.Apply (ctx in_Apply) (gsync_BlockSize w) (contents cache w) ops in
  (Ok (r.1, r.2),
   (File_Write dst r.1 (with_event (ev_gsync "Apply" (gsync_BlockSize w)) w)).2).

End gsync_calls.

(** ** main.go *)

(** A run-time panic: the message goes to standard error and the process
    ends with status 2. *)
Definition go_panic {A : Type} (reason : string) : M A := λ w,
  (Exit 2, with_stderr (log_line [a_string ("panic: " +:+ reason)]) w).

(** An integer division of Go: it truncates, and panics on a zero divisor
    (exit status 2). *)
Definition int64_div (a b : Z) : M Z :=
  if decide (b = 0)
  then λ w, (Exit 2, with_stderr (log_line [a_string "panic: runtime error: integer divide by zero"]) w)
  else mret (a ÷ b).

(** The goroutine of [makeDiff] that feeds [sigsCh] from the fingerprint
    file: what it sends before it closes the channel.  [b] is a fresh
    variable in every iteration; the record sent on a decoding error takes
    its [Index] from it. *)
Fixpoint makeDiff_decoder (ctx : Context) (fuel k : nat) (fp : list byte)
    : list BlockSignature :=
  match fuel with
  | O => []
  | S fuel' =>
      if ctx in_makeDiff_decoder k
      then [mkSig 0 0 [] (Some context_Canceled)]
      else
        match gob.decode_sig fp with
        | gob.EOF => []
        | gob.Bad => [mkSig 0 0 [] (Some gob_error)]
        | gob.Val b rest => b :: makeDiff_decoder ctx fuel' (S k) rest
        end
  end.

(** The goroutine of [applyPatch] that feeds [opsCh] from the patch. *)
Fixpoint applyPatch_decoder (ctx : Context) (fuel k : nat) (patch : list byte)
    : list BlockOperation :=
  match fuel with
  | O => []
  | S fuel' =>
      if ctx in_applyPatch_decoder k
      then [mkOp 0 [] (Some context_Canceled)]
      else
        match gob.decode_op patch with
        | gob.EOF => []
        | gob.Bad => [mkOp 0 [] (Some gob_error)]
        | gob.Val o rest => o :: applyPatch_decoder ctx fuel' (S k) rest
        end
  end.

Section main_go.
Context `{Primitives}.
Variable cfg : Flags.

(** [for c := range sigsCh] of [generateFingerprint]. *)
Fixpoint generateFingerprint_loop (ctx : Context) (fpFile : File) (k : nat)
    (sigsCh : list BlockSignature) : M unit :=
  match sigsCh with
  | [] => mret ()
  | c :: rest =>
      if ctx in_generateFingerprint k
      then
        os_Remove (File_Name fpFile);;
        log_Fatal [a_string "godelta: checksum error: %#v\n"; a_error context_Canceled]
      else
        match sig_Error c with
        | Some e =>
            os_Remove (File_Name fpFile);;
            log_Fatal [a_string "godelta: checksum error: %#v\n"; a_error e]
        | None =>
            when (debug cfg)
              (log_Print [a_string "chunk %05d: %08x, %s"; a_uint (sig_Index c);
                          a_uint (sig_Weak c);
                          a_string (hex_EncodeToString (sig_Strong c))]);;
            err ← gob_Encode fpFile (gob.of_sig c);
            match err with
            | Some e =>
                os_Remove (File_Name fpFile);;
                log_Fatal [a_string "godelta: checksum error: %#v\n"; a_error e]
            | None => generateFingerprint_loop ctx fpFile (S k) rest
            end
        end
  end.

Definition generateFingerprint (ctx : Context) : M unit :=
  r ← os_Open (sourcefilePath cfg);
  match r with
  | inl err => log_Fatal [a_error err]
  | inr srcFile =>
      r ← os_Create (sourcefilePath cfg +:+ ".fingerprint");
      match r with
      | inl err => log_Fatal [a_error err]
      | inr fpFile =>
          when (debug cfg)
            (log_Print [a_string "Create fingerprint for"; a_string (sourcefilePath cfg)]);;
          size ← File_Size srcFile;
          bar_Total ← int64_div size (blockSize cfg);
          '(sigsCh, _) ← gsync_Signatures ctx srcFile;
          generateFingerprint_loop ctx fpFile 0 sigsCh;;
          when (debug cfg) (log_Print [a_string "Done"])
      end
  end.

(** The cleanup of a failing path: the file named by [-out], when one is
    named, is removed. *)
Definition remove_outfile : M unit :=
  when (bool_decide (outfilePath cfg ≠ "")) (os_Remove (outfilePath cfg)).

(** [for o := range opsCh] of [makeDiff]; [index] is a [uint64]. *)
Fixpoint makeDiff_loop (ctx : Context) (outFile : File) (index : N) (k : nat)
    (opsCh : list BlockOperation) : M unit :=
  match opsCh with
  | [] => mret ()
  | o :: rest =>
      if ctx in_makeDiff k
      then remove_outfile;; log_Fatal [a_error context_Canceled]
      else
        match op_Error o with
        | Some e =>
            remove_outfile;;
            log_Fatal [a_string "godelta: patch error: %#v\n"; a_error e]
        | None =>
            when (debug cfg)
              (log_Print [a_string "chunk %20d: %d / %d"; a_uint index;
                          a_uint (op_Index o);
                          a_int (Z.of_nat (length (op_Data o)))]);;
            err ← gob_Encode outFile (gob.of_op o);
            match err with
            | Some e =>
                remove_outfile;;
                log_Fatal [a_string "godelta: patch error: %#v\n"; a_error e]
            | None =>
                makeDiff_loop ctx outFile ((index + 1) mod 2 ^ 64)%N (S k) rest
            end
        end
  end.

(** The input of [makeDiff] and [applyPatch]: the file named by [-in], or
    standard input. *)
Definition open_infile : M File :=
  if decide (infilePath cfg = "") then mret os_Stdin
  else
    r ← os_Open (infilePath cfg);
    match r with
    | inl err => log_Fatal [a_error err]
    | inr inFile => mret inFile
    end.

(** The output: the file named by [-out], created, or standard output. *)
Definition create_outfile : M File :=
  if decide (outfilePath cfg = "") then mret os_Stdout
  else
    r ← os_Create (outfilePath cfg);
    match r with
    | inl err => log_Fatal [a_error err]
    | inr outFile => mret outFile
    end.

Definition makeDiff (ctx : Context) : M unit :=
  r ← os_Open (sourcefilePath cfg +:+ ".fingerprint");
  match r with
  | inl err => log_Fatal [a_error err]
  | inr fpFile =>
      size ← File_Size fpFile;
      bar_Total ← int64_div size (blockSize cfg);
      fp ← File_read fpFile;
      let sigsCh := makeDiff_decoder ctx (S (length fp)) 0 fp in
      when (debug cfg) (log_Print [a_string "Create lookup table"]);;
      '(cacheSigs, _) ← gsync_LookUpTable ctx sigsCh;
      when (debug cfg) (log_Print [a_string "Lookup table loaded"]);;
      inFile ← open_infile;
      (* bar.SetTotal64: the size is that of fpFile, also for a named input *)
      bar_Total ← (if decide (infilePath cfg = "") then mret 0
                   else size ← File_Size fpFile; int64_div size (blockSize cfg));
      outFile ← create_outfile;
      '(opsCh, datahash, err) ← gsync_Sync ctx inFile cacheSigs;
      match err with
      | Some e =>
          remove_outfile;;
          log_Fatal [a_string "godelta: patch error: %#v\n"; a_error e]
      | None =>
          when (debug cfg) (log_Print [a_string "Create block diff"]);;
          err ← gob_Encode outFile (gob.VInt bar_Total);
          match err with
          | Some e =>
              remove_outfile;;
              log_Fatal [a_string "godelta: patch error: %#v\n"; a_error e]
          | None =>
              makeDiff_loop ctx outFile 0%N 0 opsCh;;
              when (debug cfg) (log_Print [a_string "done"]);;
              log_Print [a_string "Datahash: ";
                         a_string (hex_EncodeToString (sha256_Sum datahash))]
          end
      end
  end.

Definition applyPatch (ctx : Context) : M unit :=
  r ← os_Open (sourcefilePath cfg);
  match r with
  | inl err => log_Fatal [a_error err]
  | inr srcFile =>
      inFile ← open_infile;
      outFile ← create_outfile;
      patch ← File_read inFile;
      match gob.decode_int patch with
      | gob.EOF | gob.Bad =>
          remove_outfile;;
          log_Fatal [a_string "godelta: patch error: %#v\n"; a_error gob_error]
      | gob.Val bar_Total rest =>
          when (debug cfg) (log_Print [a_string "Rebuild file"]);;
          let opsCh := applyPatch_decoder ctx (S (length rest)) 0 rest in
          '(datahash, err) ← gsync_Apply ctx outFile srcFile opsCh;
          match err with
          | Some e => log_Fatal [a_error e]
          | None =>
              when (debug cfg) (log_Print [a_string "done"]);;
              log_Print [a_string "Datahash: ";
                         a_string (hex_EncodeToString (sha256_Sum datahash))]
          end
      end
  end.

(** [os.IsNotExist(err)] on the result of [os.Stat]: it holds of the
    error of a missing file only, not of a nil error nor of another one. *)
Definition IsNotExist {A : Type} (r : error + A) : bool :=
  match r with
  | inl (fs_ErrNotExist _) => true
  | _ => false
  end.

(** [s.Size()] on the result of [os.Stat]: [s] is nil when [os.Stat] has
    returned an error, and the call panics. *)
Definition FileInfo_Size (r : error + Z) : M Z :=
  match r with
  | inr size => mret size
  | inl _ => go_panic "runtime error: invalid memory address or nil pointer dereference"
  end.

(** [os.IsNotExist(err) || s.Size() < 1] on the result of [os.Stat]; the
    right operand is evaluated only when the left one is false. *)
Definition missing_or_empty (r : error + Z) : M bool :=
  if IsNotExist r then mret true
  else size ← FileInfo_Size r; mret (bool_decide (size < 1)).

Definition main : M unit :=
  if decide (sourcefilePath cfg = "")
  then fmt_Println "Missing File parameter";; flag_Usage
  else if decide (blockSize cfg < 1024)
  then fmt_Println "Invalid block size, must be more than 1024";; flag_Usage
  else
    (λ w, (Ok (), with_BlockSize (blockSize cfg) w));;
    let ctx := context_Background in
    let action := flag_Arg cfg 0 in
    if decide (action = "fpgen") then generateFingerprint ctx
    else if decide (action = "diff") then
      s ← os_Stat (sourcefilePath cfg +:+ ".fingerprint");
      regenerate ← missing_or_empty s;
      when regenerate (generateFingerprint ctx);;
      makeDiff ctx
    else if decide (action = "patch") then
      s ← os_Stat (sourcefilePath cfg);
      if IsNotExist s then log_Fatal [a_string "Base file is not exists"]
      else
        s ← os_Stat (sourcefilePath cfg +:+ ".fingerprint");
        refuse ← missing_or_empty s;
        if refuse : bool
        then log_Fatal [a_string "Fingerprint file is not exists"]
        else applyPatch ctx
    else
      log_Fatal [a_string "You must specify one of the following action: 'fpgen', 'diff' or 'patch'."].

End main_go.

(** ** Vocabulary of the statements below *)

(** The file a command reads its input from and the one it writes to, as
    [open_infile] and [create_outfile] choose them. *)
Definition infile (cfg : Flags) : File :=
  if decide (infilePath cfg = "") then os_Stdin else os_File (infilePath cfg).

Definition outfile (cfg : Flags) : File :=
  if decide (outfilePath cfg = "") then os_Stdout else os_File (outfilePath cfg).

(** The files once [create_outfile] has run. *)
Definition created (cfg : Flags) (files : gmap string (list byte))
    : gmap string (list byte) :=
  if decide (outfilePath cfg = "") then files else <[outfilePath cfg := []]> files.

(** The files and standard output once [data] has been written to [f]. *)
Definition fs_written (f : File) (data : list byte)
    (files : gmap string (list byte)) : gmap string (list byte) :=
  match f with
  | os_File name => alter (λ old, old ++ data) name files
  | _ => files
  end.

Definition out_written (f : File) (data : list byte) (out : list byte)
    : list byte :=
  match f with
  | os_Stdout => out ++ data
  | _ => out
  end.

(** What a statement that ended in [w'] leaves of the world [w] it started
    in, standard error apart. *)
Definition leaves (w' : World) (files : gmap string (list byte))
    (out : list byte) (events : list event) (w : World) : Prop :=
  fs w' = files ∧ stdout w' = out ∧ trace w' = events ∧
  stdin w' = stdin w ∧ gsync_BlockSize w' = gsync_BlockSize w.

(** The lookup table [makeDiff] passes on: nil when [LookUpTable] failed. *)
Definition table_of `{Primitives} (sigs : list BlockSignature)
    : gmap N (list (N * list byte)) :=
  match gsync.LookUpTable (λ _, false) sigs with
  | inr tbl => tbl
  | inl _ => ∅
  end.

Arguments gob.stream : simpl never.
Arguments gob.encode : simpl never.
Arguments gsync.Signatures : simpl never.
Arguments gsync.LookUpTable : simpl never.
Arguments gsync.Sync : simpl never.
Arguments gsync.Apply : simpl never.
Arguments hex_EncodeToString : simpl never.
Arguments makeDiff_decoder : simpl never.
Arguments applyPatch_decoder : simpl never.
Arguments String.append : simpl never.
Arguments Z.quot : simpl never.

(** The base block of index [i]: [bs] bytes at offset [i * bs], or what is
    left of the file. *)
Definition block (bs : nat) (base : list byte) (i : N) : list byte :=
  take bs (drop (N.to_nat i * bs) base).

(** The strong hash tells every window of the target [T] from every block
    of the base [B] it differs from (spec 4.1: "equal strong hash implies
    equal content by design"). *)
Definition collision_free `{Primitives} (bs : nat) (B T : list byte) : Prop :=
  ∀ (i : N) (pre window post : list byte),
    T = pre ++ window ++ post →
    strong window = strong (block bs B i) →
    window = block bs B i.

(** Every entry of the table carries the strong hash of the base block it
    names. *)
Definition table_for `{Primitives} (bs : nat) (B : list byte)
    (tbl : gmap N (list (N * list byte))) : Prop :=
  ∀ wk bucket i s,
    tbl !! wk = Some bucket → (i, s) ∈ bucket → s = strong (block bs B i).

(** What [makeDiff] and [applyPatch] read as their input: standard input,
    or the file named by [-in] as it is once the output file has been
    created. *)
Definition input_of (cfg : Flags) (w : World) : list byte :=
  if decide (infilePath cfg = "") then stdin w
  else default [] (created cfg (fs w) !! infilePath cfg).

(** The leading value [makeDiff] writes: [bar.Total], set from the size of
    the fingerprint file [fp], or to 0 when the target is standard input. *)
Definition diff_total (cfg : Flags) (fp : list byte) : Z :=
  if decide (infilePath cfg = "") then 0
  else Z.of_nat (length fp) ÷ blockSize cfg.

Definition diff_events (cfg : Flags) (bs : Z) : list event :=
  [ev_Open (sourcefilePath cfg +:+ ".fingerprint"); ev_gsync "LookUpTable" bs]
  ++ (if decide (infilePath cfg = "") then [] else [ev_Open (infilePath cfg)])
  ++ (if decide (outfilePath cfg = "") then [] else [ev_Create (outfilePath cfg)])
  ++ [ev_gsync "Sync" bs].

Definition patch_events (cfg : Flags) (bs : Z) : list event :=
  [ev_Open (sourcefilePath cfg)]
  ++ (if decide (infilePath cfg = "") then [] else [ev_Open (infilePath cfg)])
  ++ (if decide (outfilePath cfg = "") then [] else [ev_Create (outfilePath cfg)])
  ++ [ev_gsync "Apply" bs].

(** The line both [makeDiff] and [applyPatch] log last. *)
Definition Datahash `{Primitives} (data : list byte) : message :=
  log_line [a_string "Datahash: "; a_string (hex_EncodeToString (sha256_Sum data))].

(** The events a session with flags [cfg] may add to the trace: the files
    it names are the base file, its fingerprint, the input and the output,
    each in the roles the program has for it, and a gsync function finds
    the block size [bs]. *)
Definition allowed (cfg : Flags) (bs : Z) (e : event) : Prop :=
  match e with
  | ev_Open name =>
      name = sourcefilePath cfg ∨
      name = sourcefilePath cfg +:+ ".fingerprint" ∨
      name = infilePath cfg
  | ev_Create name | ev_Remove name =>
      name = sourcefilePath cfg +:+ ".fingerprint" ∨ name = outfilePath cfg
  | ev_Stat name =>
      name = sourcefilePath cfg ∨
      name = sourcefilePath cfg +:+ ".fingerprint"
  | ev_gsync _ b => b = bs
  end.

(** [w'] comes from [w] by allowed events, [gsync.BlockSize] untouched. *)
Definition within (cfg : Flags) (w w' : World) : Prop :=
  gsync_BlockSize w' = gsync_BlockSize w ∧
  ∃ new, trace w' = trace w ++ new ∧ Forall (allowed cfg (gsync_BlockSize w)) new.

Definition keeps (cfg : Flags) {A : Type} (m : M A) : Prop :=
  ∀ w, within cfg w (m w).2.

(** Two worlds that are the same except for the contents of the files
    named in [D]. *)
Definition agree (D : string → Prop) (w1 w2 : World) : Prop :=
  stdin w1 = stdin w2 ∧ stdout w1 = stdout w2 ∧ stderr w1 = stderr w2 ∧
  gsync_BlockSize w1 = gsync_BlockSize w2 ∧ trace w1 = trace w2 ∧
  ∀ name, ¬ D name → fs w1 !! name = fs w2 !! name.

(** A statement that does not look into the files of [D]: run in two worlds
    that agree outside [D] it gives the same result and leaves worlds that
    agree outside [D], and outside [D'] when it completes. *)
Definition blind (D D' : string → Prop) {A : Type} (m : M A) : Prop :=
  ∀ w1 w2, agree D w1 w2 →
    (m w1).1 = (m w2).1 ∧
    agree D (m w1).2 (m w2).2 ∧
    ∀ a, (m w1).1 = Ok a → agree D' (m w1).2 (m w2).2.

(** A file whose contents two such worlds agree on. *)
Definition outside (D : string → Prop) (f : File) : Prop :=
  match f with
  | os_File name => ¬ D name
  | _ => True
  end.

(** What is left of [D] once the output file has been created. *)
Definition unwritten (cfg : Flags) (D : string → Prop) (name : string) : Prop :=
  D name ∧ (outfilePath cfg = "" ∨ name ≠ outfilePath cfg).





(** ** An instance for the examples

    The weak checksum is the sum of the bytes modulo 2^32 (so that distinct
    windows do collide); the strong hash and the digest are the identity,
    which has no collisions. *)
Definition example_primitives : Primitives :=
  {| weak := λ l, foldr (λ b acc, (Byte.to_N b + acc) mod 2 ^ 32)%N 0%N l;
     strong := λ l, l;
     sha256_Sum := λ l, l;
     literalBlocks := 1 |}.

Definition example_world (files : list (string * list byte)) (input : list byte)
    : World :=
  mkWorld (list_to_map files) input [] [] 0 [].

(** A context that the decoding goroutines find cancelled at their third
    poll. *)
Definition example_cancel : Context :=
  λ s k, match s with
         | in_makeDiff_decoder | in_applyPatch_decoder => bool_decide (2 ≤ k)%nat
         | _ => false
         end.

Definition example_sigs : list BlockSignature :=
  [mkSig 0 7 [x41] None; mkSig 1 9 [x42; x43] None; mkSig 2 3 [] None].

Definition example_ops : list BlockOperation :=
  [mkOp 0 [x41; x42] None; mkOp 1 [] None; mkOp 0 [x43] None].

(** A diff session and a patch session over one base file, block size 1024:
    the target is the base with a byte put before it and another after. *)
Definition example_base : list byte := replicate 1024 x41 ++ [x42; x43].

Definition example_target : list byte := x44 :: replicate 1024 x41 ++ [x45].

Definition example_diff : Flags :=
  mkFlags "base" "target" "patch" false false 1024 ["diff"].

Definition example_patch : Flags :=
  mkFlags "base" "patch" "out" false false 1024 ["patch"].

Definition example_session : World :=
  mkWorld (list_to_map [("base", example_base); ("target", example_target)])
    [] [] [] 1024 [].

(** The diff session above, run by [main]; then the base file is replaced
    by another one before the patch session. *)
Definition example_after_diff : World :=
  (@main example_primitives example_diff example_session).2.

Definition example_other_base : list byte := replicate 1024 x46.

Definition example_mismatched : World :=
  with_fs (insert "base" example_other_base) example_after_diff.


Definition example_stdin_session : World :=
  example_world [("base", [x42])] [x41].

(** A patch session whose patch holds the leading value, one literal
    operation and then a byte that is no record. *)
Definition example_broken_patch : list byte :=
  gob.encode (gob.VInt 0) ++ gob.encode (gob.VOp 0 [x42]) ++ [xff].

Definition example_broken_session : World :=
  example_world
    [("base", [x41]); ("base.fingerprint", [x00]); ("patch", example_broken_patch)]
    [].

(** The standard-input session once the fingerprint of its one-byte base
    has been written. *)
Definition example_fingerprinted : World :=
  with_fs (insert "base.fingerprint"
             (gob.stream [gob.VSig 0 66 [x42]])) example_stdin_session.

Definition example_fpgen : Flags :=
  mkFlags "base" "" "" false false 1024 ["fpgen"].


Definition example_fingerprinted_session : World :=
  with_fs (insert "base.fingerprint" (gob.stream [gob.VSig 0 66 [x42]]))
    (mkWorld (list_to_map [("base", [x42]); ("target", [x41])]) [] [] [] 1024 []).

(** ** Vocabulary of the further properties *)

(** The files a command may write: the fingerprint of the base file, and
    the file named by [-out] when one is named. *)
Definition is_fingerprint (cfg : Flags) (name : string) : Prop :=
  name = sourcefilePath cfg +:+ ".fingerprint".

Definition is_output (cfg : Flags) (name : string) : Prop :=
  outfilePath cfg ≠ "" ∧ name = outfilePath cfg.

(** [w'] differs from [w] at most in the files of [P], in standard output
    when [so] holds, in standard error and in the trace. *)
Definition frame (P : string → Prop) (so : Prop) (w w' : World) : Prop :=
  (∀ name, ¬ P name → fs w' !! name = fs w !! name) ∧
  (¬ so → stdout w' = stdout w) ∧
  stdin w' = stdin w.

Definition frames (P : string → Prop) (so : Prop) {A : Type} (m : M A) : Prop :=
  ∀ w, frame P so w (m w).2.

(** What the command chosen by the first argument may write. *)
Definition writes (cfg : Flags) (name : string) : Prop :=
  if decide (flag_Arg cfg 0 = "fpgen") then is_fingerprint cfg name
  else if decide (flag_Arg cfg 0 = "diff")
  then is_fingerprint cfg name ∨ is_output cfg name
  else if decide (flag_Arg cfg 0 = "patch") then is_output cfg name
  else False.

Definition writes_stdout (cfg : Flags) : Prop :=
  outfilePath cfg = "" ∧ (flag_Arg cfg 0 = "diff" ∨ flag_Arg cfg 0 = "patch").

(** Where a write to an open file goes. *)
Definition File_in (P : string → Prop) (so : Prop) (f : File) : Prop :=
  match f with
  | os_Stdin => True
  | os_Stdout => so
  | os_File name => P name
  end.

(** What the run-time prints when an integer division has a zero
    divisor, and a statement that never prints it. *)
Definition division_panic : message :=
  log_line [a_string "panic: runtime error: integer divide by zero"].

Definition divides_safely {A : Type} (m : M A) : Prop :=
  ∀ w, ∃ new, stderr (m w).2 = stderr w ++ new ∧ division_panic ∉ new.

(** The flags with [-debug] set to [b]. *)
Definition with_debug (b : bool) (cfg : Flags) : Flags :=
  mkFlags (sourcefilePath cfg) (infilePath cfg) (outfilePath cfg)
    (progress cfg) b (blockSize cfg) (args cfg).

(** The flags with [-out] set to [o]. *)
Definition with_outfile (o : string) (cfg : Flags) : Flags :=
  mkFlags (sourcefilePath cfg) (infilePath cfg) o
    (progress cfg) (debug cfg) (blockSize cfg) (args cfg).

(** A session that writes to the file named by [-out] (in [w1]) beside
    the same session without [-out] (in [w2]), both started with the files
    [F] and the standard output [pre]: what holds of the two worlds
    throughout, before the output file is created, and once it is. *)
Definition paired (F : gmap string (list byte)) (pre : list byte)
    (w1 w2 : World) : Prop :=
  stdin w1 = stdin w2 ∧ stderr w1 = stderr w2 ∧
  gsync_BlockSize w1 = gsync_BlockSize w2 ∧
  stdout w1 = pre ∧ fs w2 = F.

Definition paired_before (F : gmap string (list byte)) (pre : list byte)
    (w1 w2 : World) : Prop :=
  paired F pre w1 w2 ∧ fs w1 = F ∧ stdout w2 = pre.

Definition paired_after (out : string) (F : gmap string (list byte))
    (pre : list byte) (w1 w2 : World) : Prop :=
  paired F pre w1 w2 ∧ ∃ c, fs w1 = <[out:=c]> F ∧ stdout w2 = pre ++ c.

(** Two statements that, started in worlds related by [R], end with the
    same result in worlds related by [Q], and by [R'] when they complete. *)
Definition pairs (R R' Q : World → World → Prop) {A : Type} (m1 m2 : M A)
    : Prop :=
  ∀ w1 w2, R w1 w2 →
    (m1 w1).1 = (m2 w2).1 ∧
    Q (m1 w1).2 (m2 w2).2 ∧
    ∀ a, (m1 w1).1 = Ok a → R' (m1 w1).2 (m2 w2).2.

(** Two worlds that are the same except for what has been written to
    standard error, and two statements that cannot be told apart in such
    worlds. *)
Definition same_but_stderr (w1 w2 : World) : Prop :=
  fs w1 = fs w2 ∧ stdin w1 = stdin w2 ∧ stdout w1 = stdout w2 ∧
  gsync_BlockSize w1 = gsync_BlockSize w2 ∧ trace w1 = trace w2.

Definition alike {A : Type} (m1 m2 : M A) : Prop :=
  ∀ w1 w2, same_but_stderr w1 w2 →
    (m1 w1).1 = (m2 w2).1 ∧ same_but_stderr (m1 w1).2 (m2 w2).2.

(** * Properties *)

(** ** The wire encoding *)

Lemma dec_pos_enc_pos (p : positive) (r : list byte) :
  gob.dec_pos (gob.enc_pos p ++ r) = Some (p, r).
Proof.
  induction p as [q IH|q IH|]; simpl; [rewrite IH|rewrite IH|]; reflexivity.
Qed.

Lemma dec_N_enc_N (n : N) (r : list byte) :
  gob.dec_N (gob.enc_N n ++ r) = Some (n, r).
Proof.
  destruct n as [|p]; [reflexivity|].
  unfold gob.dec_N, gob.enc_N.
  destruct p; simpl; rewrite ?dec_pos_enc_pos; reflexivity.
Qed.

Lemma dec_Z_enc_Z (z : Z) (r : list byte) :
  gob.dec_Z (gob.enc_Z z ++ r) = Some (z, r).
Proof.
  destruct z; simpl; rewrite ?dec_pos_enc_pos; reflexivity.
Qed.

Lemma dec_bytes_enc_bytes (l r : list byte) :
  gob.dec_bytes (gob.enc_bytes l ++ r) = Some (l, r).
Proof.
  unfold gob.dec_bytes, gob.enc_bytes.
  rewrite <- app_assoc, dec_N_enc_N. simpl.
  rewrite Nat2N.id.
  destruct (decide (length l ≤ length (l ++ r))%nat) as [_|Hn].
  - rewrite take_app_length, drop_app_length. reflexivity.
  - exfalso. apply Hn. rewrite length_app. lia.
Qed.

Lemma decode_encode (v : gob.value) (r : list byte) :
  gob.decode (gob.encode v ++ r) = gob.Val v r.
Proof.
  destruct v as [n|i w s|i d]; unfold gob.encode; simpl.
  - rewrite dec_Z_enc_Z. reflexivity.
  - rewrite <- !app_assoc, dec_N_enc_N. simpl.
    rewrite dec_N_enc_N. simpl. rewrite dec_bytes_enc_bytes. reflexivity.
  - rewrite <- !app_assoc, dec_N_enc_N. simpl.
    rewrite dec_bytes_enc_bytes. reflexivity.
Qed.

Lemma encode_length (v : gob.value) : (1 ≤ length (gob.encode v))%nat.
Proof. destruct v; unfold gob.encode; simpl; lia. Qed.

Lemma decode_int_encode (n : Z) (r : list byte) :
  gob.decode_int (gob.encode (gob.VInt n) ++ r) = gob.Val n r.
Proof. unfold gob.decode_int. rewrite decode_encode. reflexivity. Qed.

Lemma decode_sig_encode (c : BlockSignature) (r : list byte) :
  sig_Error c = None →
  gob.decode_sig (gob.encode (gob.of_sig c) ++ r) = gob.Val c r.
Proof.
  intros Hc. unfold gob.decode_sig. rewrite decode_encode.
  destruct c; simpl in *; subst; reflexivity.
Qed.

Lemma decode_op_encode (o : BlockOperation) (r : list byte) :
  op_Error o = None →
  gob.decode_op (gob.encode (gob.of_op o) ++ r) = gob.Val o r.
Proof.
  intros Ho. unfold gob.decode_op. rewrite decode_encode.
  destruct o; simpl in *; subst; reflexivity.
Qed.

Lemma stream_cons (v : gob.value) (vs : list gob.value) :
  gob.stream (v :: vs) = gob.encode v ++ gob.stream vs.
Proof. reflexivity. Qed.

Lemma stream_length (vs : list gob.value) :
  (length vs ≤ length (gob.stream vs))%nat.
Proof.
  induction vs as [|v vs IH]; [reflexivity|].
  rewrite stream_cons, length_app. pose proof (encode_length v). simpl. lia.
Qed.

(** A decoded record has consumed at least one byte. *)
Lemma dec_pos_length (l : list byte) (p : positive) (r : list byte) :
  gob.dec_pos l = Some (p, r) → (length r < length l)%nat.
Proof.
  revert p r. induction l as [|b l IH]; intros p r; [done|].
  destruct b; try done; simpl.
  - intros [= <- <-]. lia.
  - destruct (gob.dec_pos l) as [[q r']|] eqn:Hq; [|done].
    intros [= <- <-]. specialize (IH q r' eq_refl). lia.
  - destruct (gob.dec_pos l) as [[q r']|] eqn:Hq; [|done].
    intros [= <- <-]. specialize (IH q r' eq_refl). lia.
Qed.

Lemma dec_N_length (l : list byte) (n : N) (r : list byte) :
  gob.dec_N l = Some (n, r) → (length r < length l)%nat.
Proof.
  unfold gob.dec_N. intros Hd.
  assert (Hpos : ∀ p r', gob.dec_pos l = Some (p, r') → (length r' < length l)%nat)
    by apply dec_pos_length.
  destruct l as [|b l]; [done|].
  destruct b;
    first [ injection Hd as <- <-; simpl; lia
          | destruct (gob.dec_pos _) as [[p r']|] eqn:Hp; [|done];
            injection Hd as <- <-; by eapply Hpos ].
Qed.

Lemma dec_bytes_length (l s r : list byte) :
  gob.dec_bytes l = Some (s, r) → (length r < length l)%nat.
Proof.
  unfold gob.dec_bytes.
  destruct (gob.dec_N l) as [[n r']|] eqn:Hn; [|done]. simpl.
  case_decide; [|done]. intros [= <- <-].
  apply dec_N_length in Hn. rewrite length_drop. lia.
Qed.

Lemma decode_length (l : list byte) (v : gob.value) (r : list byte) :
  gob.decode l = gob.Val v r → (length r < length l)%nat.
Proof.
  destruct l as [|b l]; [done|].
  destruct b; try done; simpl.
  - destruct l as [|b' l']; [done|].
    destruct b'; try done; simpl.
    + intros [= <- <-]. simpl. lia.
    + destruct (gob.dec_pos l') as [[p r']|] eqn:Hp; [|done].
      intros [= <- <-]. apply dec_pos_length in Hp. simpl. lia.
    + destruct (gob.dec_pos l') as [[p r']|] eqn:Hp; [|done].
      intros [= <- <-]. apply dec_pos_length in Hp. simpl. lia.
  - destruct (gob.dec_N l) as [[i r1]|] eqn:H1; [|done]. simpl.
    destruct (gob.dec_N r1) as [[w r2]|] eqn:H2; [|done]. simpl.
    destruct (gob.dec_bytes r2) as [[s r3]|] eqn:H3; [|done]. simpl.
    intros [= <- <-].
    apply dec_N_length in H1, H2. apply dec_bytes_length in H3. lia.
  - destruct (gob.dec_N l) as [[i r1]|] eqn:H1; [|done]. simpl.
    destruct (gob.dec_bytes r1) as [[d r2]|] eqn:H2; [|done]. simpl.
    intros [= <- <-].
    apply dec_N_length in H1. apply dec_bytes_length in H2. lia.
Qed.

(** ** The decoding goroutines *)

Lemma decode_sig_Error (l : list byte) (c : BlockSignature) (r : list byte) :
  gob.decode_sig l = gob.Val c r → sig_Error c = None.
Proof.
  unfold gob.decode_sig.
  destruct (gob.decode l) as [| |[]]; intros [= <- _]; reflexivity.
Qed.

Lemma decode_op_Error (l : list byte) (o : BlockOperation) (r : list byte) :
  gob.decode_op l = gob.Val o r → op_Error o = None.
Proof.
  unfold gob.decode_op.
  destruct (gob.decode l) as [| |[]]; intros [= <- _]; reflexivity.
Qed.

Lemma makeDiff_decoder_S (ctx : Context) (fuel k : nat) (fp : list byte) :
  makeDiff_decoder ctx (S fuel) k fp =
    if ctx in_makeDiff_decoder k
    then [mkSig 0 0 [] (Some context_Canceled)]
    else
      match gob.decode_sig fp with
      | gob.EOF => []
      | gob.Bad => [mkSig 0 0 [] (Some gob_error)]
      | gob.Val b rest => b :: makeDiff_decoder ctx fuel (S k) rest
      end.
Proof. reflexivity. Qed.

Lemma applyPatch_decoder_S (ctx : Context) (fuel k : nat) (patch : list byte) :
  applyPatch_decoder ctx (S fuel) k patch =
    if ctx in_applyPatch_decoder k
    then [mkOp 0 [] (Some context_Canceled)]
    else
      match gob.decode_op patch with
      | gob.EOF => []
      | gob.Bad => [mkOp 0 [] (Some gob_error)]
      | gob.Val o rest => o :: applyPatch_decoder ctx fuel (S k) rest
      end.
Proof. reflexivity. Qed.

(** An error-marked record is the last thing a decoding goroutine sends. *)
Lemma makeDiff_decoder_terminal (ctx : Context) (fuel k : nat) (fp : list byte)
    (i : nat) (c : BlockSignature) :
  makeDiff_decoder ctx fuel k fp !! i = Some c →
  sig_Error c ≠ None →
  length (makeDiff_decoder ctx fuel k fp) = S i.
Proof.
  revert k fp i. induction fuel as [|fuel IH]; intros k fp i;
    [by destruct i|rewrite makeDiff_decoder_S].
  destruct (ctx in_makeDiff_decoder k).
  { destruct i; [done|]. intros [=]. }
  destruct (gob.decode_sig fp) as [| |b rest] eqn:Hd.
  - done.
  - destruct i; [done|]. intros [=].
  - destruct i as [|i]; simpl.
    + intros [= <-] Hc. apply decode_sig_Error in Hd. done.
    + intros Hi Hc. f_equal. by apply IH.
Qed.

Lemma applyPatch_decoder_terminal (ctx : Context) (fuel k : nat)
    (patch : list byte) (i : nat) (o : BlockOperation) :
  applyPatch_decoder ctx fuel k patch !! i = Some o →
  op_Error o ≠ None →
  length (applyPatch_decoder ctx fuel k patch) = S i.
Proof.
  revert k patch i. induction fuel as [|fuel IH]; intros k patch i;
    [by destruct i|rewrite applyPatch_decoder_S].
  destruct (ctx in_applyPatch_decoder k).
  { destruct i; [done|]. intros [=]. }
  destruct (gob.decode_op patch) as [| |b rest] eqn:Hd.
  - done.
  - destruct i; [done|]. intros [=].
  - destruct i as [|i]; simpl.
    + intros [= <-] Hc. apply decode_op_Error in Hd. done.
    + intros Hi Hc. f_equal. by apply IH.
Qed.

(** Well-formed records at the head of the artifact are sent as they are, as
    long as no poll finds the context cancelled. *)
Lemma makeDiff_decoder_prefix (ctx : Context) (good : list BlockSignature)
    (fuel k : nat) (rest : list byte) :
  Forall (λ c, sig_Error c = None) good →
  (∀ j, (k ≤ j < k + length good)%nat → ctx in_makeDiff_decoder j = false) →
  makeDiff_decoder ctx (length good + fuel) k
      (gob.stream (map gob.of_sig good) ++ rest)
  = good ++ makeDiff_decoder ctx fuel (k + length good) rest.
Proof.
  revert k. induction good as [|c good IH]; intros k Hgood Hctx.
  { simpl. by rewrite Nat.add_0_r. }
  inversion Hgood as [|? ? Hc Hgood']; subst.
  change (length (c :: good) + fuel)%nat with (S (length good + fuel)).
  rewrite makeDiff_decoder_S, (Hctx k) by (simpl; lia).
  rewrite map_cons, stream_cons, <- app_assoc, decode_sig_encode by done.
  rewrite <- app_comm_cons. f_equal. rewrite IH; [|done|].
  - by replace (S k + length good)%nat with (k + S (length good))%nat by lia.
  - intros j Hj. apply Hctx. simpl. lia.
Qed.

Lemma applyPatch_decoder_prefix (ctx : Context) (good : list BlockOperation)
    (fuel k : nat) (rest : list byte) :
  Forall (λ o, op_Error o = None) good →
  (∀ j, (k ≤ j < k + length good)%nat → ctx in_applyPatch_decoder j = false) →
  applyPatch_decoder ctx (length good + fuel) k
      (gob.stream (map gob.of_op good) ++ rest)
  = good ++ applyPatch_decoder ctx fuel (k + length good) rest.
Proof.
  revert k. induction good as [|c good IH]; intros k Hgood Hctx.
  { simpl. by rewrite Nat.add_0_r. }
  inversion Hgood as [|? ? Hc Hgood']; subst.
  change (length (c :: good) + fuel)%nat with (S (length good + fuel)).
  rewrite applyPatch_decoder_S, (Hctx k) by (simpl; lia).
  rewrite map_cons, stream_cons, <- app_assoc, decode_op_encode by done.
  rewrite <- app_comm_cons. f_equal. rewrite IH; [|done|].
  - by replace (S k + length good)%nat with (k + S (length good))%nat by lia.
  - intros j Hj. apply Hctx. simpl. lia.
Qed.

(** The fuel the program's calls give is never used up: behind [n] records
    there is at least one step left. *)
Lemma decoder_fuel {A} (f : A → gob.value) (good : list A) (rest : list byte) :
  ∃ fuel, S (length (gob.stream (map f good) ++ rest)) = (length good + S fuel)%nat.
Proof.
  exists (length (gob.stream (map f good) ++ rest) - length good)%nat.
  pose proof (stream_length (map f good)) as Hl.
  rewrite length_map in Hl. rewrite length_app in *. lia.
Qed.

(** The goroutines stop by themselves: any fuel above the length of the
    artifact gives the same records. *)
Lemma makeDiff_decoder_total (ctx : Context) (fuel fuel' k : nat) (fp : list byte) :
  (length fp < fuel)%nat → (length fp < fuel')%nat →
  makeDiff_decoder ctx fuel k fp = makeDiff_decoder ctx fuel' k fp.
Proof.
  revert fuel' k fp. induction fuel as [|fuel IH]; intros fuel' k fp Hf Hf'; [lia|].
  destruct fuel' as [|fuel']; [lia|]. rewrite !makeDiff_decoder_S.
  destruct (ctx in_makeDiff_decoder k); [done|].
  unfold gob.decode_sig.
  destruct (gob.decode fp) as [| |[n|i w s|i d] rest] eqn:Hd; try done.
  apply decode_length in Hd. f_equal. apply IH; lia.
Qed.

Lemma applyPatch_decoder_total (ctx : Context) (fuel fuel' k : nat)
    (patch : list byte) :
  (length patch < fuel)%nat → (length patch < fuel')%nat →
  applyPatch_decoder ctx fuel k patch = applyPatch_decoder ctx fuel' k patch.
Proof.
  revert fuel' k patch.
  induction fuel as [|fuel IH]; intros fuel' k patch Hf Hf'; [lia|].
  destruct fuel' as [|fuel']; [lia|]. rewrite !applyPatch_decoder_S.
  destruct (ctx in_applyPatch_decoder k); [done|].
  unfold gob.decode_op.
  destruct (gob.decode patch) as [| |[n|i w s|i d] rest] eqn:Hd; try done.
  apply decode_length in Hd. f_equal. apply IH; lia.
Qed.

(** ** Running the statements of main.go *)

Lemma bind_Ok {A B} (m : M A) (f : A → M B) (w w' : World) (a : A) :
  m w = (Ok a, w') → (m ≫= f) w = f a w'.
Proof. intros Hm. unfold mbind, M_bind. by rewrite Hm. Qed.

Lemma when_log (b : bool) (operands : list operand) (w : World) :
  ∃ w', when b (log_Print operands) w = (Ok (), w') ∧
    leaves w' (fs w) (stdout w) (trace w) w.
Proof. destruct b; eexists; (split; [reflexivity|done]). Qed.

Lemma alter_append (name : string) (a b : list byte)
    (m : gmap string (list byte)) :
  alter (λ old, old ++ b) name (alter (λ old, old ++ a) name m)
  = alter (λ old, old ++ a ++ b) name m.
Proof.
  rewrite alter_alter_eq. apply alter_ext. intros; simpl.
  by rewrite app_assoc.
Qed.

Lemma alter_append_nil (name : string) (m : gmap string (list byte)) :
  alter (λ old, old ++ []) name m = m.
Proof.
  apply map_eq. intros i. rewrite lookup_alter.
  case_decide; [|done]. subst i. destruct (m !! name); simpl; [|done].
  by rewrite app_nil_r.
Qed.

Section loops.
Context `{Primitives}.
Variable cfg : Flags.

(** Without cancellation and without an error-marked record, the loop of
    [generateFingerprint] appends the records to the fingerprint file. *)
Lemma generateFingerprint_loop_Ok (ctx : Context) (name : string) (k : nat)
    (sigsCh : list BlockSignature) (w : World) :
  (∀ j, ctx in_generateFingerprint j = false) →
  Forall (λ c, sig_Error c = None) sigsCh →
  ∃ w', generateFingerprint_loop cfg ctx (os_File name) k sigsCh w = (Ok (), w') ∧
    leaves w'
      (fs_written (os_File name) (gob.stream (map gob.of_sig sigsCh)) (fs w))
      (stdout w) (trace w) w.
Proof.
  intros Hctx. revert k w.
  induction sigsCh as [|c rest IH]; intros k w Hsigs.
  { eexists. split; [reflexivity|]. unfold leaves. simpl.
    by rewrite alter_append_nil. }
  inversion Hsigs as [|? ? Hc Hrest]; subst.
  simpl. rewrite Hctx, Hc.
  destruct (when_log (debug cfg)
    [a_string "chunk %05d: %08x, %s"; a_uint (sig_Index c);
     a_uint (sig_Weak c); a_string (hex_EncodeToString (sig_Strong c))] w)
    as (w1 & Hw1 & Hfs1 & Hout1 & Htr1 & Hin1 & Hbs1).
  rewrite (bind_Ok _ _ _ _ _ Hw1).
  erewrite bind_Ok by reflexivity.
  destruct (IH (S k)
    (File_Write (os_File name) (gob.encode (gob.of_sig c)) w1).2 Hrest)
    as (w' & Hrun & Hfs & Hout & Htr & Hin & Hbs).
  exists w'. split; [exact Hrun|].
  simpl in *. unfold leaves.
  rewrite Hfs, Hout, Htr, Hin, Hbs, Hfs1, stream_cons, alter_append. done.
Qed.

End loops.

(** ** The gsync functions *)

Section gsync_facts.
Context `{Primitives}.

Lemma Signatures_from_Error (bs fuel k : nat) (r : list byte) :
  Forall (λ c, sig_Error c = None) (gsync.Signatures_from (λ _, false) bs fuel k r).
Proof.
  revert k r. induction fuel as [|fuel IH]; intros k r; simpl; [constructor|].
  destruct r; constructor; [done|apply IH].
Qed.

(** The loops of [Signatures] and [Sync] stop by themselves: more fuel than
    the bytes left changes nothing. *)
Lemma Signatures_from_total (done : nat → bool) (bs fuel fuel' k : nat)
    (r : list byte) :
  (0 < bs)%nat → (length r ≤ fuel)%nat → (length r ≤ fuel')%nat →
  gsync.Signatures_from done bs fuel k r = gsync.Signatures_from done bs fuel' k r.
Proof.
  intros Hbs. revert fuel' k r.
  induction fuel as [|fuel IH]; intros fuel' k r Hf Hf'.
  { destruct r; [|simpl in Hf; lia]. by destruct fuel'. }
  destruct fuel' as [|fuel'].
  { destruct r; [done|simpl in Hf'; lia]. }
  simpl. destruct r as [|b r]; [done|].
  destruct (done k); [done|]. f_equal.
  apply IH; rewrite length_drop; simpl in *; lia.
Qed.

Lemma Sync_from_total (done : nat → bool) (bs : nat)
    (tbl : gmap N (list (N * list byte))) (fuel fuel' k : nat)
    (rest pending : list byte) :
  (0 < bs)%nat → (length rest < fuel)%nat → (length rest < fuel')%nat →
  gsync.Sync_from done bs tbl fuel k rest pending
  = gsync.Sync_from done bs tbl fuel' k rest pending.
Proof.
  intros Hbs. revert fuel' k rest pending.
  induction fuel as [|fuel IH]; intros fuel' k rest pending Hf Hf'; [lia|].
  destruct fuel' as [|fuel']; [lia|].
  simpl. destruct (done k); [done|].
  destruct rest as [|b rest']; [done|].
  destruct (gsync.lookup tbl _).
  - do 2 f_equal. apply IH; rewrite length_drop; simpl in *; lia.
  - repeat case_decide; [done| |]; [f_equal|]; apply IH; simpl in *; lia.
Qed.

Lemma Signatures_Error (BlockSize : Z) (r : list byte) :
  Forall (λ c, sig_Error c = None) (gsync.Signatures (λ _, false) BlockSize r).
Proof. apply Signatures_from_Error. Qed.

(** A signature carries the hashes of the block its index names. *)
Lemma Signatures_from_block (bs fuel k : nat) (B : list byte) :
  Forall (λ c, sig_Strong c = strong (block bs B (sig_Index c)))
    (gsync.Signatures_from (λ _, false) bs fuel k (drop (k * bs) B)).
Proof.
  revert k. induction fuel as [|fuel IH]; intros k; simpl; [constructor|].
  destruct (drop (k * bs) B) as [|b r] eqn:Hr; [constructor|].
  constructor.
  - simpl. unfold block. by rewrite Nat2N.id, Hr.
  - rewrite <- Hr, drop_drop.
    replace (k * bs + bs)%nat with (S k * bs)%nat by lia. apply IH.
Qed.

Lemma Signatures_block (BlockSize : Z) (B : list byte) :
  Forall (λ c, sig_Strong c = strong (block (Z.to_nat BlockSize) B (sig_Index c)))
    (gsync.Signatures (λ _, false) BlockSize B).
Proof. apply (Signatures_from_block _ _ 0 B). Qed.

Lemma LookUpTable_from_for (bs : nat) (B : list byte) (k : nat)
    (sigs : list BlockSignature) (tbl tbl' : gmap N (list (N * list byte))) :
  Forall (λ c, sig_Strong c = strong (block bs B (sig_Index c))) sigs →
  table_for bs B tbl →
  gsync.LookUpTable_from (λ _, false) k sigs tbl = inr tbl' →
  table_for bs B tbl'.
Proof.
  revert k tbl. induction sigs as [|c sigs IH]; intros k tbl Hsigs Htbl; simpl.
  { by intros [= <-]. }
  inversion Hsigs as [|? ? Hc Hsigs']; subst.
  destruct (sig_Error c); [done|].
  apply IH; [done|].
  intros wk bucket i s Hb Hin.
  destruct (decide (sig_Weak c = wk)) as [<-|Hne].
  - rewrite lookup_insert_eq in Hb. injection Hb as <-.
    apply elem_of_app in Hin as [Hin|Hin].
    + destruct (tbl !! sig_Weak c) as [old|] eqn:Hold; simpl in Hin.
      * by eapply Htbl.
      * by apply elem_of_nil in Hin.
    + apply list_elem_of_singleton in Hin. by injection Hin as -> ->.
  - rewrite lookup_insert_ne in Hb by done. by eapply Htbl.
Qed.

Lemma table_of_for (bs : nat) (B : list byte) (sigs : list BlockSignature) :
  Forall (λ c, sig_Strong c = strong (block bs B (sig_Index c))) sigs →
  table_for bs B (table_of sigs).
Proof.
  intros Hsigs. unfold table_of, gsync.LookUpTable.
  destruct (gsync.LookUpTable_from _ 0 sigs ∅) as [e|tbl] eqn:Ht.
  - intros wk bucket i s Hb. by rewrite lookup_empty in Hb.
  - eapply LookUpTable_from_for; [exact Hsigs| |exact Ht].
    intros wk bucket i s Hb. by rewrite lookup_empty in Hb.
Qed.

Lemma lookup_strong (bs : nat) (B : list byte)
    (tbl : gmap N (list (N * list byte))) (window : list byte) (i : N) :
  table_for bs B tbl →
  gsync.lookup tbl window = Some i →
  strong window = strong (block bs B i).
Proof.
  intros Htbl. unfold gsync.lookup.
  destruct (tbl !! weak window) as [bucket|] eqn:Hb; [|done].
  destruct (List.find _ bucket) as [[j s]|] eqn:Hf; [|done].
  intros [= <-]. apply List.find_some in Hf as [Hin Heq].
  apply bool_decide_eq_true in Heq. simpl in *. subst s.
  eapply Htbl; [exact Hb|]. by apply list_elem_of_In.
Qed.

Lemma Sync_from_Error (bs : nat) (tbl : gmap N (list (N * list byte)))
    (fuel k : nat) (rest pending : list byte) :
  Forall (λ o, op_Error o = None)
    (gsync.Sync_from (λ _, false) bs tbl fuel k rest pending).
Proof.
  assert (Hflush : ∀ l, Forall (λ o, op_Error o = None) (gsync.flush l)).
  { intros []; repeat constructor. }
  revert k rest pending.
  induction fuel as [|fuel IH]; intros k rest pending; simpl; [constructor|].
  destruct rest as [|b rest']; [apply Hflush|].
  destruct (gsync.lookup tbl _).
  - apply Forall_app. split; [apply Hflush|]. constructor; [done|apply IH].
  - repeat case_decide.
    + apply Forall_app. split; apply Hflush.
    + constructor; [done|apply IH].
    + apply IH.
Qed.

Lemma Sync_Error (BlockSize : Z) (target : list byte)
    (tbl : gmap N (list (N * list byte))) :
  Forall (λ o, op_Error o = None) (gsync.Sync (λ _, false) BlockSize target tbl).
Proof. apply Sync_from_Error. Qed.

(** Applying error-free operations, no cancellation observed. *)
Lemma Apply_from_app (bs : nat) (cache : list byte) (k : nat)
    (ops1 ops2 : list BlockOperation) (written : list byte) :
  Forall (λ o, op_Error o = None) ops1 →
  gsync.Apply_from (λ _, false) bs cache k (ops1 ++ ops2) written
  = gsync.Apply_from (λ _, false) bs cache (k + length ops1) ops2
      (gsync.Apply_from (λ _, false) bs cache k ops1 written).1.
Proof.
  revert k written. induction ops1 as [|o ops1 IH]; intros k written Hops; simpl.
  { by rewrite Nat.add_0_r. }
  inversion Hops as [|? ? Ho Hops']; subst. rewrite Ho.
  rewrite IH by done. by replace (S k + length ops1)%nat with (k + S (length ops1))%nat by lia.
Qed.

Lemma Apply_from_flush (bs : nat) (cache : list byte) (k : nat)
    (pending written : list byte) :
  (gsync.Apply_from (λ _, false) bs cache k (gsync.flush pending) written).1
  = written ++ pending.
Proof. destruct pending; simpl; [by rewrite app_nil_r|done]. Qed.

Lemma Apply_from_None (bs : nat) (cache : list byte) (k : nat)
    (ops : list BlockOperation) (written : list byte) :
  Forall (λ o, op_Error o = None) ops →
  (gsync.Apply_from (λ _, false) bs cache k ops written).2 = None.
Proof.
  revert k written. induction ops as [|o ops IH]; intros k written Hops; simpl; [done|].
  inversion Hops as [|? ? Ho Hops']; subst. rewrite Ho. by apply IH.
Qed.

(** The operations of a scan rebuild what the scan has read. *)
Lemma Apply_Sync_from (bs : nat) (B T : list byte)
    (tbl : gmap N (list (N * list byte))) (fuel k k' : nat)
    (pre rest pending written : list byte) :
  (0 < bs)%nat →
  table_for bs B tbl →
  collision_free bs B T →
  T = pre ++ rest →
  (length rest < fuel)%nat →
  (gsync.Apply_from (λ _, false) bs B k'
     (gsync.Sync_from (λ _, false) bs tbl fuel k rest pending) written).1
  = written ++ pending ++ rest.
Proof.
  intros Hbs Htbl Hfree. revert k k' pre rest pending written.
  induction fuel as [|fuel IH]; intros k k' pre rest pending written HT Hfuel;
    [lia|].
  simpl. destruct rest as [|b rest'].
  { by rewrite Apply_from_flush, app_nil_r. }
  set (window := take bs (b :: rest')).
  destruct (gsync.lookup tbl window) as [i|] eqn:Hlook.
  - assert (window = block bs B i) as Hw.
    { eapply (Hfree i pre window (drop bs (b :: rest'))).
      - rewrite HT. unfold window. by rewrite take_drop.
      - by eapply lookup_strong. }
    rewrite Apply_from_app by (destruct pending; repeat constructor).
    rewrite Apply_from_flush. simpl.
    fold (block bs B i). rewrite <- Hw.
    erewrite (IH _ _ (pre ++ window)).
    + unfold window. simpl app. by rewrite <- !app_assoc, take_drop.
    + rewrite HT, <- app_assoc. unfold window. by rewrite take_drop.
    + rewrite length_drop. simpl in *. lia.
  - case_decide as Hshort.
    + rewrite Apply_from_app by (destruct pending; repeat constructor).
      rewrite !Apply_from_flush.
      unfold window. rewrite take_ge; [by rewrite app_assoc|].
      unfold window in Hshort. rewrite length_take in Hshort. lia.
    + case_decide.
      * simpl. erewrite (IH _ _ (pre ++ [b])).
        -- destruct (pending ++ [b]) eqn:Hp;
             [by destruct pending|rewrite <- Hp]. by rewrite <- !app_assoc.
        -- by rewrite HT, <- app_assoc.
        -- simpl in Hfuel. lia.
      * erewrite (IH _ _ (pre ++ [b])).
        -- by rewrite <- !app_assoc.
        -- by rewrite HT, <- app_assoc.
        -- simpl in Hfuel. lia.
Qed.

Lemma Apply_Sync (BlockSize : Z) (B T : list byte)
    (tbl : gmap N (list (N * list byte))) :
  0 < BlockSize →
  table_for (Z.to_nat BlockSize) B tbl →
  collision_free (Z.to_nat BlockSize) B T →
  gsync.Apply (λ _, false) BlockSize B (gsync.Sync (λ _, false) BlockSize T tbl)
  = (T, None).
Proof.
  intros Hbs Htbl Hfree. unfold gsync.Apply, gsync.Sync.
  rewrite (surjective_pairing (gsync.Apply_from _ _ _ _ _ _)).
  rewrite Apply_from_None by apply Sync_from_Error.
  erewrite (Apply_Sync_from _ B T _ _ _ _ []); [done|lia|done|done|done|lia].
Qed.

End gsync_facts.

(** ** The three commands, run to the end *)

Lemma fingerprint_ne (name : string) : name +:+ ".fingerprint" ≠ name.
Proof.
  induction name as [|a name IH]; [done|].
  intros [= Heq]. by apply IH.
Qed.

Lemma int64_div_Ok (a b : Z) (w : World) :
  b ≠ 0 → int64_div a b w = (Ok (a ÷ b), w).
Proof. intros Hb. unfold int64_div. by destruct (decide (b = 0)). Qed.

(** What [main] makes of [os.Stat] on a path: in this file system the
    error is that of a missing file, and [s.Size()] is not reached with a
    nil [s]. *)
Lemma missing_or_empty_os_Stat {A} (name : string) (k : bool → M A) (w : World) :
  (os_Stat name ≫= λ s, missing_or_empty s ≫= k) w
  = k (match fs w !! name with
       | Some c => bool_decide (Z.of_nat (length c) < 1)
       | None => true
       end) (with_event (ev_Stat name) w).
Proof.
  unfold mbind, M_bind, os_Stat. cbn [fst snd].
  by destruct (fs w !! name).
Qed.

Ltac step := erewrite bind_Ok by reflexivity.

Ltac step_log :=
  match goal with
  | |- context [(when ?b (log_Print ?ops) ≫= _) ?w] =>
      let w1 := fresh "w" in
      let Hlog := fresh "Hlog" in
      destruct (when_log b ops w) as (w1 & Hlog & ?Hfs & ?Hout & ?Htr & ?Hin & ?Hbs);
      rewrite (bind_Ok _ _ _ _ _ Hlog); clear Hlog
  end.

Ltac step_div :=
  erewrite bind_Ok by (apply int64_div_Ok; assumption).

Section commands.
Context `{Primitives}.
Variable cfg : Flags.

Lemma generateFingerprint_Ok (w : World) (B : list byte) :
  fs w !! sourcefilePath cfg = Some B →
  blockSize cfg ≠ 0 →
  ∃ w', generateFingerprint cfg context_Background w = (Ok (), w') ∧
    leaves w'
      (<[sourcefilePath cfg +:+ ".fingerprint" :=
           gob.stream (map gob.of_sig
             (gsync.Signatures (λ _, false) (gsync_BlockSize w) B))]> (fs w))
      (stdout w)
      (trace w ++ [ev_Open (sourcefilePath cfg);
                   ev_Create (sourcefilePath cfg +:+ ".fingerprint");
                   ev_gsync "Signatures" (gsync_BlockSize w)])
      w.
Proof.
  intros HB Hbs. unfold generateFingerprint.
  step. rewrite HB. step. cbn iota beta.
  step_log. step. step_div. step. cbn iota beta.
  match goal with |- context [generateFingerprint_loop _ ?c (os_File ?n) ?k ?s ≫= _] =>
    destruct (generateFingerprint_loop_Ok cfg c n k s
      (with_event (ev_gsync "Signatures" (gsync_BlockSize w0)) w0))
      as (w1 & Hloop & Hfs1 & Hout1 & Htr1 & Hin1 & Hbs1);
      [done|apply Signatures_Error|]
  end.
  rewrite (bind_Ok _ _ _ _ _ Hloop).
  destruct (when_log (debug cfg) [a_string "Done"] w1)
    as (w2 & Hlog & Hfs2 & Hout2 & Htr2 & Hin2 & Hbs2).
  exists w2. split; [exact Hlog|].
  unfold leaves. rewrite Hfs2, Hout2, Htr2, Hin2, Hbs2, Hfs1, Hout1, Htr1, Hin1, Hbs1.
  simpl in *. rewrite Hfs, Hout, Htr, Hin, Hbs0. simpl.
  rewrite lookup_insert_ne, HB by apply fingerprint_ne. simpl.
  rewrite alter_insert_eq, <- !app_assoc. done.
Qed.

End commands.

Lemma fs_written_nil (f : File) (files : gmap string (list byte)) :
  fs_written f [] files = files.
Proof. destruct f; simpl; [done..|apply alter_append_nil]. Qed.

Lemma out_written_nil (f : File) (out : list byte) : out_written f [] out = out.
Proof. destruct f; simpl; [done| |done]. apply app_nil_r. Qed.

Lemma fs_written_app (f : File) (a b : list byte)
    (files : gmap string (list byte)) :
  fs_written f b (fs_written f a files) = fs_written f (a ++ b) files.
Proof. destruct f; simpl; [done..|apply alter_append]. Qed.

Lemma out_written_app (f : File) (a b out : list byte) :
  out_written f b (out_written f a out) = out_written f (a ++ b) out.
Proof. destruct f; simpl; [done| |done]. by rewrite app_assoc. Qed.

Lemma File_Write_leaves (f : File) (data : list byte) (w : World) :
  leaves (File_Write f data w).2 (fs_written f data (fs w))
    (out_written f data (stdout w)) (trace w) w.
Proof. by destruct f. Qed.

Ltac norm :=
  cbn [fs stdin stdout stderr trace gsync_BlockSize with_event with_stderr
       with_fs with_stdout with_BlockSize contents default from_option id
       fst snd
       File_Write fs_written out_written].

Section diff.
Context `{Primitives}.
Variable cfg : Flags.

(** Without cancellation and without an error-marked operation, the loop of
    [makeDiff] appends the operations to the output. *)
Lemma makeDiff_loop_Ok (ctx : Context) (outFile : File) (index : N) (k : nat)
    (opsCh : list BlockOperation) (w : World) :
  (∀ j, ctx in_makeDiff j = false) →
  Forall (λ o, op_Error o = None) opsCh →
  ∃ w', makeDiff_loop cfg ctx outFile index k opsCh w = (Ok (), w') ∧
    leaves w'
      (fs_written outFile (gob.stream (map gob.of_op opsCh)) (fs w))
      (out_written outFile (gob.stream (map gob.of_op opsCh)) (stdout w))
      (trace w) w.
Proof.
  intros Hctx. revert index k w.
  induction opsCh as [|o rest IH]; intros index k w Hops.
  { eexists. split; [reflexivity|]. unfold leaves. simpl.
    by rewrite fs_written_nil, out_written_nil. }
  inversion Hops as [|? ? Ho Hrest]; subst.
  simpl. rewrite Hctx, Ho.
  step_log. step.
  destruct (File_Write_leaves outFile (gob.encode (gob.of_op o)) w0)
    as (Hfs1 & Hout1 & Htr1 & Hin1 & Hbs1).
  destruct (IH ((index + 1) mod 2 ^ 64)%N (S k)
    (File_Write outFile (gob.encode (gob.of_op o)) w0).2 Hrest)
    as (w' & Hrun & Hfs' & Hout' & Htr' & Hin' & Hbs').
  exists w'. split; [exact Hrun|].
  unfold leaves.
  rewrite Hfs', Hout', Htr', Hin', Hbs', Hfs1, Hout1, Htr1, Hin1, Hbs1.
  rewrite Hfs, Hout, Htr, Hin, Hbs.
  by rewrite stream_cons, fs_written_app, out_written_app.
Qed.

Lemma open_infile_Ok (w : World) :
  infilePath cfg = "" ∨ is_Some (fs w !! infilePath cfg) →
  open_infile cfg w
  = (Ok (infile cfg),
     if decide (infilePath cfg = "") then w
     else with_event (ev_Open (infilePath cfg)) w).
Proof.
  intros Hin. unfold open_infile, infile.
  destruct (decide (infilePath cfg = "")) as [|Hne]; [done|].
  destruct Hin as [|[T HT]]; [done|].
  step. by rewrite HT.
Qed.

Lemma create_outfile_Ok (w : World) :
  create_outfile cfg w
  = (Ok (outfile cfg),
     if decide (outfilePath cfg = "") then w
     else with_event (ev_Create (outfilePath cfg))
            (with_fs (insert (outfilePath cfg) []) w)).
Proof.
  unfold create_outfile, outfile.
  destruct (decide (outfilePath cfg = "")); [done|]. by step.
Qed.

Lemma makeDiff_decoder_stream (sigs : list BlockSignature) :
  Forall (λ c, sig_Error c = None) sigs →
  makeDiff_decoder context_Background
    (S (length (gob.stream (map gob.of_sig sigs)))) 0
    (gob.stream (map gob.of_sig sigs))
  = sigs.
Proof.
  intros Hsigs.
  destruct (decoder_fuel gob.of_sig sigs []) as [fuel Hfuel].
  rewrite app_nil_r in Hfuel. rewrite Hfuel.
  rewrite <- (app_nil_r (gob.stream _)) at 1.
  rewrite makeDiff_decoder_prefix by done.
  rewrite makeDiff_decoder_S. simpl. apply app_nil_r.
Qed.

Lemma applyPatch_decoder_stream (ops : list BlockOperation) :
  Forall (λ o, op_Error o = None) ops →
  applyPatch_decoder context_Background
    (S (length (gob.stream (map gob.of_op ops)))) 0
    (gob.stream (map gob.of_op ops))
  = ops.
Proof.
  intros Hops.
  destruct (decoder_fuel gob.of_op ops []) as [fuel Hfuel].
  rewrite app_nil_r in Hfuel. rewrite Hfuel.
  rewrite <- (app_nil_r (gob.stream _)) at 1.
  rewrite applyPatch_decoder_prefix by done.
  rewrite applyPatch_decoder_S. simpl. apply app_nil_r.
Qed.

Lemma gsync_LookUpTable_Background {A} (sigs : list BlockSignature)
    (k : gmap N (list (N * list byte)) → M A) (w : World) :
  (gsync_LookUpTable context_Background sigs ≫= λ '(cacheSigs, _), k cacheSigs) w
  = k (table_of sigs) (with_event (ev_gsync "LookUpTable" (gsync_BlockSize w)) w).
Proof.
  unfold mbind, M_bind, gsync_LookUpTable, table_of. simpl.
  by destruct (gsync.LookUpTable _ sigs).
Qed.

Lemma makeDiff_Ok (w : World) (sigs : list BlockSignature) :
  fs w !! (sourcefilePath cfg +:+ ".fingerprint")
    = Some (gob.stream (map gob.of_sig sigs)) →
  Forall (λ c, sig_Error c = None) sigs →
  blockSize cfg ≠ 0 →
  infilePath cfg = "" ∨ is_Some (fs w !! infilePath cfg) →
  let patch :=
    gob.encode (gob.VInt (diff_total cfg (gob.stream (map gob.of_sig sigs))))
    ++ gob.stream (map gob.of_op
         (gsync.Sync (λ _, false) (gsync_BlockSize w) (input_of cfg w)
            (table_of sigs))) in
  ∃ w', makeDiff cfg context_Background w = (Ok (), w') ∧
    leaves w'
      (fs_written (outfile cfg) patch (created cfg (fs w)))
      (out_written (outfile cfg) patch (stdout w))
      (trace w ++ diff_events cfg (gsync_BlockSize w)) w ∧
    last (stderr w')
      = Some (Datahash (input_of cfg w)).
Proof.
  intros Hfp Hsigs Hbs Hin patch. subst patch.
  unfold makeDiff, open_infile, create_outfile, input_of, diff_total,
    diff_events, created, outfile, infile.
  destruct (debug cfg), (decide (infilePath cfg = "")) as [Hi|Hi],
    (decide (outfilePath cfg = "")) as [Ho|Ho].
  all: try (destruct Hin as [|[T HT]]; [done|]).
  all: step; rewrite Hfp; step; step_div; step; cbn iota beta.
  all: simpl contents; rewrite Hfp; simpl default.
  all: rewrite makeDiff_decoder_stream by done.
  all: step; rewrite gsync_LookUpTable_Background; step.
  all: first [ erewrite bind_Ok
                 by (erewrite bind_Ok by reflexivity; norm; rewrite HT; reflexivity)
             | step ].
  all: first [ erewrite bind_Ok
                 by (erewrite bind_Ok by reflexivity; apply int64_div_Ok; assumption)
             | step ].
  all: first [ erewrite bind_Ok by (erewrite bind_Ok by reflexivity; reflexivity)
             | step ].
  all: step; cbn iota beta; step; step; norm.
  all: match goal with |- context [(makeDiff_loop cfg ?c ?f ?i ?k ?ops ≫= _) ?w0] =>
         destruct (makeDiff_loop_Ok c f i k ops w0)
           as (w1 & Hloop & Hfs1 & Hout1 & Htr1 & Hin1 & Hbs1);
           [done|apply Sync_Error|];
         rewrite (bind_Ok _ _ _ _ _ Hloop)
       end.
  all: eexists; split; [step; reflexivity|].
  all: split; [|by (simpl; rewrite last_snoc)].
  all: unfold leaves; norm; rewrite Hfs1, Hout1, Htr1, Hin1, Hbs1; norm.
  all: rewrite ?alter_append, <- ?app_assoc, ?Hfp; done.
Qed.

(** [applyPatch] on a patch that starts with a leading value [n]: the
    operations are decoded from what follows it, and whatever [Apply] has
    written stays in the output. *)
Lemma applyPatch_run (ctx : Context) (w : World) (B : list byte) (n : Z)
    (rest : list byte) :
  fs w !! sourcefilePath cfg = Some B →
  infilePath cfg = "" ∨ is_Some (fs w !! infilePath cfg) →
  input_of cfg w = gob.encode (gob.VInt n) ++ rest →
  let r :=
    gsync.Apply (ctx in_Apply) (gsync_BlockSize w)
      (default [] (created cfg (fs w) !! sourcefilePath cfg))
      (applyPatch_decoder ctx (S (length rest)) 0 rest) in
  ∃ w', applyPatch cfg ctx w
        = (match r.2 with None => Ok () | Some _ => Exit 1 end, w') ∧
    leaves w'
      (fs_written (outfile cfg) r.1 (created cfg (fs w)))
      (out_written (outfile cfg) r.1 (stdout w))
      (trace w ++ patch_events cfg (gsync_BlockSize w)) w ∧
    (r.2 = None → last (stderr w') = Some (Datahash r.1)).
Proof.
  intros HB Hin Hpatch r. subst r. revert Hpatch.
  unfold applyPatch, open_infile, create_outfile, input_of, patch_events,
    created, outfile, infile, Datahash.
  destruct (debug cfg), (decide (infilePath cfg = "")) as [Hi|Hi],
    (decide (outfilePath cfg = "")) as [Ho|Ho]; intros Hpatch.
  all: try (destruct Hin as [|[T HT]]; [done|]).
  all: step; rewrite HB.
  all: first [ erewrite bind_Ok
                 by (erewrite bind_Ok by reflexivity; norm; rewrite HT; reflexivity)
             | step ].
  all: first [ erewrite bind_Ok by (erewrite bind_Ok by reflexivity; reflexivity)
             | step ].
  all: step; norm; rewrite Hpatch, decode_int_encode.
  all: step; step; cbn iota beta; norm; rewrite ?HB; norm.
  all: match goal with |- context [gsync.Apply ?d ?b ?c ?o] =>
         destruct (gsync.Apply d b c o) as [written [e|]] end.
  all: norm.
  all: eexists; (split; [reflexivity|]).
  all: (split; [|first [done | by (intros _; simpl; rewrite last_snoc)]]).
  all: unfold leaves; norm; rewrite <- ?app_assoc; done.
Qed.

End diff.

(** ** The footprint of a session *)

Lemma within_refl (cfg : Flags) (w : World) : within cfg w w.
Proof. split; [done|]. exists []. by rewrite app_nil_r. Qed.

Lemma within_trans (cfg : Flags) (w1 w2 w3 : World) :
  within cfg w1 w2 → within cfg w2 w3 → within cfg w1 w3.
Proof.
  intros [Hbs1 (n1 & Ht1 & Hn1)] [Hbs2 (n2 & Ht2 & Hn2)].
  split; [congruence|]. exists (n1 ++ n2).
  rewrite Ht2, Ht1, app_assoc. split; [done|].
  apply Forall_app. split; [done|]. by rewrite <- Hbs1.
Qed.

Lemma within_event (cfg : Flags) (e : event) (w w' : World) :
  allowed cfg (gsync_BlockSize w) e →
  gsync_BlockSize w' = gsync_BlockSize w →
  trace w' = trace w ++ [e] →
  within cfg w w'.
Proof. intros He Hbs Ht. split; [done|]. exists [e]. by repeat constructor. Qed.

Lemma within_quiet (cfg : Flags) (w w' : World) :
  gsync_BlockSize w' = gsync_BlockSize w → trace w' = trace w → within cfg w w'.
Proof. intros Hbs Ht. split; [done|]. exists []. by rewrite app_nil_r. Qed.

Lemma keeps_bind (cfg : Flags) {A B} (m : M A) (f : A → M B) :
  keeps cfg m → (∀ a, keeps cfg (f a)) → keeps cfg (m ≫= f).
Proof.
  intros Hm Hf w. unfold mbind, M_bind.
  specialize (Hm w). destruct (m w) as [[a|c] w1]; simpl in *; [|done].
  eapply within_trans; [exact Hm|apply Hf].
Qed.

Lemma keeps_ret (cfg : Flags) {A} (a : A) : keeps cfg (mret a).
Proof. intros w. apply within_refl. Qed.

Lemma keeps_when (cfg : Flags) (b : bool) (m : M unit) :
  keeps cfg m → keeps cfg (when b m).
Proof. destruct b; [done|]. intros _. apply keeps_ret. Qed.

Lemma keeps_log_Print (cfg : Flags) (operands : list operand) :
  keeps cfg (log_Print operands).
Proof. intros w. by apply within_quiet. Qed.

Lemma keeps_log_Fatal (cfg : Flags) {A} (operands : list operand) :
  keeps cfg (@log_Fatal A operands).
Proof. intros w. by apply within_quiet. Qed.

Lemma keeps_File_Write (cfg : Flags) (f : File) (data : list byte) :
  keeps cfg (File_Write f data).
Proof. intros w. by destruct f; apply within_quiet. Qed.

Lemma keeps_gob_Encode (cfg : Flags) (f : File) (v : gob.value) :
  keeps cfg (gob_Encode f v).
Proof.
  apply keeps_bind; [apply keeps_File_Write|intros; apply keeps_ret].
Qed.

Lemma keeps_int64_div (cfg : Flags) (a b : Z) : keeps cfg (int64_div a b).
Proof.
  unfold int64_div. destruct (decide (b = 0)); [|apply keeps_ret].
  intros w. by apply within_quiet.
Qed.

Lemma keeps_missing_or_empty (cfg : Flags) (r : error + Z) :
  keeps cfg (missing_or_empty r).
Proof.
  unfold missing_or_empty. destruct (IsNotExist r); [apply keeps_ret|].
  destruct r as [e|size]; simpl.
  - intros w. by apply within_quiet.
  - apply keeps_bind; [apply keeps_ret|intros; apply keeps_ret].
Qed.

Lemma keeps_os_Open (cfg : Flags) (name : string) :
  allowed cfg 0 (ev_Open name) → keeps cfg (os_Open name).
Proof. intros Hn w. by apply (within_event cfg (ev_Open name)). Qed.

Lemma keeps_os_Create (cfg : Flags) (name : string) :
  allowed cfg 0 (ev_Create name) → keeps cfg (os_Create name).
Proof. intros Hn w. by apply (within_event cfg (ev_Create name)). Qed.

Lemma keeps_os_Remove (cfg : Flags) (name : string) :
  allowed cfg 0 (ev_Remove name) → keeps cfg (os_Remove name).
Proof. intros Hn w. by apply (within_event cfg (ev_Remove name)). Qed.

Lemma keeps_os_Stat (cfg : Flags) (name : string) :
  allowed cfg 0 (ev_Stat name) → keeps cfg (os_Stat name).
Proof. intros Hn w. by apply (within_event cfg (ev_Stat name)). Qed.

(** [os.Create] returns the file it has created. *)
Lemma keeps_bind_Create (cfg : Flags) {B} (name : string)
    (f : error + File → M B) :
  allowed cfg 0 (ev_Create name) →
  keeps cfg (f (inr (os_File name))) →
  keeps cfg (os_Create name ≫= f).
Proof.
  intros Hn Hf w. unfold mbind, M_bind. simpl.
  eapply within_trans; [|apply Hf].
  by apply (within_event cfg (ev_Create name)).
Qed.

Lemma keeps_File_Size (cfg : Flags) (f : File) : keeps cfg (File_Size f).
Proof. intros w. by apply within_quiet. Qed.

Lemma keeps_File_read (cfg : Flags) (f : File) : keeps cfg (File_read f).
Proof. intros w. by apply within_quiet. Qed.

Section footprint.
Context `{Primitives}.
Variable cfg : Flags.

Lemma keeps_gsync_Signatures (ctx : Context) (r : File) :
  keeps cfg (gsync_Signatures ctx r).
Proof. intros w. by apply (within_event cfg (ev_gsync "Signatures" (gsync_BlockSize w))). Qed.

Lemma keeps_gsync_LookUpTable (ctx : Context) (sigsCh : list BlockSignature) :
  keeps cfg (gsync_LookUpTable ctx sigsCh).
Proof. intros w. by apply (within_event cfg (ev_gsync "LookUpTable" (gsync_BlockSize w))). Qed.

Lemma keeps_gsync_Sync (ctx : Context) (r : File)
    (remote : gmap N (list (N * list byte))) :
  keeps cfg (gsync_Sync ctx r remote).
Proof. intros w. by apply (within_event cfg (ev_gsync "Sync" (gsync_BlockSize w))). Qed.

Lemma keeps_gsync_Apply (ctx : Context) (dst cache : File)
    (ops : list BlockOperation) :
  keeps cfg (gsync_Apply ctx dst cache ops).
Proof.
  intros w. apply (within_event cfg (ev_gsync "Apply" (gsync_BlockSize w)));
    [done|by destruct dst..].
Qed.

Lemma keeps_remove_outfile : keeps cfg (remove_outfile cfg).
Proof. apply keeps_when, keeps_os_Remove. by right. Qed.

Lemma keeps_open_infile : keeps cfg (open_infile cfg).
Proof.
  unfold open_infile. case_decide; [apply keeps_ret|].
  apply keeps_bind; [apply keeps_os_Open; by right; right|].
  intros [e|f]; [apply keeps_log_Fatal|apply keeps_ret].
Qed.

Lemma keeps_bind_create_outfile {B} (f : File → M B) :
  keeps cfg (f (outfile cfg)) → keeps cfg (create_outfile cfg ≫= f).
Proof.
  intros Hf w. rewrite (bind_Ok _ _ _ _ _ (create_outfile_Ok cfg w)).
  eapply within_trans; [|apply Hf].
  case_decide; [apply within_refl|].
  apply (within_event cfg (ev_Create (outfilePath cfg))); [by right|done..].
Qed.

Lemma keeps_generateFingerprint_loop (ctx : Context) (k : nat)
    (sigsCh : list BlockSignature) :
  keeps cfg (generateFingerprint_loop cfg ctx
               (os_File (sourcefilePath cfg +:+ ".fingerprint")) k sigsCh).
Proof.
  revert k. induction sigsCh as [|c rest IH]; intros k; simpl; [apply keeps_ret|].
  assert (Hfail : ∀ ops, keeps cfg
            (os_Remove (sourcefilePath cfg +:+ ".fingerprint");; @log_Fatal () ops)).
  { intros ops. apply keeps_bind; [apply keeps_os_Remove; by left|].
    intros _. apply keeps_log_Fatal. }
  destruct (ctx in_generateFingerprint k); [apply Hfail|].
  destruct (sig_Error c); [apply Hfail|].
  apply keeps_bind; [apply keeps_when, keeps_log_Print|intros _].
  apply keeps_bind; [apply keeps_gob_Encode|intros [e|]]; [apply Hfail|apply IH].
Qed.

Lemma keeps_generateFingerprint (ctx : Context) :
  keeps cfg (generateFingerprint cfg ctx).
Proof.
  unfold generateFingerprint.
  apply keeps_bind; [apply keeps_os_Open; by left|].
  intros [e|srcFile]; [apply keeps_log_Fatal|].
  apply keeps_bind_Create; [by left|].
  apply keeps_bind; [apply keeps_when, keeps_log_Print|intros _].
  apply keeps_bind; [apply keeps_File_Size|intros size].
  apply keeps_bind; [apply keeps_int64_div|intros _].
  apply keeps_bind; [apply keeps_gsync_Signatures|intros [sigsCh _]].
  apply keeps_bind; [apply keeps_generateFingerprint_loop|intros _].
  apply keeps_when, keeps_log_Print.
Qed.

Lemma keeps_makeDiff_loop (ctx : Context) (outFile : File) (index : N)
    (k : nat) (opsCh : list BlockOperation) :
  keeps cfg (makeDiff_loop cfg ctx outFile index k opsCh).
Proof.
  revert index k. induction opsCh as [|o rest IH]; intros index k; simpl;
    [apply keeps_ret|].
  assert (Hfail : ∀ ops, keeps cfg (remove_outfile cfg;; @log_Fatal () ops)).
  { intros ops. apply keeps_bind; [apply keeps_remove_outfile|].
    intros _. apply keeps_log_Fatal. }
  destruct (ctx in_makeDiff k); [apply Hfail|].
  destruct (op_Error o); [apply Hfail|].
  apply keeps_bind; [apply keeps_when, keeps_log_Print|intros _].
  apply keeps_bind; [apply keeps_gob_Encode|intros [e|]]; [apply Hfail|apply IH].
Qed.

Lemma keeps_makeDiff (ctx : Context) : keeps cfg (makeDiff cfg ctx).
Proof.
  unfold makeDiff.
  assert (Hfail : ∀ ops, keeps cfg (remove_outfile cfg;; @log_Fatal () ops)).
  { intros ops. apply keeps_bind; [apply keeps_remove_outfile|].
    intros _. apply keeps_log_Fatal. }
  apply keeps_bind; [apply keeps_os_Open; by right; left|].
  intros [e|fpFile]; [apply keeps_log_Fatal|].
  apply keeps_bind; [apply keeps_File_Size|intros size].
  apply keeps_bind; [apply keeps_int64_div|intros _].
  apply keeps_bind; [apply keeps_File_read|intros fp].
  apply keeps_bind; [apply keeps_when, keeps_log_Print|intros _].
  apply keeps_bind; [apply keeps_gsync_LookUpTable|intros [cacheSigs _]].
  apply keeps_bind; [apply keeps_when, keeps_log_Print|intros _].
  apply keeps_bind; [apply keeps_open_infile|intros inFile].
  apply keeps_bind.
  { case_decide; [apply keeps_ret|].
    apply keeps_bind; [apply keeps_File_Size|intros; apply keeps_int64_div]. }
  intros total. apply keeps_bind_create_outfile.
  apply keeps_bind; [apply keeps_gsync_Sync|intros [[opsCh datahash] [e|]]];
    [apply Hfail|].
  apply keeps_bind; [apply keeps_when, keeps_log_Print|intros _].
  apply keeps_bind; [apply keeps_gob_Encode|intros [e|]]; [apply Hfail|].
  apply keeps_bind; [apply keeps_makeDiff_loop|intros _].
  apply keeps_bind; [apply keeps_when, keeps_log_Print|intros _].
  apply keeps_log_Print.
Qed.

Lemma keeps_applyPatch (ctx : Context) : keeps cfg (applyPatch cfg ctx).
Proof.
  unfold applyPatch.
  apply keeps_bind; [apply keeps_os_Open; by left|].
  intros [e|srcFile]; [apply keeps_log_Fatal|].
  apply keeps_bind; [apply keeps_open_infile|intros inFile].
  apply keeps_bind_create_outfile.
  apply keeps_bind; [apply keeps_File_read|intros patch].
  destruct (gob.decode_int patch).
  1,2: apply keeps_bind; [apply keeps_remove_outfile|intros _; apply keeps_log_Fatal].
  apply keeps_bind; [apply keeps_when, keeps_log_Print|intros _].
  apply keeps_bind; [apply keeps_gsync_Apply|intros [datahash [e|]]];
    [apply keeps_log_Fatal|].
  apply keeps_bind; [apply keeps_when, keeps_log_Print|intros _].
  apply keeps_log_Print.
Qed.

(** Every event [main] adds to the trace is allowed for its flags, the
    block size being the one of the flags; [gsync.BlockSize] holds that
    size from the assignment on. *)
Lemma main_footprint (w : World) :
  (∃ new, trace (main cfg w).2 = trace w ++ new ∧
          Forall (allowed cfg (blockSize cfg)) new) ∧
  gsync_BlockSize (main cfg w).2
  = if decide (sourcefilePath cfg = "" ∨ blockSize cfg < 1024)
    then gsync_BlockSize w else blockSize cfg.
Proof.
  unfold main.
  destruct (decide (sourcefilePath cfg = "")).
  { destruct (decide (_ ∨ _)) as [_|Hn]; [|by destruct Hn; left]. split; [|done]. exists []. by rewrite app_nil_r. }
  destruct (decide (blockSize cfg < 1024)).
  { destruct (decide (_ ∨ _)) as [_|Hn]; [|by destruct Hn; right]. split; [|done]. exists []. by rewrite app_nil_r. }
  destruct (decide (sourcefilePath cfg = "" ∨ blockSize cfg < 1024)) as [[?|?]|_];
    [done..|].
  step.
  match goal with |- context [(?m (with_BlockSize ?b w)).2] =>
    assert (Hm : keeps cfg m);
      [|destruct (Hm (with_BlockSize b w)) as [Hb Hn]; split; [exact Hn|exact Hb]]
  end.
  repeat case_decide.
  - apply keeps_generateFingerprint.
  - apply keeps_bind; [apply keeps_os_Stat; by right|intros s].
    apply keeps_bind; [apply keeps_missing_or_empty|intros regenerate].
    apply keeps_bind; [apply keeps_when, keeps_generateFingerprint|intros _].
    apply keeps_makeDiff.
  - apply keeps_bind; [apply keeps_os_Stat; by left|intros s].
    destruct (IsNotExist s); [apply keeps_log_Fatal|].
    apply keeps_bind; [apply keeps_os_Stat; by right|intros s'].
    apply keeps_bind; [apply keeps_missing_or_empty|intros [|]];
      [apply keeps_log_Fatal|apply keeps_applyPatch].
  - apply keeps_log_Fatal.
Qed.

End footprint.

(** ** Statements that do not look into some files *)

Lemma agree_weaken (D D' : string → Prop) (w1 w2 : World) :
  (∀ name, D' name → D name) → agree D' w1 w2 → agree D w1 w2.
Proof.
  intros Hsub (? & ? & ? & ? & ? & Hfs). split_and!; try done.
  intros name Hn. apply Hfs. intros Hd. by apply Hn, Hsub.
Qed.

Lemma agree_lookup (D : string → Prop) (w1 w2 : World) (name : string) :
  agree D w1 w2 → ¬ D name → fs w1 !! name = fs w2 !! name.
Proof. intros (_ & _ & _ & _ & _ & Hfs). apply Hfs. Qed.

Lemma agree_contents (D : string → Prop) (f : File) (w1 w2 : World) :
  agree D w1 w2 → outside D f → contents f w1 = contents f w2.
Proof.
  intros (Hin & _ & _ & _ & _ & Hfs) Hf. destruct f; simpl; [done..|].
  by rewrite (Hfs name Hf).
Qed.

Lemma blind_same (D : string → Prop) {A} (m : M A) :
  (∀ w1 w2, agree D w1 w2 → (m w1).1 = (m w2).1 ∧ agree D (m w1).2 (m w2).2) →
  blind D D m.
Proof. intros Hm w1 w2 Hw. destruct (Hm w1 w2 Hw). by split_and!. Qed.

Lemma blind_bind (D D1 D2 : string → Prop) {A B} (m : M A) (f : A → M B) :
  (∀ name, D1 name → D name) →
  blind D D1 m →
  (∀ a, blind D1 D2 (f a)) →
  blind D D2 (m ≫= f).
Proof.
  intros Hsub Hm Hf w1 w2 Hw. unfold mbind, M_bind.
  destruct (Hm w1 w2 Hw) as (Hr & HD & HD1).
  destruct (m w1) as [[a|c] w1'], (m w2) as [[a'|c'] w2']; simpl in *;
    try discriminate Hr.
  - injection Hr as <-.
    destruct (Hf a w1' w2' (HD1 a eq_refl)) as (Hr' & HD' & HD2).
    split_and!; [done| |done]. by eapply agree_weaken.
  - injection Hr as <-. by split_and!.
Qed.

Lemma blind_ret (D : string → Prop) {A} (a : A) : blind D D (mret a).
Proof. by apply blind_same. Qed.

Lemma blind_log_Print (D : string → Prop) (operands : list operand) :
  blind D D (log_Print operands).
Proof.
  apply blind_same. intros w1 w2 (? & ? & Herr & ? & ? & ?).
  split; [done|]. split_and!; simpl; try done. by rewrite Herr.
Qed.

Lemma blind_log_Fatal (D D' : string → Prop) {A} (operands : list operand) :
  blind D D' (@log_Fatal A operands).
Proof.
  intros w1 w2 (? & ? & Herr & ? & ? & ?).
  split; [done|]. split; [|done]. split_and!; simpl; try done. by rewrite Herr.
Qed.

Lemma blind_when (D : string → Prop) (b : bool) (m : M unit) :
  blind D D m → blind D D (when b m).
Proof. destruct b; [done|]. intros _. apply blind_ret. Qed.

Lemma agree_event (D : string → Prop) (e : event) (w1 w2 : World) :
  agree D w1 w2 → agree D (with_event e w1) (with_event e w2).
Proof.
  intros (? & ? & ? & ? & Htr & ?). split_and!; simpl; try done. by rewrite Htr.
Qed.

Lemma agree_fs (D D' : string → Prop) (f : gmap string (list byte) → gmap string (list byte))
    (w1 w2 : World) :
  agree D w1 w2 →
  (∀ name, ¬ D' name → f (fs w1) !! name = f (fs w2) !! name) →
  agree D' (with_fs f w1) (with_fs f w2).
Proof. intros (? & ? & ? & ? & ? & ?) Hf. by split_and!. Qed.

Lemma blind_os_Remove (D : string → Prop) (name : string) :
  blind D D (os_Remove name).
Proof.
  apply blind_same. intros w1 w2 Hw. split; [done|].
  apply agree_event. eapply agree_fs; [exact Hw|].
  intros p Hp. rewrite !lookup_delete.
  case_decide; [done|]. by rewrite (agree_lookup D w1 w2 p Hw Hp).
Qed.

Lemma blind_File_Write (D : string → Prop) (f : File) (data : list byte) :
  blind D D (File_Write f data).
Proof.
  apply blind_same. intros w1 w2 Hw. split; [done|].
  destruct f; simpl; [done| |].
  - destruct Hw as (? & Hout & ? & ? & ? & ?). split_and!; simpl; try done.
    by rewrite Hout.
  - eapply agree_fs; [exact Hw|].
    intros p Hp. rewrite !lookup_alter.
    case_decide as Heq; [rewrite Heq|]; by rewrite (agree_lookup D w1 w2 p Hw Hp).
Qed.

Section blind.
Context `{Primitives}.
Variable cfg : Flags.
Variable D : string → Prop.

Lemma blind_remove_outfile (D' : string → Prop) :
  blind D' D' (remove_outfile cfg).
Proof. apply blind_when, blind_os_Remove. Qed.

Lemma blind_bind_Open {B} (D' D2 : string → Prop) (name : string)
    (f : error + File → M B) :
  ¬ D' name →
  blind D' D2 (f (inl (fs_ErrNotExist name))) →
  blind D' D2 (f (inr (os_File name))) →
  blind D' D2 (os_Open name ≫= f).
Proof.
  intros Hn Hfail Hok w1 w2 Hw. unfold mbind, M_bind. simpl.
  rewrite (agree_lookup D' w1 w2 name Hw Hn).
  destruct (fs w2 !! name);
    [apply Hok|apply Hfail]; by apply agree_event.
Qed.

Lemma blind_bind_open_infile {B} (D' D2 : string → Prop) (f : File → M B) :
  (infilePath cfg ≠ "" → ¬ D' (infilePath cfg)) →
  blind D' D2 (f (infile cfg)) →
  blind D' D2 (open_infile cfg ≫= f).
Proof.
  intros Hn Hf. unfold open_infile, infile in *.
  destruct (decide (infilePath cfg = "")) as [Hi|Hi].
  { intros w1 w2 Hw. by apply Hf. }
  intros w1 w2 Hw. unfold mbind, M_bind, os_Open. simpl.
  rewrite (agree_lookup D' w1 w2 _ Hw (Hn Hi)).
  destruct (fs w2 !! infilePath cfg); simpl.
  - by apply Hf, agree_event.
  - apply (blind_log_Fatal D' D2 [a_error (fs_ErrNotExist (infilePath cfg))]).
    by apply agree_event.
Qed.

Lemma blind_bind_create_outfile {B} (D2 : string → Prop) (f : File → M B) :
  blind (unwritten cfg D) D2 (f (outfile cfg)) →
  blind D D2 (create_outfile cfg ≫= f).
Proof.
  intros Hf w1 w2 Hw.
  rewrite !(bind_Ok _ _ _ _ _ (create_outfile_Ok cfg _)).
  assert (Hw' : agree (unwritten cfg D)
    (if decide (outfilePath cfg = "") then w1
     else with_event (ev_Create (outfilePath cfg))
            (with_fs (insert (outfilePath cfg) []) w1))
    (if decide (outfilePath cfg = "") then w2
     else with_event (ev_Create (outfilePath cfg))
            (with_fs (insert (outfilePath cfg) []) w2))).
  { destruct (decide (outfilePath cfg = "")) as [Ho|Ho].
    - eapply agree_weaken; [|exact Hw]. intros name Hd. split; [done|by left].
    - apply agree_event. eapply agree_fs; [exact Hw|].
      intros name Hn. rewrite !lookup_insert. case_decide; [done|].
      apply (agree_lookup D w1 w2 name Hw).
      intros Hd. apply Hn. split; [done|]. right. congruence. }
  destruct (Hf _ _ Hw') as (Hr & HD & HD2). split_and!; [done| |done].
  eapply agree_weaken; [|exact HD]. by intros name [? _].
Qed.

Lemma blind_File_read (D' : string → Prop) (f : File) :
  outside D' f → blind D' D' (File_read f).
Proof.
  intros Hf. apply blind_same. intros w1 w2 Hw. unfold File_read. simpl.
  by rewrite (agree_contents D' f w1 w2 Hw Hf).
Qed.

Lemma blind_gsync_Apply (D' : string → Prop) (ctx : Context) (dst cache : File)
    (ops : list BlockOperation) :
  outside D' cache → blind D' D' (gsync_Apply ctx dst cache ops).
Proof.
  intros Hc. apply blind_same. intros w1 w2 Hw.
  unfold gsync_Apply.
  rewrite (agree_contents D' cache w1 w2 Hw Hc).
  rewrite (proj1 (proj2 (proj2 (proj2 Hw)))).
  cbn [fst snd]. split; [done|].
  apply (blind_File_Write D' dst _
           (with_event _ w1) (with_event _ w2)), agree_event, Hw.
Qed.

Lemma blind_applyPatch (ctx : Context) :
  ¬ D (sourcefilePath cfg) →
  (infilePath cfg ≠ "" → ¬ D (infilePath cfg)) →
  blind D (unwritten cfg D) (applyPatch cfg ctx).
Proof.
  intros Hsrc Hin. unfold applyPatch.
  assert (Hsub : ∀ name, (unwritten cfg D) name → D name) by (by intros name [? _]).
  assert (Hfail : ∀ ops, blind (unwritten cfg D) (unwritten cfg D)
            (remove_outfile cfg;; @log_Fatal () ops)).
  { intros ops. apply (blind_bind _ (unwritten cfg D)); [done|apply blind_remove_outfile|].
    intros _. apply blind_log_Fatal. }
  apply blind_bind_Open; [done|apply blind_log_Fatal|].
  apply blind_bind_open_infile; [done|].
  apply blind_bind_create_outfile.
  apply (blind_bind _ (unwritten cfg D)); [done| |intros patch].
  { apply blind_File_read. unfold infile. case_decide; [done|].
    intros [Hd _]. by apply Hin. }
  destruct (gob.decode_int patch); [apply Hfail..|].
  apply (blind_bind _ (unwritten cfg D));
    [done|apply blind_when, blind_log_Print|intros _].
  apply (blind_bind _ (unwritten cfg D)); [done| |intros [datahash [e|]]].
  - apply blind_gsync_Apply. by intros [Hd _].
  - apply blind_log_Fatal.
  - apply (blind_bind _ (unwritten cfg D));
      [done|apply blind_when, blind_log_Print|intros _].
    apply blind_log_Print.
Qed.

End blind.

(** * The claims *)

(** ** C1, C2: the round trip *)

Section roundtrip.
Context `{Primitives}.
Variables (cfg_d cfg_p : Flags) (w : World) (B T : list byte).

(** The diff session writes its patch to a named file, the patch session
    reads it from there; both name the same base file. *)
Hypothesis same_base : sourcefilePath cfg_p = sourcefilePath cfg_d.
Hypothesis patch_file : infilePath cfg_p = outfilePath cfg_d.
Hypothesis patch_named : outfilePath cfg_d ≠ "".
Hypothesis target_named : infilePath cfg_d ≠ "".
Hypothesis output_named : outfilePath cfg_p ≠ "".
(** The patch is not written over the base, the fingerprint or the target,
    the target is not the fingerprint file, and the output is not written
    over the base or the patch. *)
Hypothesis patch_not_base : outfilePath cfg_d ≠ sourcefilePath cfg_d.
Hypothesis patch_not_fingerprint :
  outfilePath cfg_d ≠ sourcefilePath cfg_d +:+ ".fingerprint".
Hypothesis patch_not_target : outfilePath cfg_d ≠ infilePath cfg_d.
Hypothesis target_not_fingerprint :
  infilePath cfg_d ≠ sourcefilePath cfg_d +:+ ".fingerprint".
Hypothesis output_not_base : outfilePath cfg_p ≠ sourcefilePath cfg_d.
Hypothesis output_not_patch : outfilePath cfg_p ≠ outfilePath cfg_d.
(** The block size is the one [main] has stored. *)
Hypothesis block_size : blockSize cfg_d = gsync_BlockSize w.
Hypothesis valid_size : 1024 ≤ gsync_BlockSize w.
Hypothesis base_file : fs w !! sourcefilePath cfg_d = Some B.
Hypothesis target_file : fs w !! infilePath cfg_d = Some T.
Hypothesis no_collision : collision_free (Z.to_nat (gsync_BlockSize w)) B T.

Lemma roundtrip_run :
  ∃ w1 w2 w3,
    generateFingerprint cfg_d context_Background w = (Ok (), w1) ∧
    makeDiff cfg_d context_Background w1 = (Ok (), w2) ∧
    applyPatch cfg_p context_Background w2 = (Ok (), w3) ∧
    fs w3 !! outfilePath cfg_p = Some T ∧
    last (stderr w2) = Some (Datahash T) ∧
    last (stderr w3) = Some (Datahash T).
Proof.
  set (sigs := gsync.Signatures (λ _, false) (gsync_BlockSize w) B).
  assert (Hsigs : Forall (λ c, sig_Error c = None) sigs) by apply Signatures_Error.
  destruct (generateFingerprint_Ok cfg_d w B) as (w1 & Hrun1 & Hfs1 & _ & _ & _ & Hbs1);
    [done|lia|]. fold sigs in Hfs1.
  assert (HT1 : input_of cfg_d w1 = T).
  { unfold input_of, created. rewrite !decide_False by done.
    rewrite Hfs1, lookup_insert_ne, lookup_insert_ne, target_file by done. done. }
  destruct (makeDiff_Ok cfg_d w1 sigs) as (w2 & Hrun2 & (Hfs2 & _ & _ & _ & Hbs2) & Hlog2).
  { rewrite Hfs1. apply lookup_insert_eq. }
  { done. }
  { lia. }
  { right. rewrite Hfs1, lookup_insert_ne, target_file by done. done. }
  rewrite HT1 in Hfs2, Hlog2. rewrite Hbs1 in Hfs2.
  set (ops := gsync.Sync (λ _, false) (gsync_BlockSize w) T (table_of sigs)) in Hfs2.
  set (total := diff_total cfg_d _) in Hfs2.
  unfold outfile, created in Hfs2. rewrite !decide_False in Hfs2 by done.
  simpl in Hfs2. rewrite alter_insert_eq in Hfs2. simpl in Hfs2.
  destruct (applyPatch_run cfg_p context_Background w2 B total
              (gob.stream (map gob.of_op ops)))
    as (w3 & Hrun3 & (Hfs3 & _) & Hlog3).
  { rewrite same_base, Hfs2, lookup_insert_ne, Hfs1, lookup_insert_ne
      by (done || apply fingerprint_ne). done. }
  { right. rewrite patch_file, Hfs2, lookup_insert_eq. done. }
  { unfold input_of, created. rewrite patch_file, !decide_False by done.
    rewrite lookup_insert_ne, Hfs2, lookup_insert_eq by done. done. }
  assert (Hbase : default [] (created cfg_p (fs w2) !! sourcefilePath cfg_p) = B).
  { unfold created. rewrite decide_False by done.
    rewrite same_base, lookup_insert_ne, Hfs2, lookup_insert_ne, Hfs1,
      lookup_insert_ne, base_file by (done || apply fingerprint_ne). done. }
  rewrite Hbase, Hbs2, Hbs1 in Hrun3, Hfs3, Hlog3.
  rewrite applyPatch_decoder_stream in Hrun3, Hfs3, Hlog3 by apply Sync_Error.
  change (context_Background in_Apply) with (λ _ : nat, false) in Hrun3, Hfs3, Hlog3.
  assert (Happly : gsync.Apply (λ _, false) (gsync_BlockSize w) B ops = (T, None)).
  { apply Apply_Sync; [lia|apply table_of_for, Signatures_block|done]. }
  rewrite Happly in Hrun3, Hfs3, Hlog3.
  exists w1, w2, w3. split_and!; [done..| | |by apply Hlog3].
  - rewrite Hfs3. unfold outfile, created. rewrite !decide_False by done.
    simpl. by rewrite lookup_alter_eq, lookup_insert_eq.
  - done.
Qed.

(** C1.  Fingerprinting the base [B], encoding the target [T] against the
    lookup table of that fingerprint and applying the resulting patch to [B]
    writes [T], byte for byte, for every block size of at least 1024:
    [generateFingerprint], [makeDiff] and [applyPatch] run to the end one
    after the other and the output file holds [T].  The strong hash is
    assumed to tell the windows of [T] from the blocks of [B]. *)
Theorem diff_then_patch_rebuilds_target :
  ∃ w1 w2 w3,
    generateFingerprint cfg_d context_Background w = (Ok (), w1) ∧
    makeDiff cfg_d context_Background w1 = (Ok (), w2) ∧
    applyPatch cfg_p context_Background w2 = (Ok (), w3) ∧
    fs w3 !! outfilePath cfg_p = Some T.
Proof.
  destruct roundtrip_run as (w1 & w2 & w3 & H1 & H2 & H3 & Hout & _).
  by exists w1, w2, w3.
Qed.

(** C2, as amended.  On such a round trip the digest [makeDiff] has
    accumulated over the target and the digest [applyPatch] has accumulated
    over its output are equal: each command logs its digest as its last
    line, and both lines show the digest of [T].  (Neither command compares
    digests; that is left to whoever reads the two lines.) *)
Theorem roundtrip_digests_agree :
  ∃ w1 w2 w3,
    generateFingerprint cfg_d context_Background w = (Ok (), w1) ∧
    makeDiff cfg_d context_Background w1 = (Ok (), w2) ∧
    applyPatch cfg_p context_Background w2 = (Ok (), w3) ∧
    last (stderr w2) = Some (Datahash T) ∧
    last (stderr w3) = last (stderr w2).
Proof.
  destruct roundtrip_run as (w1 & w2 & w3 & H1 & H2 & H3 & _ & Hd & Hp).
  exists w1, w2, w3. by rewrite Hp, Hd.
Qed.

End roundtrip.

Lemma example_collision_free (bs : nat) (B T : list byte) :
  @collision_free example_primitives bs B T.
Proof. intros i pre window post _ Heq. exact Heq. Qed.

Lemma diff_then_patch_rebuilds_target_witness :
  ∃ w1 w2 w3,
    @generateFingerprint example_primitives example_diff context_Background
      example_session = (Ok (), w1) ∧
    @makeDiff example_primitives example_diff context_Background w1 = (Ok (), w2) ∧
    @applyPatch example_primitives example_patch context_Background w2 = (Ok (), w3) ∧
    fs w3 !! "out" = Some example_target.
Proof.
  apply (@diff_then_patch_rebuilds_target example_primitives example_diff
           example_patch example_session example_base example_target);
    first [ done | vm_compute; done | apply example_collision_free ].
Defined.

Lemma roundtrip_digests_agree_witness :
  ∃ w1 w2 w3,
    @generateFingerprint example_primitives example_diff context_Background
      example_session = (Ok (), w1) ∧
    @makeDiff example_primitives example_diff context_Background w1 = (Ok (), w2) ∧
    @applyPatch example_primitives example_patch context_Background w2 = (Ok (), w3) ∧
    last (stderr w2) = Some (@Datahash example_primitives example_target) ∧
    last (stderr w3) = last (stderr w2).
Proof.
  apply (@roundtrip_digests_agree example_primitives example_diff
           example_patch example_session example_base example_target);
    first [ done | vm_compute; done | apply example_collision_free ].
Defined.


(** C2, as stated, fails: [main] never compares digests.  A patch session
    run against another base file than the one the patch was made for ends
    with status 0; its digest differs from the one the diff session has
    logged, and the digest line is all it writes to standard error. *)
Lemma digest_mismatch_is_not_reported :
  let after_patch := @main example_primitives example_patch example_mismatched in
  after_patch.1 = Ok () ∧
  last (stderr example_after_diff)
    = Some (@Datahash example_primitives example_target) ∧
  stderr after_patch.2
    = stderr example_after_diff
      ++ [@Datahash example_primitives (x44 :: example_other_base ++ [x45])] ∧
  fs after_patch.2 !! "out" = Some (x44 :: example_other_base ++ [x45]) ∧
  @Datahash example_primitives example_target
    ≠ @Datahash example_primitives (x44 :: example_other_base ++ [x45]).
Proof. vm_compute. split_and!; [reflexivity..|discriminate]. Qed.

(** ** C3: the leading value of a patch *)




(** ** C4: what a failing patch session leaves behind *)

(** C4 does not hold of the patch command.  The patch of this session
    holds one literal operation followed by a byte that is no record:
    [Apply] fails on the error-marked operation the decoder sends,
    [applyPatch] ends the process with status 1, and the output file it
    has created stays on disk with the bytes written so far; no [Remove] is
    issued for it.  (When the leading value cannot be decoded, the same
    function does remove the file.) *)
Lemma applyPatch_leaves_partial_output :
  let run := @main example_primitives example_patch example_broken_session in
  run.1 = Exit 1 ∧
  fs run.2 !! "out" = Some [x42] ∧
  (ev_Create "out" ∈ trace run.2) ∧
  (ev_Remove "out" ∉ trace run.2) ∧
  (let truncated := with_fs (insert "patch" []) example_broken_session in
   let run' := @main example_primitives example_patch truncated in
   run'.1 = Exit 1 ∧ fs run'.2 !! "out" = None).
Proof.
  vm_compute. split_and!; try reflexivity.
  - apply list_elem_of_In. vm_compute. tauto.
  - intros Hin. apply list_elem_of_In in Hin. vm_compute in Hin.
    repeat destruct Hin as [Hin|Hin]; try discriminate Hin. exact Hin.
Qed.

(** ** C5: the decoding goroutines end on their first error record *)

(** C5.  Both goroutines that feed a channel from a persisted artifact (the
    signature decoder of [makeDiff], the operation decoder of [applyPatch])
    behave alike.  Whatever the artifact and the cancellation, an
    error-marked record is the last record sent, so there is at most one.
    If the artifact starts with the well-formed records [good] and the
    goroutine finds the context cancelled at the poll that follows them
    (and at none before), or finds it not cancelled but cannot decode what
    follows them, it sends [good], then exactly one error-marked record
    (carrying the cancellation or the decoding error), and nothing more. *)
Theorem decoder_goroutines_stop_on_error (ctx : Context) :
  (∀ fp i c,
     makeDiff_decoder ctx (S (length fp)) 0 fp !! i = Some c →
     sig_Error c ≠ None →
     length (makeDiff_decoder ctx (S (length fp)) 0 fp) = S i) ∧
  (∀ good rest,
     Forall (λ c, sig_Error c = None) good →
     (∀ j, (j < length good)%nat → ctx in_makeDiff_decoder j = false) →
     ctx in_makeDiff_decoder (length good) = true ∨
       (ctx in_makeDiff_decoder (length good) = false ∧ gob.decode_sig rest = gob.Bad) →
     let fp := gob.stream (map gob.of_sig good) ++ rest in
     makeDiff_decoder ctx (S (length fp)) 0 fp
     = good ++ [mkSig 0 0 []
                  (Some (if ctx in_makeDiff_decoder (length good)
                         then context_Canceled else gob_error))]) ∧
  (∀ patch i o,
     applyPatch_decoder ctx (S (length patch)) 0 patch !! i = Some o →
     op_Error o ≠ None →
     length (applyPatch_decoder ctx (S (length patch)) 0 patch) = S i) ∧
  (∀ good rest,
     Forall (λ o, op_Error o = None) good →
     (∀ j, (j < length good)%nat → ctx in_applyPatch_decoder j = false) →
     ctx in_applyPatch_decoder (length good) = true ∨
       (ctx in_applyPatch_decoder (length good) = false ∧ gob.decode_op rest = gob.Bad) →
     let patch := gob.stream (map gob.of_op good) ++ rest in
     applyPatch_decoder ctx (S (length patch)) 0 patch
     = good ++ [mkOp 0 []
                  (Some (if ctx in_applyPatch_decoder (length good)
                         then context_Canceled else gob_error))]).
Proof.
  split_and!.
  - intros fp i c. apply makeDiff_decoder_terminal.
  - intros good rest Hgood Hctx Hstop fp. subst fp.
    destruct (decoder_fuel gob.of_sig good rest) as [fuel ->].
    rewrite makeDiff_decoder_prefix, makeDiff_decoder_S;
      [|done|intros j Hj; apply Hctx; lia].
    rewrite Nat.add_0_l. by destruct Hstop as [->|[-> ->]].
  - intros patch i o. apply applyPatch_decoder_terminal.
  - intros good rest Hgood Hctx Hstop patch. subst patch.
    destruct (decoder_fuel gob.of_op good rest) as [fuel ->].
    rewrite applyPatch_decoder_prefix, applyPatch_decoder_S;
      [|done|intros j Hj; apply Hctx; lia].
    rewrite Nat.add_0_l. by destruct Hstop as [->|[-> ->]].
Qed.

Lemma decoder_goroutines_stop_on_error_witness :
  makeDiff_decoder example_cancel
    (S (length (gob.stream (map gob.of_sig (take 2 example_sigs)) ++ [xff])))
    0 (gob.stream (map gob.of_sig (take 2 example_sigs)) ++ [xff])
  = take 2 example_sigs ++ [mkSig 0 0 [] (Some context_Canceled)] ∧
  applyPatch_decoder context_Background
    (S (length (gob.stream (map gob.of_op example_ops) ++ [xff])))
    0 (gob.stream (map gob.of_op example_ops) ++ [xff])
  = example_ops ++ [mkOp 0 [] (Some gob_error)].
Proof.
  destruct (decoder_goroutines_stop_on_error example_cancel) as (_ & Hsig & _).
  destruct (decoder_goroutines_stop_on_error context_Background) as (_ & _ & _ & Hop).
  split.
  - apply (Hsig (take 2 example_sigs) [xff]).
    + repeat constructor.
    + intros [|[|j]] Hj; [reflexivity..|simpl in Hj; lia].
    + left. reflexivity.
  - apply (Hop example_ops [xff]).
    + repeat constructor.
    + reflexivity.
    + right. split; reflexivity.
Defined.

(** ** C6: a missing base file or a small block size ends the program at once *)

(** C6.  With no base file path, or with a block size below 1024, [main]
    prints a message and the usage and returns: no file is opened, stated,
    created or removed (the trace is unchanged), the files are as they
    were, [gsync.BlockSize] is not assigned, and nothing else is written.
    The default block size is 6144, which is not rejected. *)
Theorem main_rejects_bad_flags `{Primitives} (cfg : Flags) (w : World) :
  sourcefilePath cfg = "" ∨ blockSize cfg < 1024 →
  let text :=
    if decide (sourcefilePath cfg = "") then "Missing File parameter"
    else "Invalid block size, must be more than 1024" in
  main cfg w
  = (Ok (),
     mkWorld (fs w) (stdin w) (stdout w ++ String.list_byte_of_string text ++ [x0a])
       (stderr w ++ [flag_usage]) (gsync_BlockSize w) (trace w)) ∧
  ∀ rest, blockSize (flag_defaults rest) = 6144 ∧
          ¬ blockSize (flag_defaults rest) < 1024.
Proof.
  intros Hbad. unfold main.
  destruct (decide (sourcefilePath cfg = "")) as [Hsrc|Hsrc].
  { split; [reflexivity|]. intros rest. simpl. lia. }
  destruct (decide (blockSize cfg < 1024)) as [Hbs|Hbs].
  { split; [reflexivity|]. intros rest. simpl. lia. }
  destruct Hbad; done.
Qed.

Lemma main_rejects_bad_flags_witness :
  @main example_primitives (mkFlags "base" "" "" false false 1023 ["fpgen"])
    (example_world [("base", [x41])] [])
  = (Ok (),
     mkWorld (list_to_map [("base", [x41])]) []
       (String.list_byte_of_string "Invalid block size, must be more than 1024" ++ [x0a])
       [flag_usage] 0 []).
Proof.
  apply (@main_rejects_bad_flags example_primitives
           (mkFlags "base" "" "" false false 1023 ["fpgen"])
           (example_world [("base", [x41])] [])).
  right. simpl. lia.
Defined.

(** ** C7: diff regenerates a missing or empty fingerprint *)

(** C7.  In a diff session with valid flags on an existing base file,
    a fingerprint file that is missing or empty does not end the program.
    [main] first runs [generateFingerprint], which succeeds and leaves the
    signatures of the base file in the fingerprint file, and then
    [makeDiff] in the world so obtained, which succeeds as well when the
    input can be opened: the session ends with status 0, and the output
    holds the patch, that is the leading value followed by the operations
    [gsync.Sync] yields for the input and the table of the regenerated
    signatures.  The trace shows the order: the fingerprint is stated, the
    base file opened, the fingerprint created and signed, and only then
    does the diff open its files. *)
Theorem diff_regenerates_fingerprint `{Primitives} (cfg : Flags) (w : World)
    (B : list byte) :
  sourcefilePath cfg ≠ "" →
  1024 ≤ blockSize cfg →
  flag_Arg cfg 0 = "diff" →
  fs w !! sourcefilePath cfg = Some B →
  fs w !! (sourcefilePath cfg +:+ ".fingerprint") = None ∨
    fs w !! (sourcefilePath cfg +:+ ".fingerprint") = Some [] →
  infilePath cfg = "" ∨ is_Some (fs w !! infilePath cfg) →
  let fingerprint := sourcefilePath cfg +:+ ".fingerprint" in
  let sigs := gsync.Signatures (λ _, false) (blockSize cfg) B in
  let w0 := with_event (ev_Stat fingerprint) (with_BlockSize (blockSize cfg) w) in
  ∃ w1 w2,
    generateFingerprint cfg context_Background w0 = (Ok (), w1) ∧
    fs w1 = <[fingerprint := gob.stream (map gob.of_sig sigs)]> (fs w) ∧
    makeDiff cfg context_Background w1 = (Ok (), w2) ∧
    main cfg w = (Ok (), w2) ∧
    let patch :=
      gob.encode (gob.VInt (diff_total cfg (gob.stream (map gob.of_sig sigs))))
      ++ gob.stream (map gob.of_op
           (gsync.Sync (λ _, false) (blockSize cfg) (input_of cfg w1)
              (table_of sigs))) in
    fs w2 = fs_written (outfile cfg) patch (created cfg (fs w1)) ∧
    stdout w2 = out_written (outfile cfg) patch (stdout w) ∧
    trace w2
    = trace w ++ [ev_Stat fingerprint; ev_Open (sourcefilePath cfg);
                  ev_Create fingerprint; ev_gsync "Signatures" (blockSize cfg)]
              ++ diff_events cfg (blockSize cfg).
Proof.
  intros Hsrc Hbs Harg HB Hfp Hin fingerprint sigs w0.
  assert (Hmain : main cfg w
                  = (generateFingerprint cfg context_Background;;
                     makeDiff cfg context_Background) w0).
  { unfold main. rewrite !decide_False, Harg by (done || lia).
    destruct (decide ("diff" = "fpgen")) as [|_]; [done|].
    destruct (decide ("diff" = "diff")) as [_|]; [|done].
    step. rewrite missing_or_empty_os_Stat. norm. unfold fingerprint.
    by destruct Hfp as [->| ->]. }
  destruct (generateFingerprint_Ok cfg w0 B)
    as (w1 & Hrun1 & Hfs1 & Hout1 & Htr1 & _ & Hbs1); [done|lia|].
  destruct (makeDiff_Ok cfg w1 sigs)
    as (w2 & Hrun2 & (Hfs2 & Hout2 & Htr2 & _) & _).
  - rewrite Hfs1. apply lookup_insert_eq.
  - apply Signatures_Error.
  - lia.
  - destruct Hin as [|Hin]; [by left|right].
    rewrite Hfs1. simpl. fold fingerprint.
    destruct (decide (fingerprint = infilePath cfg)) as [<-|Hne].
    + by rewrite lookup_insert_eq.
    + by rewrite lookup_insert_ne.
  - exists w1, w2. rewrite Hbs1 in *. simpl in Hout1, Htr1.
    split; [exact Hrun1|]. split; [exact Hfs1|]. split; [exact Hrun2|].
    split; [by rewrite Hmain, (bind_Ok _ _ _ _ _ Hrun1)|].
    intros patch. split_and!; [exact Hfs2| |].
    + by rewrite Hout2, Hout1.
    + rewrite Htr2, Htr1. by rewrite <- !app_assoc.
Qed.

Lemma diff_regenerates_fingerprint_witness :
  ∃ w2,
    @main example_primitives example_diff example_session = (Ok (), w2) ∧
    fs w2 !! "patch"
    = Some (gob.encode (gob.VInt 1)
            ++ gob.stream (map gob.of_op
                 [mkOp 0 [x44] None; mkOp 0 [] None; mkOp 0 [x45] None])).
Proof.
  destruct (@diff_regenerates_fingerprint example_primitives example_diff
              example_session example_base)
    as (w1 & w2 & _ & Hfs1 & _ & Hmain & Hfs2 & _).
  - discriminate.
  - discriminate.
  - reflexivity.
  - by vm_compute.
  - left. by vm_compute.
  - right. eexists. by vm_compute.
  - exists w2. split; [exact Hmain|].
    unfold input_of in Hfs2. rewrite Hfs2, Hfs1. by vm_compute.
Defined.

(** ** C8: one block size per session *)

(** C8.  Whatever the flags and the world, every gsync function [main]
    calls (for signatures, lookup table, delta scan or patch application)
    finds in [gsync.BlockSize] the block size of the flags; the variable is
    assigned before the command is chosen and never again, so that it holds
    the block size of the flags when the session ends (or its old value,
    when the flags are rejected and no command runs). *)
Theorem block_size_is_fixed_for_the_session `{Primitives} (cfg : Flags)
    (w : World) :
  (∃ new, trace (main cfg w).2 = trace w ++ new ∧
     Forall (λ e, match e with
                  | ev_gsync _ b => b = blockSize cfg
                  | _ => True
                  end) new) ∧
  gsync_BlockSize (main cfg w).2
  = if decide (sourcefilePath cfg = "" ∨ blockSize cfg < 1024)
    then gsync_BlockSize w else blockSize cfg.
Proof.
  destruct (main_footprint cfg w) as [(new & Ht & Hnew) Hbs].
  split; [|exact Hbs]. exists new. split; [exact Ht|].
  eapply Forall_impl; [exact Hnew|]. by intros [].
Qed.

(** ** C9: patch does not read the fingerprint *)

(** C9.  In a patch session with valid flags the contents of the fingerprint file do not
    matter, as long as there are some: run in two worlds that differ only
    in what the fingerprint file holds (neither empty, and the fingerprint
    file is not itself given as the patch), [main] ends with the same
    status, writes the same to standard output and standard error, issues
    the same events and leaves the same files, the fingerprint file apart;
    when it completes, the reconstructed output is the same in both, also
    when it has been written over the fingerprint file. *)
Theorem patch_ignores_fingerprint_contents `{Primitives} (cfg : Flags)
    (w : World) (c1 c2 : list byte) :
  sourcefilePath cfg ≠ "" →
  1024 ≤ blockSize cfg →
  flag_Arg cfg 0 = "patch" →
  c1 ≠ [] →
  c2 ≠ [] →
  infilePath cfg ≠ sourcefilePath cfg +:+ ".fingerprint" →
  let fingerprint := sourcefilePath cfg +:+ ".fingerprint" in
  let run1 := main cfg (with_fs (insert fingerprint c1) w) in
  let run2 := main cfg (with_fs (insert fingerprint c2) w) in
  run1.1 = run2.1 ∧
  stdout run1.2 = stdout run2.2 ∧
  stderr run1.2 = stderr run2.2 ∧
  trace run1.2 = trace run2.2 ∧
  (∀ name, name ≠ fingerprint → fs run1.2 !! name = fs run2.2 !! name) ∧
  (run1.1 = Ok () → outfilePath cfg ≠ "" →
   fs run1.2 !! outfilePath cfg = fs run2.2 !! outfilePath cfg).
Proof.
  intros Hsrc Hbs Harg Hc1 Hc2 Hin fingerprint run1 run2. subst run1 run2.
  assert (Hlen : ∀ c : list byte, c ≠ [] →
            bool_decide (Z.of_nat (length c) < 1) = false).
  { intros [|b c] Hc; [done|]. apply bool_decide_eq_false. simpl. lia. }
  assert (Hw : ∀ f : World → World,
            (∀ x, fs (f x) = fs x ∧ stdin (f x) = stdin x ∧ stdout (f x) = stdout x ∧
                  stderr (f x) = stderr x) →
            (∀ x y, gsync_BlockSize (f x) = gsync_BlockSize (f y) ∧
                    (trace x = trace y → trace (f x) = trace (f y))) →
            agree (λ name, name = fingerprint)
              (f (with_fs (insert fingerprint c1) w))
              (f (with_fs (insert fingerprint c2) w))).
  { intros f Hf Hg. split_and!.
    - by rewrite !(proj1 (proj2 (Hf _))).
    - by rewrite !(proj1 (proj2 (proj2 (Hf _)))).
    - by rewrite !(proj2 (proj2 (proj2 (Hf _)))).
    - apply Hg.
    - by apply Hg.
    - intros name Hn. rewrite !(proj1 (Hf _)). simpl.
      by rewrite !lookup_insert_ne by congruence. }
  unfold main.
  rewrite !decide_False, Harg by (done || lia).
  destruct (decide ("patch" = "fpgen")) as [|_]; [done|].
  destruct (decide ("patch" = "diff")) as [|_]; [done|].
  destruct (decide ("patch" = "patch")) as [_|]; [|done].
  do 2 (step; step; norm).
  rewrite !lookup_insert_ne by apply fingerprint_ne.
  destruct (fs w !! sourcefilePath cfg) as [B|]; cbn [IsNotExist].
  2: { split_and!; try done. intros name Hn. simpl.
       by rewrite !lookup_insert_ne by congruence. }
  rewrite !missing_or_empty_os_Stat. norm.
  rewrite !lookup_insert_eq, !Hlen by done.
  pose (f := λ x, with_event (ev_Stat (sourcefilePath cfg +:+ ".fingerprint"))
                    (with_event (ev_Stat (sourcefilePath cfg))
                       (with_BlockSize (blockSize cfg) x))).
  destruct (blind_applyPatch cfg (λ name, name = fingerprint) context_Background
              (λ Heq, fingerprint_ne _ (eq_sym Heq)) (λ _, Hin)
              (f (with_fs (insert fingerprint c1) w))
              (f (with_fs (insert fingerprint c2) w)))
    as (Hr & (_ & Hout & Herr & _ & Htr & Hfs) & Hdone).
  { apply (Hw f).
    - done.
    - intros x y. split; [done|]. simpl. by intros ->. }
  subst f. cbv beta in *.
  split_and!; [done..|by intros name Hn; apply Hfs|].
  intros Hok Ho. destruct (Hdone () Hok) as (_ & _ & _ & _ & _ & Hfs').
  apply Hfs'. intros [_ [?|?]]; done.
Qed.

Lemma patch_ignores_fingerprint_contents_witness :
  (@main example_primitives example_patch
     (with_fs (insert "base.fingerprint" [x00]) example_after_diff)).1
  = (@main example_primitives example_patch
       (with_fs (insert "base.fingerprint" [x01; x02]) example_after_diff)).1.
Proof.
  pose proof (@patch_ignores_fingerprint_contents example_primitives example_patch
                example_after_diff [x00] [x01; x02]) as Hruns.
  destruct Hruns as [Hstatus _].
  - discriminate.
  - discriminate.
  - reflexivity.
  - discriminate.
  - discriminate.
  - discriminate.
  - exact Hstatus.
Defined.

(** ** C10: where the fingerprint lives *)

(** C10.  The fingerprint of the base file is the file named by the base
    file path with [".fingerprint"] appended, for all three commands:
    (1) the files a session opens, creates, removes or stats by name are
    the base file, that file, the input and the output, and only the
    fingerprint or the output are created or removed; (2) [fpgen] on an
    existing base file creates that file, whatever it held before, with
    the signatures of the base file, and touches no other file; (3) [diff]
    builds its lookup table from the signatures stored in that file;
    (4) [patch] refuses to run when that file is missing or empty. *)
Theorem fingerprint_path `{Primitives} (cfg : Flags) (w : World) :
  sourcefilePath cfg ≠ "" →
  1024 ≤ blockSize cfg →
  let fingerprint := sourcefilePath cfg +:+ ".fingerprint" in
  (∃ new, trace (main cfg w).2 = trace w ++ new ∧
     Forall (allowed cfg (blockSize cfg)) new) ∧
  (∀ B, flag_Arg cfg 0 = "fpgen" →
     fs w !! sourcefilePath cfg = Some B →
     ∃ w', main cfg w = (Ok (), w') ∧
       fs w' = <[fingerprint :=
                   gob.stream (map gob.of_sig
                     (gsync.Signatures (λ _, false) (blockSize cfg) B))]> (fs w)) ∧
  (∀ sigs, flag_Arg cfg 0 = "diff" →
     fs w !! fingerprint = Some (gob.stream (map gob.of_sig sigs)) →
     sigs ≠ [] →
     Forall (λ c, sig_Error c = None) sigs →
     infilePath cfg = "" ∨ is_Some (fs w !! infilePath cfg) →
     ∃ w' total, main cfg w = (Ok (), w') ∧
       let patch :=
         gob.encode (gob.VInt total)
         ++ gob.stream (map gob.of_op
              (gsync.Sync (λ _, false) (blockSize cfg) (input_of cfg w)
                 (table_of sigs))) in
       fs w' = fs_written (outfile cfg) patch (created cfg (fs w)) ∧
       stdout w' = out_written (outfile cfg) patch (stdout w)) ∧
  (flag_Arg cfg 0 = "patch" →
     is_Some (fs w !! sourcefilePath cfg) →
     fs w !! fingerprint = None ∨ fs w !! fingerprint = Some [] →
     (main cfg w).1 = Exit 1 ∧ fs (main cfg w).2 = fs w ∧
     last (stderr (main cfg w).2)
       = Some (log_line [a_string "Fingerprint file is not exists"])).
Proof.
  intros Hsrc Hbs fingerprint. split_and!.
  - apply main_footprint.
  - intros B Harg HB. unfold main.
    rewrite !decide_False, Harg by (done || lia).
    destruct (decide ("fpgen" = "fpgen")) as [_|]; [|done]. step.
    destruct (generateFingerprint_Ok cfg (with_BlockSize (blockSize cfg) w) B)
      as (w' & Hrun & Hfs & _); [done|lia|].
    by exists w'.
  - intros sigs Harg Hfp Hne Hsigs Hin. unfold main.
    rewrite !decide_False, Harg by (done || lia).
    destruct (decide ("diff" = "fpgen")) as [|_]; [done|].
    destruct (decide ("diff" = "diff")) as [_|]; [|done].
    step. rewrite missing_or_empty_os_Stat. norm. fold fingerprint. rewrite Hfp.
    assert (bool_decide
              (Z.of_nat (length (gob.stream (map gob.of_sig sigs))) < 1) = false)
      as ->.
    { apply bool_decide_eq_false.
      pose proof (stream_length (map gob.of_sig sigs)) as Hl.
      rewrite length_map in Hl.
      assert (0 < length sigs)%nat by (destruct sigs; [done|simpl; lia]). lia. }
    step.
    match goal with |- context [makeDiff cfg _ ?w0] =>
      destruct (makeDiff_Ok cfg w0 sigs) as (w' & Hrun & (Hfs & Hout & _) & _);
        [done|done|lia|done|]
    end.
    exists w', (diff_total cfg (gob.stream (map gob.of_sig sigs))).
    split; [exact Hrun|]. split; [exact Hfs|exact Hout].
  - intros Harg [B HB] Hfp. unfold main.
    rewrite !decide_False, Harg by (done || lia).
    destruct (decide ("patch" = "fpgen")) as [|_]; [done|].
    destruct (decide ("patch" = "diff")) as [|_]; [done|].
    destruct (decide ("patch" = "patch")) as [_|]; [|done].
    step. step. norm. rewrite HB. cbn [IsNotExist].
    rewrite missing_or_empty_os_Stat. norm. fold fingerprint.
    destruct Hfp as [-> | ->]; simpl; by rewrite last_snoc.
Qed.

Lemma fingerprint_path_witness :
  (∃ w', @main example_primitives example_fpgen example_session = (Ok (), w') ∧
     fs w' !! "base.fingerprint"
     = Some (gob.stream (map gob.of_sig
              (@gsync.Signatures example_primitives (λ _, false) 1024 example_base)))) ∧
  (@main example_primitives example_patch example_session).1 = Exit 1.
Proof.
  split.
  - destruct (@fingerprint_path example_primitives example_fpgen example_session)
      as (_ & Hfpgen & _); [done|by vm_compute|].
    destruct (Hfpgen example_base) as (w' & Hrun & Hfs); [done|by vm_compute|].
    exists w'. split; [exact Hrun|]. rewrite Hfs. apply lookup_insert_eq.
  - destruct (@fingerprint_path example_primitives example_patch example_session)
      as (_ & _ & _ & Hpatch); [done|by vm_compute|].
    destruct Hpatch as (Hexit & _); [done|eexists; by vm_compute|by left; vm_compute|].
    exact Hexit.
Defined.

(** * Further properties: what the failing paths of fpgen and diff remove *)

Lemma bind_Exit {A B} (m : M A) (f : A → M B) (w w' : World) (c : Z) :
  m w = (Exit c, w') → (m ≫= f) w = (Exit c, w').
Proof. intros Hm. unfold mbind, M_bind. by rewrite Hm. Qed.






Section cleanup.
Context `{Primitives}.
Variable cfg : Flags.








End cleanup.



(** * Further properties: the paths that end before any work is done *)

Section early_exits.
Context `{Primitives}.
Variable cfg : Flags.

(** With valid flags and a first argument that is none of [fpgen], [diff]
    and [patch] (or no argument at all), [main] assigns [gsync.BlockSize],
    logs the list of commands and ends the process with status 1; no file
    is opened, stated, created or removed. *)
Theorem main_rejects_unknown_action (w : World) :
  sourcefilePath cfg ≠ "" →
  1024 ≤ blockSize cfg →
  flag_Arg cfg 0 ≠ "fpgen" →
  flag_Arg cfg 0 ≠ "diff" →
  flag_Arg cfg 0 ≠ "patch" →
  main cfg w
  = (Exit 1,
     mkWorld (fs w) (stdin w) (stdout w)
       (stderr w ++ [log_line [a_string "You must specify one of the following action: 'fpgen', 'diff' or 'patch'."]])
       (blockSize cfg) (trace w)).
Proof.
  intros Hsrc Hbs Hf Hd Hp. unfold main.
  rewrite !decide_False by (done || lia).
  reflexivity.
Qed.

(** The patch command needs the base file, also when its fingerprint is
    there: [os.Stat] reports the base file missing, and [main] ends the
    process with status 1 after this one call; the files are as they
    were.  (The fingerprint file being there, so is the directory of the
    base file: what [os.Stat] reports of the base file is that it does not
    exist.) *)
Theorem patch_needs_base_file (w : World) :
  sourcefilePath cfg ≠ "" →
  1024 ≤ blockSize cfg →
  flag_Arg cfg 0 = "patch" →
  is_Some (fs w !! (sourcefilePath cfg +:+ ".fingerprint")) →
  fs w !! sourcefilePath cfg = None →
  main cfg w
  = (Exit 1,
     mkWorld (fs w) (stdin w) (stdout w)
       (stderr w ++ [log_line [a_string "Base file is not exists"]])
       (blockSize cfg) (trace w ++ [ev_Stat (sourcefilePath cfg)])).
Proof.
  intros Hsrc Hbs Hp _ Hbase. unfold main.
  rewrite !decide_False by (done || lia || (rewrite Hp; done)).
  rewrite decide_True by done.
  step. step. norm. rewrite Hbase. reflexivity.
Qed.

(** fpgen, and diff when it finds an empty fingerprint file, need the base
    file: when it cannot be opened the process ends with status 1 on
    [os.Open], logging the error, before the fingerprint file is created
    anew, and the files are as they were. *)
Theorem fingerprint_needs_base_file (w : World) :
  sourcefilePath cfg ≠ "" →
  1024 ≤ blockSize cfg →
  flag_Arg cfg 0 = "fpgen" ∨
    (flag_Arg cfg 0 = "diff" ∧
     fs w !! (sourcefilePath cfg +:+ ".fingerprint") = Some []) →
  fs w !! sourcefilePath cfg = None →
  (main cfg w).1 = Exit 1 ∧
  fs (main cfg w).2 = fs w ∧
  stdout (main cfg w).2 = stdout w ∧
  (∃ err, last (stderr (main cfg w).2) = Some (log_line [a_error err])) ∧
  ev_Create (sourcefilePath cfg +:+ ".fingerprint") ∉
    drop (length (trace w)) (trace (main cfg w).2).
Proof.
  intros Hsrc Hbs Hact Hbase. unfold main.
  rewrite !decide_False by (done || lia).
  assert (Hgen : ∀ w0, fs w0 = fs w →
    generateFingerprint cfg context_Background w0
    = (Exit 1, with_stderr (log_line [a_error (fs_ErrNotExist (sourcefilePath cfg))])
                 (with_event (ev_Open (sourcefilePath cfg)) w0))).
  { intros w0 Hw0. unfold generateFingerprint. step. norm.
    rewrite Hw0, Hbase. reflexivity. }
  destruct Hact as [Hf|[Hd Hfp]].
  - rewrite decide_True by done. step. rewrite Hgen by done. norm.
    split_and!; try done.
    + eexists. apply last_snoc.
    + rewrite drop_app_length. by intros [=]%list_elem_of_singleton.
  - rewrite decide_False by (rewrite Hd; done). rewrite decide_True by done.
    step. rewrite missing_or_empty_os_Stat. norm. rewrite Hfp.
    rewrite bool_decide_eq_true_2 by (simpl; lia). unfold when.
    erewrite bind_Exit by (by apply Hgen). norm.
    split_and!; try done.
    + eexists. apply last_snoc.
    + rewrite <- app_assoc, drop_app_length.
      intros [Hin|Hin]%elem_of_app; apply list_elem_of_singleton in Hin;
        discriminate Hin.
Qed.

(** [makeDiff] opens the input before it creates the output: when the
    file named by [-in] is missing the process ends with status 1 on
    [os.Open], no output file is created and the files are as they were.
    The cancellation does not matter: the error of [gsync.LookUpTable] is
    not looked at. *)
Theorem makeDiff_needs_input_file (ctx : Context) (w : World) :
  is_Some (fs w !! (sourcefilePath cfg +:+ ".fingerprint")) →
  blockSize cfg ≠ 0 →
  infilePath cfg ≠ "" →
  fs w !! infilePath cfg = None →
  (makeDiff cfg ctx w).1 = Exit 1 ∧
  fs (makeDiff cfg ctx w).2 = fs w ∧
  stdout (makeDiff cfg ctx w).2 = stdout w ∧
  last (stderr (makeDiff cfg ctx w).2)
  = Some (log_line [a_error (fs_ErrNotExist (infilePath cfg))]) ∧
  trace (makeDiff cfg ctx w).2
  = trace w ++ [ev_Open (sourcefilePath cfg +:+ ".fingerprint");
                ev_gsync "LookUpTable" (gsync_BlockSize w);
                ev_Open (infilePath cfg)].
Proof.
  intros [fp Hfp] Hbs Hin Hmiss. unfold makeDiff, open_infile.
  rewrite decide_False by done.
  step. norm. rewrite Hfp. step. step_div. step.
  step_log. step. cbn iota beta.
  match goal with |- context [match ?t with inl _ => _ | inr _ => _ end] =>
    destruct t as [e|tbl] end; cbn iota beta.
  all: step_log; erewrite bind_Exit
    by (erewrite bind_Ok by reflexivity; norm;
        rewrite Hfs0; norm; rewrite Hfs; norm; rewrite Hmiss; reflexivity).
  all: norm; rewrite Hfs0, Hout0, Htr0; norm; rewrite Hfs, Hout, Htr, Hbs0; norm.
  all: split_and!; try done; [apply last_snoc|by rewrite <- !app_assoc].
Qed.

(** [applyPatch] opens the input before it creates the output as well. *)
Theorem applyPatch_needs_input_file (ctx : Context) (w : World) :
  is_Some (fs w !! sourcefilePath cfg) →
  infilePath cfg ≠ "" →
  fs w !! infilePath cfg = None →
  applyPatch cfg ctx w
  = (Exit 1,
     mkWorld (fs w) (stdin w) (stdout w)
       (stderr w ++ [log_line [a_error (fs_ErrNotExist (infilePath cfg))]])
       (gsync_BlockSize w)
       (trace w ++ [ev_Open (sourcefilePath cfg); ev_Open (infilePath cfg)])).
Proof.
  intros [B HB] Hin Hmiss. unfold applyPatch, open_infile.
  rewrite decide_False by done.
  step. norm. rewrite HB.
  erewrite bind_Exit
    by (erewrite bind_Ok by reflexivity; norm; rewrite Hmiss; reflexivity).
  unfold with_stderr, with_event. norm. by rewrite <- app_assoc.
Qed.

(** When the leading value of the patch cannot be decoded (the input is
    empty, truncated or no integer), [applyPatch] removes the output file
    it has just created, when one is named, and ends the process with
    status 1: nothing is written, and [gsync.Apply] is not called. *)
Theorem applyPatch_rejects_bad_leading_value (ctx : Context) (w : World) :
  is_Some (fs w !! sourcefilePath cfg) →
  infilePath cfg = "" ∨ is_Some (fs w !! infilePath cfg) →
  (∀ n rest, gob.decode_int (input_of cfg w) ≠ gob.Val n rest) →
  (applyPatch cfg ctx w).1 = Exit 1 ∧
  fs (applyPatch cfg ctx w).2
  = (if decide (outfilePath cfg = "") then fs w
     else delete (outfilePath cfg) (fs w)) ∧
  stdout (applyPatch cfg ctx w).2 = stdout w ∧
  (∃ err, last (stderr (applyPatch cfg ctx w).2)
          = Some (log_line [a_string "godelta: patch error: %#v\n"; a_error err])) ∧
  ∀ f b, ev_gsync f b ∉ drop (length (trace w)) (trace (applyPatch cfg ctx w).2).
Proof.
  intros [B HB] Hin Hbad. unfold applyPatch.
  step. norm. rewrite HB.
  erewrite bind_Ok by (apply open_infile_Ok; exact Hin).
  erewrite bind_Ok by apply create_outfile_Ok.
  step.
  match goal with |- context [gob.decode_int ?p] =>
    replace p with (input_of cfg w)
  end.
  2:{ unfold input_of, infile, created.
      destruct (decide (infilePath cfg = "")), (decide (outfilePath cfg = ""));
        reflexivity. }
  destruct (gob.decode_int (input_of cfg w)) as [| |n rest];
    [| |by destruct (Hbad n rest)].
  all: unfold remove_outfile;
    destruct (decide (infilePath cfg = "")), (decide (outfilePath cfg = "")) as [Ho|Ho];
    [rewrite bool_decide_eq_false_2 by (by intros ?)
    |rewrite bool_decide_eq_true_2 by done
    |rewrite bool_decide_eq_false_2 by (by intros ?)
    |rewrite bool_decide_eq_true_2 by done];
    unfold when; step; unfold log_Fatal; norm.
  all: split_and!; try done; try (eexists; apply last_snoc);
    try apply delete_insert_eq.
  all: intros f b; rewrite <- ?app_assoc, drop_app_length;
    intros He%list_elem_of_In; simpl in He; intuition discriminate.
Qed.

(** A patch session that names one file for [-in] and [-out] loses it:
    [os.Create] truncates the file before the leading value is read from
    it, the decoding fails at the end of the file, and the failing path
    removes the file. *)
Theorem applyPatch_onto_its_input_destroys_it (ctx : Context) (w : World) :
  is_Some (fs w !! sourcefilePath cfg) →
  infilePath cfg ≠ "" →
  outfilePath cfg = infilePath cfg →
  is_Some (fs w !! infilePath cfg) →
  (applyPatch cfg ctx w).1 = Exit 1 ∧
  fs (applyPatch cfg ctx w).2 = delete (infilePath cfg) (fs w).
Proof.
  intros [B HB] Hin Hout Hex. unfold applyPatch.
  step. norm. rewrite HB.
  erewrite bind_Ok by (apply open_infile_Ok; by right).
  erewrite bind_Ok by apply create_outfile_Ok.
  step. unfold infile, remove_outfile.
  rewrite !decide_False by congruence. norm.
  rewrite Hout, lookup_insert_eq. norm.
  change (gob.decode_int []) with (@gob.EOF Z). cbn iota.
  rewrite bool_decide_eq_true_2 by congruence.
  unfold when. step. unfold log_Fatal. norm.
  split; [done|]. apply delete_insert_eq.
Qed.

End early_exits.

Lemma main_rejects_unknown_action_witness :
  @main example_primitives (mkFlags "base" "" "" false false 1024 ["sync"])
    example_session
  = (Exit 1,
     mkWorld (fs example_session) [] []
       [log_line [a_string "You must specify one of the following action: 'fpgen', 'diff' or 'patch'."]]
       1024 []).
Proof.
  by apply (@main_rejects_unknown_action example_primitives
              (mkFlags "base" "" "" false false 1024 ["sync"]) example_session).
Defined.

Lemma patch_needs_base_file_witness :
  let w := example_world [("base.fingerprint", [x00]); ("patch", [x00])] [] in
  @main example_primitives example_patch w
  = (Exit 1,
     mkWorld (fs w) [] []
       [log_line [a_string "Base file is not exists"]] 1024 [ev_Stat "base"]).
Proof.
  intros w.
  apply (@patch_needs_base_file example_primitives example_patch w);
    [done|simpl; lia|done|by eexists|done].
Defined.

Lemma fingerprint_needs_base_file_witness :
  let w := example_world [("base.fingerprint", []); ("target", [x41])] [] in
  (@main example_primitives example_diff w).1 = Exit 1 ∧
  fs (@main example_primitives example_diff w).2 = fs w.
Proof.
  intros w.
  destruct (@fingerprint_needs_base_file example_primitives example_diff w)
    as (Hexit & Hfs & _); [done|simpl; lia|by right|done|].
  by split.
Defined.

Lemma makeDiff_needs_input_file_witness :
  let w := example_fingerprinted in
  let cfg := mkFlags "base" "target" "patch" false false 1024 ["diff"] in
  (@makeDiff example_primitives cfg context_Background w).1 = Exit 1 ∧
  fs (@makeDiff example_primitives cfg context_Background w).2 = fs w.
Proof.
  intros w cfg.
  destruct (@makeDiff_needs_input_file example_primitives cfg
              context_Background w) as (Hexit & Hfs & _);
    [by eexists|done|done|done|].
  by split.
Defined.

Lemma applyPatch_needs_input_file_witness :
  (@applyPatch example_primitives example_patch context_Background
     example_session).1 = Exit 1.
Proof.
  by rewrite (@applyPatch_needs_input_file example_primitives example_patch
                context_Background example_session (ltac:(by eexists))
                (ltac:(done)) (ltac:(done))).
Defined.

Lemma applyPatch_rejects_bad_leading_value_witness :
  let w := with_fs (insert "patch" [xff]) example_session in
  (@applyPatch example_primitives example_patch context_Background w).1 = Exit 1 ∧
  fs (@applyPatch example_primitives example_patch context_Background w).2
  = delete "out" (fs w).
Proof.
  intros w.
  destruct (@applyPatch_rejects_bad_leading_value example_primitives
              example_patch context_Background w) as (Hexit & Hfs & _);
    [by eexists|right; by eexists|by intros n rest; vm_compute|].
  by split.
Defined.

Lemma applyPatch_onto_its_input_destroys_it_witness :
  let cfg := mkFlags "base" "patch" "patch" false false 1024 ["patch"] in
  let w := example_world [("base", [x41]); ("patch", [x00])] [] in
  (@applyPatch example_primitives cfg context_Background w).1 = Exit 1 ∧
  fs (@applyPatch example_primitives cfg context_Background w).2
  = delete "patch" (fs w).
Proof.
  intros cfg w.
  apply (@applyPatch_onto_its_input_destroys_it example_primitives cfg
           context_Background w);
    [by eexists|done|done|by eexists].
Defined.

(** * Further properties: the divisions by the block size *)

Lemma safely_bind {A B} (m : M A) (f : A → M B) :
  divides_safely m → (∀ a, divides_safely (f a)) → divides_safely (m ≫= f).
Proof.
  intros Hm Hf w. unfold mbind, M_bind.
  destruct (Hm w) as (new & Hnew & Hn).
  destruct (m w) as [[a|c] w1]; simpl in *; [|by exists new].
  destruct (Hf a w1) as (new' & Hnew' & Hn').
  exists (new ++ new'). rewrite Hnew', Hnew, <- app_assoc. split; [done|].
  by intros [?|?]%elem_of_app.
Qed.

(** A statement that prints nothing on standard error, and one that prints
    one line which is not that of the panic. *)
Lemma safely_quiet {A} (m : M A) :
  (∀ w, stderr (m w).2 = stderr w) → divides_safely m.
Proof.
  intros Hm w. exists []. rewrite Hm, app_nil_r. split; [done|].
  apply not_elem_of_nil.
Qed.

Lemma safely_line {A} (m : M A) (line : message) :
  line ≠ division_panic →
  (∀ w, stderr (m w).2 = stderr w ++ [line]) → divides_safely m.
Proof.
  intros Hl Hm w. exists [line]. split; [apply Hm|].
  intros Heq%list_elem_of_singleton. by apply Hl.
Qed.

Lemma safely_log_Print (operands : list operand) (b : bool) :
  log_line operands ≠ division_panic →
  divides_safely (when b (log_Print operands)).
Proof.
  intros Hops. destruct b; [|by apply safely_quiet].
  by apply (safely_line _ (log_line operands)).
Qed.

Lemma safely_log_Fatal {A} (operands : list operand) :
  log_line operands ≠ division_panic →
  divides_safely (@log_Fatal A operands).
Proof. intros Hops. by apply (safely_line _ (log_line operands)). Qed.

Lemma safely_int64_div (a b : Z) : b ≠ 0 → divides_safely (int64_div a b).
Proof.
  intros Hb. apply safely_quiet. intros w. by rewrite int64_div_Ok.
Qed.

Lemma safely_missing_or_empty (r : error + Z) :
  divides_safely (missing_or_empty r).
Proof.
  unfold missing_or_empty. destruct (IsNotExist r); [by apply safely_quiet|].
  destruct r as [e|size]; [|by apply safely_quiet].
  eapply safely_line; [|done]. intros Heq. vm_compute in Heq. discriminate Heq.
Qed.

(** One statement of a command after the other. *)
Ltac safely :=
  repeat lazymatch goal with
    | |- divides_safely (log_Fatal _) =>
        apply safely_log_Fatal; discriminate
    | |- divides_safely (when _ (log_Print _)) =>
        apply safely_log_Print; discriminate
    | |- divides_safely (log_Print ?ops) =>
        apply (safely_log_Print ops true); discriminate
    | |- divides_safely (_ ≫= _) => apply safely_bind; [|intros ?]
    | |- divides_safely (match ?x with _ => _ end) => destruct x
    | |- divides_safely (if ?x then _ else _) => destruct x
    | |- divides_safely (int64_div _ _) =>
        apply safely_int64_div; assumption
    | |- divides_safely (missing_or_empty _) => apply safely_missing_or_empty
    | |- divides_safely (File_Size _) => unfold File_Size
    | |- divides_safely (when ?c _) => destruct c; unfold when
    | |- divides_safely (generateFingerprint_loop _ _ _ _ _) => idtac
    | |- divides_safely (makeDiff_loop _ _ _ _ _ _) => idtac
    | |- divides_safely (generateFingerprint _ _) => idtac
    | |- divides_safely (makeDiff _ _) => idtac
    | |- divides_safely (applyPatch _ _) => idtac
    | |- divides_safely (File_Write ?f _) =>
        apply safely_quiet; intros ?; by destruct f
    | |- divides_safely (gsync_Apply _ ?f _ _) =>
        apply safely_quiet; intros ?; by destruct f
    | |- divides_safely (gob_Encode _ _) => unfold gob_Encode
    | |- divides_safely _ => apply safely_quiet; by intros ?
    end.

Section divisions.
Context `{Primitives}.
Variable cfg : Flags.

Lemma safely_generateFingerprint_loop (ctx : Context) (fpFile : File) (k : nat)
    (sigsCh : list BlockSignature) :
  divides_safely (generateFingerprint_loop cfg ctx fpFile k sigsCh).
Proof.
  revert k. induction sigsCh as [|c rest IH]; intros k; simpl; safely.
  apply IH.
Qed.

Lemma safely_generateFingerprint (ctx : Context) :
  blockSize cfg ≠ 0 → divides_safely (generateFingerprint cfg ctx).
Proof.
  intros Hbs. unfold generateFingerprint. safely.
  apply safely_generateFingerprint_loop.
Qed.

Lemma safely_makeDiff_loop (ctx : Context) (outFile : File) (index : N)
    (k : nat) (opsCh : list BlockOperation) :
  divides_safely (makeDiff_loop cfg ctx outFile index k opsCh).
Proof.
  revert index k. induction opsCh as [|o rest IH]; intros index k; simpl;
    unfold remove_outfile; safely.
  apply IH.
Qed.

Lemma safely_makeDiff (ctx : Context) :
  blockSize cfg ≠ 0 → divides_safely (makeDiff cfg ctx).
Proof.
  intros Hbs. unfold makeDiff, open_infile, create_outfile, remove_outfile.
  safely; apply safely_makeDiff_loop.
Qed.

Lemma safely_applyPatch (ctx : Context) : divides_safely (applyPatch cfg ctx).
Proof.
  unfold applyPatch, open_infile, create_outfile, remove_outfile. safely.
Qed.

(** The block-size guard of [main] covers every division by the block
    size: whatever the flags and the files, what a session prints on
    standard error does not hold the line of the run-time panic of an
    integer division by zero.  (Without the guard it would: the divisions
    of [generateFingerprint] and [makeDiff] have the block size of the
    flags as their divisor.) *)
Theorem main_never_divides_by_zero (w : World) :
  ∃ new, stderr (main cfg w).2 = stderr w ++ new ∧ division_panic ∉ new.
Proof.
  revert w. change (divides_safely (main cfg)). unfold main.
  destruct (decide (sourcefilePath cfg = "")).
  { apply (safely_line _ flag_usage); done. }
  destruct (decide (blockSize cfg < 1024)).
  { apply (safely_line _ flag_usage); done. }
  assert (blockSize cfg ≠ 0) by lia.
  safely; first [by apply safely_generateFingerprint|by apply safely_makeDiff
                |apply safely_applyPatch].
Qed.

End divisions.

(** * Further properties: what a session writes *)

Lemma frame_refl (P : string → Prop) (so : Prop) (w : World) : frame P so w w.
Proof. by split_and!. Qed.

Lemma frame_trans (P : string → Prop) (so : Prop) (w1 w2 w3 : World) :
  frame P so w1 w2 → frame P so w2 w3 → frame P so w1 w3.
Proof.
  intros (Hfs & Hout & Hin) (Hfs' & Hout' & Hin'). split_and!.
  - intros name Hn. by rewrite Hfs', Hfs.
  - intros Hso. by rewrite Hout', Hout.
  - by rewrite Hin', Hin.
Qed.

Lemma frames_bind (P : string → Prop) (so : Prop) {A B} (m : M A) (f : A → M B) :
  frames P so m → (∀ a, frames P so (f a)) → frames P so (m ≫= f).
Proof.
  intros Hm Hf w. unfold mbind, M_bind.
  specialize (Hm w). destruct (m w) as [[a|c] w1]; simpl in *; [|done].
  eapply frame_trans; [exact Hm|apply Hf].
Qed.

Lemma frames_weaken (P P' : string → Prop) (so so' : Prop) {A} (m : M A) :
  (∀ name, P name → P' name) → (so → so') →
  frames P so m → frames P' so' m.
Proof.
  intros HP Hso Hm w. destruct (Hm w) as (Hfs & Hout & Hin). split_and!.
  - intros name Hn. apply Hfs. intros Hp. by apply Hn, HP.
  - intros Hn. apply Hout. intros Hs. by apply Hn, Hso.
  - done.
Qed.

(** A statement that touches neither the files nor the standard streams
    other than standard error. *)
Lemma frames_quiet (P : string → Prop) (so : Prop) {A} (m : M A) :
  (∀ w, fs (m w).2 = fs w ∧ stdout (m w).2 = stdout w ∧ stdin (m w).2 = stdin w) →
  frames P so m.
Proof.
  intros Hm w. destruct (Hm w) as (Hfs & Hout & Hin). split_and!; [|done..].
  intros name _. by rewrite Hfs.
Qed.

Lemma frames_when (P : string → Prop) (so : Prop) (b : bool) (m : M unit) :
  frames P so m → frames P so (when b m).
Proof. destruct b; [done|]. intros _ w. apply frame_refl. Qed.

Lemma frames_os_Create (P : string → Prop) (so : Prop) (name : string) :
  P name → frames P so (os_Create name).
Proof.
  intros Hp w. split_and!; [|done..].
  intros p Hn. simpl. apply lookup_insert_ne. by intros ->.
Qed.

Lemma frames_bind_Create (P : string → Prop) (so : Prop) {B} (name : string)
    (f : error + File → M B) :
  P name →
  frames P so (f (inr (os_File name))) →
  frames P so (os_Create name ≫= f).
Proof.
  intros Hp Hf w. erewrite bind_Ok by reflexivity.
  eapply frame_trans; [by apply (frames_os_Create P so name)|apply Hf].
Qed.

Lemma frames_os_Remove (P : string → Prop) (so : Prop) (name : string) :
  P name → frames P so (os_Remove name).
Proof.
  intros Hp w. split_and!; [|done..].
  intros p Hn. simpl. apply lookup_delete_ne. by intros ->.
Qed.

Lemma frames_File_Write (P : string → Prop) (so : Prop) (f : File)
    (data : list byte) :
  File_in P so f → frames P so (File_Write f data).
Proof.
  intros Hf w. destruct f; simpl in *.
  - apply frame_refl.
  - by split_and!.
  - split_and!; [|done..]. intros p Hn. simpl.
    apply lookup_alter_ne. by intros ->.
Qed.

Lemma frames_gob_Encode (P : string → Prop) (so : Prop) (f : File)
    (v : gob.value) :
  File_in P so f → frames P so (gob_Encode f v).
Proof.
  intros Hf. apply frames_bind; [by apply frames_File_Write|].
  intros _ w. apply frame_refl.
Qed.

Ltac frames :=
  repeat lazymatch goal with
    | |- frames _ _ (_ ≫= _) => apply frames_bind; [|intros ?]
    | |- frames _ _ (match ?x with _ => _ end) => destruct x
    | |- frames _ _ (if ?x then _ else _) => destruct x
    | |- frames _ _ (when _ _) => apply frames_when
    | |- frames _ _ (os_Create _) => apply frames_os_Create
    | |- frames _ _ (os_Remove _) => apply frames_os_Remove
    | |- frames _ _ (File_Write _ _) => apply frames_File_Write
    | |- frames _ _ (gob_Encode _ _) => apply frames_gob_Encode
    | |- frames _ _ (gsync_Apply _ _ _ _) => idtac
    | |- frames _ _ (generateFingerprint_loop _ _ _ _ _) => idtac
    | |- frames _ _ (makeDiff_loop _ _ _ _ _ _) => idtac
    | |- frames _ _ (int64_div _ _) =>
        apply frames_quiet; intros ?; unfold int64_div; by case_decide
    | |- frames _ _ _ => apply frames_quiet; by intros ?
    end.

Section writes.
Context `{Primitives}.
Variable cfg : Flags.

Lemma frames_gsync_Apply (P : string → Prop) (so : Prop) (ctx : Context)
    (dst cache : File) (ops : list BlockOperation) :
  File_in P so dst → frames P so (gsync_Apply ctx dst cache ops).
Proof.
  intros Hd w. unfold gsync_Apply. cbn [snd].
  apply (frame_trans _ _ _ (with_event (ev_gsync "Apply" (gsync_BlockSize w)) w));
    [by split_and!|].
  by apply frames_File_Write.
Qed.

Lemma frames_generateFingerprint_loop (ctx : Context) (k : nat)
    (sigsCh : list BlockSignature) :
  frames (is_fingerprint cfg) False
    (generateFingerprint_loop cfg ctx
       (os_File (sourcefilePath cfg +:+ ".fingerprint")) k sigsCh).
Proof.
  revert k. induction sigsCh as [|c rest IH]; intros k; simpl; frames;
    done.
Qed.

Lemma frames_generateFingerprint (ctx : Context) :
  frames (is_fingerprint cfg) False (generateFingerprint cfg ctx).
Proof.
  unfold generateFingerprint.
  apply frames_bind; [frames|intros [err|srcFile]]; [frames|].
  apply frames_bind_Create; [done|].
  do 3 (apply frames_bind; [frames|intros ?]).
  apply frames_bind; [frames|intros [sigsCh ?]].
  apply frames_bind; [|intros _; frames].
  apply frames_generateFingerprint_loop.
Qed.

Lemma File_in_outfile :
  File_in (is_output cfg) (outfilePath cfg = "") (outfile cfg).
Proof. unfold outfile. by case_decide. Qed.

Lemma frames_remove_outfile :
  frames (is_output cfg) (outfilePath cfg = "") (remove_outfile cfg).
Proof.
  unfold remove_outfile. case_bool_decide as Ho; simpl.
  - by apply frames_os_Remove.
  - intros w. apply frame_refl.
Qed.

Lemma frames_bind_create_outfile {B} (f : File → M B) :
  frames (is_output cfg) (outfilePath cfg = "") (f (outfile cfg)) →
  frames (is_output cfg) (outfilePath cfg = "") (create_outfile cfg ≫= f).
Proof.
  intros Hf w. rewrite (bind_Ok _ _ _ _ _ (create_outfile_Ok cfg w)).
  eapply frame_trans; [|apply Hf].
  case_decide as Ho; [apply frame_refl|].
  split_and!; [|done..].
  intros p Hn. simpl. apply lookup_insert_ne. intros Heq. by apply Hn.
Qed.

Lemma frames_makeDiff_loop (ctx : Context) (index : N) (k : nat)
    (opsCh : list BlockOperation) :
  frames (is_output cfg) (outfilePath cfg = "")
    (makeDiff_loop cfg ctx (outfile cfg) index k opsCh).
Proof.
  revert index k. induction opsCh as [|o rest IH]; intros index k; simpl.
  { by apply frames_quiet. }
  destruct (ctx in_makeDiff k).
  { apply frames_bind; [apply frames_remove_outfile|intros _]. frames. }
  destruct (op_Error o).
  { apply frames_bind; [apply frames_remove_outfile|intros _]. frames. }
  apply frames_bind; [frames|intros _].
  apply frames_bind; [apply frames_gob_Encode, File_in_outfile|intros [e|]].
  - apply frames_bind; [apply frames_remove_outfile|intros _]. frames.
  - apply IH.
Qed.

Lemma frames_makeDiff (ctx : Context) :
  frames (is_output cfg) (outfilePath cfg = "") (makeDiff cfg ctx).
Proof.
  assert (Hfail : ∀ ops, frames (is_output cfg) (outfilePath cfg = "")
            (remove_outfile cfg;; @log_Fatal () ops)).
  { intros ops. apply frames_bind; [apply frames_remove_outfile|intros _].
    frames. }
  unfold makeDiff.
  apply frames_bind; [frames|intros [err|fpFile]]; [frames|].
  do 4 (apply frames_bind; [frames|intros ?]).
  apply frames_bind; [frames|intros [cacheSigs ?]].
  do 2 (apply frames_bind; [unfold open_infile; frames|intros ?]).
  apply frames_bind; [frames|intros bar_Total].
  apply frames_bind_create_outfile.
  apply frames_bind; [frames|intros [[opsCh datahash] [e|]]]; [apply Hfail|].
  apply frames_bind; [frames|intros _].
  apply frames_bind; [apply frames_gob_Encode, File_in_outfile|intros [e|]];
    [apply Hfail|].
  apply frames_bind; [apply frames_makeDiff_loop|intros _]. frames.
Qed.

Lemma frames_applyPatch (ctx : Context) :
  frames (is_output cfg) (outfilePath cfg = "") (applyPatch cfg ctx).
Proof.
  unfold applyPatch.
  apply frames_bind; [frames|intros [err|srcFile]]; [frames|].
  apply frames_bind; [unfold open_infile; frames|intros inFile].
  apply frames_bind_create_outfile.
  apply frames_bind; [frames|intros patch].
  destruct (gob.decode_int patch).
  1,2: apply frames_bind; [apply frames_remove_outfile|intros _]; frames.
  apply frames_bind; [frames|intros _].
  apply frames_bind; [apply frames_gsync_Apply, File_in_outfile|intros [d [e|]]];
    frames.
Qed.

Lemma frames_missing_or_empty (P : string → Prop) (so : Prop) (r : error + Z) :
  frames P so (missing_or_empty r).
Proof.
  unfold missing_or_empty. destruct (IsNotExist r); [by apply frames_quiet|].
  by destruct r; apply frames_quiet.
Qed.

Lemma frames_main_valid :
  sourcefilePath cfg ≠ "" →
  ¬ blockSize cfg < 1024 →
  frames (writes cfg) (writes_stdout cfg) (main cfg).
Proof.
  intros Hsrc Hbs. unfold main, writes, writes_stdout.
  rewrite !decide_False by done.
  apply frames_bind; [by apply frames_quiet|intros _].
  destruct (decide (flag_Arg cfg 0 = "fpgen")) as [Hf|Hf].
  { eapply frames_weaken; [| |apply frames_generateFingerprint]; done. }
  destruct (decide (flag_Arg cfg 0 = "diff")) as [Hd|Hd].
  { apply frames_bind; [by apply frames_quiet|intros s].
    apply frames_bind; [apply frames_missing_or_empty|intros regenerate].
    apply frames_bind; [apply frames_when|intros _].
    - eapply frames_weaken; [| |apply frames_generateFingerprint];
        [by left|done].
    - eapply frames_weaken; [| |apply frames_makeDiff]; [by right|by split; [|left]]. }
  destruct (decide (flag_Arg cfg 0 = "patch")) as [Hp|Hp]; [|frames].
  apply frames_bind; [by apply frames_quiet|intros s].
  destruct (IsNotExist s); [frames|].
  apply frames_bind; [by apply frames_quiet|intros s'].
  apply frames_bind; [apply frames_missing_or_empty|intros [|]]; [frames|].
  eapply frames_weaken; [| |apply frames_applyPatch]; [done|by split; [|right]].
Qed.

(** Whatever the flags and the files, a session changes no file but those
    its command writes: the fingerprint of the base file (fpgen, diff) and
    the file named by [-out] (diff, patch).  In particular the base file
    and the input are as they were unless they are named as the output,
    patch leaves the fingerprint alone, and fpgen does not look at
    [-out]. *)
Theorem main_changes_only_what_the_command_writes (w : World) (name : string) :
  ¬ writes cfg name →
  fs (main cfg w).2 !! name = fs w !! name.
Proof.
  intros Hn. unfold main.
  destruct (decide (sourcefilePath cfg = "")); [done|].
  destruct (decide (blockSize cfg < 1024)) as [Hbs|Hbs]; [done|].
  pose proof (frames_main_valid ltac:(done) Hbs w) as (Hfs & _ & _).
  unfold main in Hfs. rewrite !decide_False in Hfs by done. by apply Hfs.
Qed.

(** With valid flags, a session writes to standard output only when it
    runs diff or patch and no output file is named: messages go to
    standard error, and the patch or the rebuilt file goes to the file
    named by [-out]. *)
Theorem main_keeps_standard_output_clean (w : World) :
  sourcefilePath cfg ≠ "" →
  1024 ≤ blockSize cfg →
  outfilePath cfg ≠ "" ∨
    (flag_Arg cfg 0 ≠ "diff" ∧ flag_Arg cfg 0 ≠ "patch") →
  stdout (main cfg w).2 = stdout w.
Proof.
  intros Hsrc Hbs Hout.
  destruct (frames_main_valid Hsrc ltac:(lia) w) as (_ & Hso & _).
  apply Hso. intros [Ho Hact]. destruct Hout as [Hout|[Hd Hp]]; [done|].
  by destruct Hact.
Qed.

Lemma main_diff_fingerprinted (w : World) (fp : list byte) :
  sourcefilePath cfg ≠ "" →
  1024 ≤ blockSize cfg →
  flag_Arg cfg 0 = "diff" →
  fs w !! (sourcefilePath cfg +:+ ".fingerprint") = Some fp →
  fp ≠ [] →
  main cfg w
  = makeDiff cfg context_Background
      (with_event (ev_Stat (sourcefilePath cfg +:+ ".fingerprint"))
         (with_BlockSize (blockSize cfg) w)).
Proof.
  intros Hsrc Hbs Hd Hfp Hne.
  unfold main. rewrite !decide_False by (done || lia).
  rewrite decide_False by (rewrite Hd; done). rewrite decide_True by done.
  step. rewrite missing_or_empty_os_Stat. norm. rewrite Hfp.
  rewrite bool_decide_eq_false_2; [done|].
  destruct fp; [done|]. simpl length. lia.
Qed.

(** diff does not refresh a fingerprint that is there: when the
    fingerprint file is not empty, [main] goes straight to [makeDiff],
    whatever has become of the base file, and the fingerprint file is
    left as it was (unless it is itself named as the output). *)
Theorem diff_keeps_existing_fingerprint (w : World) (fp : list byte) :
  sourcefilePath cfg ≠ "" →
  1024 ≤ blockSize cfg →
  flag_Arg cfg 0 = "diff" →
  fs w !! (sourcefilePath cfg +:+ ".fingerprint") = Some fp →
  fp ≠ [] →
  main cfg w
  = makeDiff cfg context_Background
      (with_event (ev_Stat (sourcefilePath cfg +:+ ".fingerprint"))
         (with_BlockSize (blockSize cfg) w)) ∧
  (outfilePath cfg ≠ sourcefilePath cfg +:+ ".fingerprint" →
   fs (main cfg w).2 !! (sourcefilePath cfg +:+ ".fingerprint") = Some fp).
Proof.
  intros Hsrc Hbs Hd Hfp Hne.
  pose proof (main_diff_fingerprinted w fp Hsrc Hbs Hd Hfp Hne) as Hmain.
  split; [exact Hmain|]. intros Hout. rewrite Hmain.
  destruct (frames_makeDiff context_Background
    (with_event (ev_Stat (sourcefilePath cfg +:+ ".fingerprint"))
       (with_BlockSize (blockSize cfg) w))) as (Hfs & _ & _).
  rewrite Hfs; [exact Hfp|]. by intros [_ Heq].
Qed.

End writes.

Lemma main_changes_only_what_the_command_writes_witness :
  fs (@main example_primitives example_diff example_session).2 !! "base"
  = fs example_session !! "base".
Proof.
  apply (@main_changes_only_what_the_command_writes example_primitives
           example_diff example_session "base").
  unfold writes, is_fingerprint, is_output. simpl.
  intros [Hfp|[_ Hout]]; discriminate.
Defined.

Lemma main_keeps_standard_output_clean_witness :
  stdout (@main example_primitives example_diff example_session).2
  = stdout example_session.
Proof.
  apply (@main_keeps_standard_output_clean example_primitives example_diff
           example_session); [done|simpl; lia|by left].
Defined.

Lemma diff_keeps_existing_fingerprint_witness :
  let w := example_fingerprinted_session in
  @main example_primitives example_diff w
  = @makeDiff example_primitives example_diff context_Background
      (with_event (ev_Stat "base.fingerprint") (with_BlockSize 1024 w)) ∧
  ("patch" ≠ "base.fingerprint" →
   fs (@main example_primitives example_diff w).2 !! "base.fingerprint"
   = Some (gob.stream [gob.VSig 0 66 [x42]])).
Proof.
  intros w.
  apply (@diff_keeps_existing_fingerprint example_primitives example_diff w
           (gob.stream [gob.VSig 0 66 [x42]]));
    [done|simpl; lia|done|done|by vm_compute].
Defined.

(** * Further properties: what [-debug] changes *)

Lemma alike_bind {A B} (m1 m2 : M A) (f1 f2 : A → M B) :
  alike m1 m2 → (∀ a, alike (f1 a) (f2 a)) → alike (m1 ≫= f1) (m2 ≫= f2).
Proof.
  intros Hm Hf w1 w2 Hw. unfold mbind, M_bind.
  destruct (Hm w1 w2 Hw) as [Hr Hw'].
  destruct (m1 w1) as [[a|c] w1'], (m2 w2) as [[a'|c'] w2']; simpl in *;
    try discriminate Hr.
  - injection Hr as <-. by apply Hf.
  - injection Hr as <-. by split.
Qed.

(** The log calls: whether and what they print is not seen. *)
Lemma alike_when_log (b1 b2 : bool) (o1 o2 : list operand) :
  alike (when b1 (log_Print o1)) (when b2 (log_Print o2)).
Proof. intros w1 w2 Hw. by destruct b1, b2. Qed.

Lemma alike_log_Fatal {A} (o1 o2 : list operand) :
  alike (@log_Fatal A o1) (@log_Fatal A o2).
Proof. by intros w1 w2 Hw. Qed.

(** A statement that does not read standard error. *)
Ltac alike_prim :=
  let Hfs := fresh in let Hin := fresh in let Hout := fresh in
  let Hbs := fresh in let Htr := fresh in
  intros [] [] (Hfs & Hin & Hout & Hbs & Htr); simpl in Hfs, Hin, Hout, Hbs, Htr;
  subst; by split_and!.

Lemma alike_missing_or_empty (r : error + Z) :
  alike (missing_or_empty r) (missing_or_empty r).
Proof.
  unfold missing_or_empty. destruct (IsNotExist r); [alike_prim|].
  destruct r; alike_prim.
Qed.

Ltac alike :=
  cbn [sourcefilePath infilePath outfilePath blockSize debug progress args
       with_debug];
  repeat lazymatch goal with
    | |- alike (_ ≫= _) (_ ≫= _) => apply alike_bind; [|intros ?]
    | |- alike (match ?x with _ => _ end) (match ?x with _ => _ end) => destruct x
    | |- alike (if ?x then _ else _) (if ?x then _ else _) => destruct x
    | |- alike (when _ (log_Print _)) (when _ (log_Print _)) =>
        apply alike_when_log
    | |- alike (log_Fatal _) (log_Fatal _) => apply alike_log_Fatal
    | |- alike (missing_or_empty _) _ => apply alike_missing_or_empty
    | |- alike (generateFingerprint_loop _ _ _ _ _) _ => idtac
    | |- alike (makeDiff_loop _ _ _ _ _ _) _ => idtac
    | |- alike (when ?c _) (when ?c _) => destruct c; unfold when
    | |- alike (int64_div _ _) (int64_div _ _) => unfold int64_div
    | |- alike (gob_Encode _ _) (gob_Encode _ _) => unfold gob_Encode
    | |- alike (File_Write ?f _) (File_Write ?f _) => destruct f; alike_prim
    | |- alike (gsync_Apply _ ?f _ _) (gsync_Apply _ ?f _ _) =>
        destruct f; alike_prim
    | |- alike ?m ?m => alike_prim
    end.

Section debug_flag.
Context `{Primitives}.
Variable cfg : Flags.
Variable b : bool.

Lemma alike_generateFingerprint_loop (ctx : Context) (fpFile : File) (k : nat)
    (sigsCh : list BlockSignature) :
  alike (generateFingerprint_loop cfg ctx fpFile k sigsCh)
        (generateFingerprint_loop (with_debug b cfg) ctx fpFile k sigsCh).
Proof.
  revert k. induction sigsCh as [|c rest IH]; intros k; simpl; alike.
  apply IH.
Qed.

Lemma alike_generateFingerprint (ctx : Context) :
  alike (generateFingerprint cfg ctx) (generateFingerprint (with_debug b cfg) ctx).
Proof.
  unfold generateFingerprint. alike.
  apply alike_generateFingerprint_loop.
Qed.

Lemma alike_makeDiff_loop (ctx : Context) (outFile : File) (index : N)
    (k : nat) (opsCh : list BlockOperation) :
  alike (makeDiff_loop cfg ctx outFile index k opsCh)
        (makeDiff_loop (with_debug b cfg) ctx outFile index k opsCh).
Proof.
  revert index k. induction opsCh as [|o rest IH]; intros index k; simpl;
    unfold remove_outfile; alike.
  apply IH.
Qed.

Lemma alike_makeDiff (ctx : Context) :
  alike (makeDiff cfg ctx) (makeDiff (with_debug b cfg) ctx).
Proof.
  unfold makeDiff, open_infile, create_outfile, remove_outfile. alike.
  apply alike_makeDiff_loop.
Qed.

Lemma alike_applyPatch (ctx : Context) :
  alike (applyPatch cfg ctx) (applyPatch (with_debug b cfg) ctx).
Proof.
  unfold applyPatch, open_infile, create_outfile, remove_outfile. alike.
Qed.

(** [-debug] changes what is logged and nothing else: with the flag set
    either way, a session ends with the same status and leaves the same
    files, the same standard output and the same sequence of file-system
    and gsync calls. *)
Theorem debug_changes_only_the_log (w : World) :
  (main (with_debug b cfg) w).1 = (main cfg w).1 ∧
  fs (main (with_debug b cfg) w).2 = fs (main cfg w).2 ∧
  stdout (main (with_debug b cfg) w).2 = stdout (main cfg w).2 ∧
  trace (main (with_debug b cfg) w).2 = trace (main cfg w).2 ∧
  gsync_BlockSize (main (with_debug b cfg) w).2 = gsync_BlockSize (main cfg w).2.
Proof.
  assert (Hmain : alike (main cfg) (main (with_debug b cfg))).
  { unfold main, flag_Arg. alike;
      first [apply alike_generateFingerprint|apply alike_makeDiff
            |apply alike_applyPatch]. }
  destruct (Hmain w w) as (Hr & Hfs & _ & Hout & Hbs & Htr); [done|].
  by split_and!.
Qed.

End debug_flag.

(** * Further properties: what diff and fpgen do not read *)

Lemma blind_File_Size (D : string → Prop) (f : File) :
  outside D f → blind D D (File_Size f).
Proof.
  intros Hf. apply blind_same. intros w1 w2 Hw. unfold File_Size. simpl.
  by rewrite (agree_contents D f w1 w2 Hw Hf).
Qed.

Lemma blind_int64_div (D : string → Prop) (a b : Z) :
  blind D D (int64_div a b).
Proof.
  unfold int64_div. case_decide; [|apply blind_ret].
  apply blind_same. intros w1 w2 (? & ? & Herr & ? & ? & ?).
  split; [done|]. split_and!; simpl; try done. by rewrite Herr.
Qed.

Lemma blind_gob_Encode (D : string → Prop) (f : File) (v : gob.value) :
  blind D D (gob_Encode f v).
Proof.
  apply (blind_bind D D D); [done|apply blind_File_Write|].
  intros _. apply blind_ret.
Qed.

Section blind_diff.
Context `{Primitives}.
Variable cfg : Flags.

Lemma blind_gsync_Signatures (D : string → Prop) (ctx : Context) (r : File) :
  outside D r → blind D D (gsync_Signatures ctx r).
Proof.
  intros Hr. apply blind_same. intros w1 w2 Hw. unfold gsync_Signatures.
  rewrite (agree_contents D r w1 w2 Hw Hr).
  rewrite (proj1 (proj2 (proj2 (proj2 Hw)))).
  split; [done|]. by apply agree_event.
Qed.

Lemma blind_gsync_LookUpTable (D : string → Prop) (ctx : Context)
    (sigsCh : list BlockSignature) :
  blind D D (gsync_LookUpTable ctx sigsCh).
Proof.
  apply blind_same. intros w1 w2 Hw. unfold gsync_LookUpTable.
  rewrite (proj1 (proj2 (proj2 (proj2 Hw)))).
  split; [done|]. by apply agree_event.
Qed.

Lemma blind_gsync_Sync (D : string → Prop) (ctx : Context) (r : File)
    (remote : gmap N (list (N * list byte))) :
  outside D r → blind D D (gsync_Sync ctx r remote).
Proof.
  intros Hr. apply blind_same. intros w1 w2 Hw. unfold gsync_Sync.
  rewrite (agree_contents D r w1 w2 Hw Hr).
  rewrite (proj1 (proj2 (proj2 (proj2 Hw)))).
  split; [done|]. by apply agree_event.
Qed.

Lemma blind_makeDiff_loop (D : string → Prop) (ctx : Context) (outFile : File)
    (index : N) (k : nat) (opsCh : list BlockOperation) :
  blind D D (makeDiff_loop cfg ctx outFile index k opsCh).
Proof.
  assert (Hfail : ∀ ops, blind D D (remove_outfile cfg;; @log_Fatal () ops)).
  { intros ops. apply (blind_bind _ D); [done|apply blind_remove_outfile|].
    intros _. apply blind_log_Fatal. }
  revert index k. induction opsCh as [|o rest IH]; intros index k; simpl.
  { apply blind_ret. }
  destruct (ctx in_makeDiff k); [apply Hfail|].
  destruct (op_Error o); [apply Hfail|].
  apply (blind_bind _ D); [done|apply blind_when, blind_log_Print|intros _].
  apply (blind_bind _ D); [done|apply blind_gob_Encode|intros [e|]];
    [apply Hfail|apply IH].
Qed.

Lemma blind_makeDiff (D : string → Prop) (ctx : Context) :
  ¬ D (sourcefilePath cfg +:+ ".fingerprint") →
  (infilePath cfg ≠ "" → ¬ D (infilePath cfg)) →
  blind D (unwritten cfg D) (makeDiff cfg ctx).
Proof.
  intros Hfp Hin. unfold makeDiff.
  assert (Hsub : ∀ name, (unwritten cfg D) name → D name) by (by intros name [? _]).
  assert (Hfail : ∀ ops, blind (unwritten cfg D) (unwritten cfg D)
            (remove_outfile cfg;; @log_Fatal () ops)).
  { intros ops. apply (blind_bind _ (unwritten cfg D)); [done|apply blind_remove_outfile|].
    intros _. apply blind_log_Fatal. }
  apply blind_bind_Open; [done|apply blind_log_Fatal|].
  apply (blind_bind _ D); [done|by apply blind_File_Size|intros size].
  apply (blind_bind _ D); [done|apply blind_int64_div|intros bar_Total].
  apply (blind_bind _ D); [done|by apply blind_File_read|intros fp].
  apply (blind_bind _ D); [done|apply blind_when, blind_log_Print|intros _].
  apply (blind_bind _ D); [done|apply blind_gsync_LookUpTable|intros [cacheSigs ?]].
  apply (blind_bind _ D); [done|apply blind_when, blind_log_Print|intros _].
  apply blind_bind_open_infile; [done|].
  apply (blind_bind _ D); [done| |intros total].
  { case_decide; [apply blind_ret|].
    apply (blind_bind _ D); [done|by apply blind_File_Size|intros ?].
    apply blind_int64_div. }
  apply blind_bind_create_outfile.
  apply (blind_bind _ (unwritten cfg D)); [done| |intros [[opsCh datahash] [e|]]].
  - apply blind_gsync_Sync. unfold infile. case_decide; [done|].
    intros [Hd _]. by apply Hin.
  - apply Hfail.
  - apply (blind_bind _ (unwritten cfg D));
      [done|apply blind_when, blind_log_Print|intros _].
    apply (blind_bind _ (unwritten cfg D));
      [done|apply blind_gob_Encode|intros [e|]]; [apply Hfail|].
    apply (blind_bind _ (unwritten cfg D));
      [done|apply blind_makeDiff_loop|intros _].
    apply (blind_bind _ (unwritten cfg D));
      [done|apply blind_when, blind_log_Print|intros _].
    apply blind_log_Print.
Qed.

(** diff works from the fingerprint alone.  Take two worlds that differ
    at most in the base file (its contents, or whether it is there), with
    a fingerprint file that is not empty and an input that is not the base
    file: the two diff sessions end with the same status, write the same
    patch and log the same lines. *)
Theorem diff_ignores_base_file (w1 w2 : World) (fp : list byte) :
  sourcefilePath cfg ≠ "" →
  1024 ≤ blockSize cfg →
  flag_Arg cfg 0 = "diff" →
  fs w1 !! (sourcefilePath cfg +:+ ".fingerprint") = Some fp →
  fp ≠ [] →
  infilePath cfg ≠ sourcefilePath cfg →
  agree (λ name, name = sourcefilePath cfg) w1 w2 →
  (main cfg w1).1 = (main cfg w2).1 ∧
  agree (λ name, name = sourcefilePath cfg) (main cfg w1).2 (main cfg w2).2.
Proof.
  intros Hsrc Hbs Hd Hfp Hne Hin Hw.
  assert (Hfp2 : fs w2 !! (sourcefilePath cfg +:+ ".fingerprint") = Some fp).
  { rewrite <- (agree_lookup _ w1 w2 _ Hw); [done|]. apply fingerprint_ne. }
  rewrite (main_diff_fingerprinted cfg w1 fp), (main_diff_fingerprinted cfg w2 fp)
    by done.
  destruct (blind_makeDiff (λ name, name = sourcefilePath cfg)
              context_Background (fingerprint_ne _) (λ _, Hin)
              (with_event (ev_Stat (sourcefilePath cfg +:+ ".fingerprint"))
                 (with_BlockSize (blockSize cfg) w1))
              (with_event (ev_Stat (sourcefilePath cfg +:+ ".fingerprint"))
                 (with_BlockSize (blockSize cfg) w2)))
    as (Hr & Hagree & _); [|by split].
  apply agree_event.
  destruct Hw as (? & ? & ? & ? & ? & ?). by split_and!.
Qed.

(** fpgen starts the fingerprint afresh: [os.Create] truncates the file
    before the first record is written.  Two fpgen sessions on an existing
    base file that differ at most in the fingerprint file they find (its
    contents, or whether it is there) cannot be told apart. *)
Theorem fpgen_overwrites_fingerprint (w1 w2 : World) :
  sourcefilePath cfg ≠ "" →
  1024 ≤ blockSize cfg →
  flag_Arg cfg 0 = "fpgen" →
  is_Some (fs w1 !! sourcefilePath cfg) →
  agree (is_fingerprint cfg) w1 w2 →
  main cfg w1 = main cfg w2.
Proof.
  intros Hsrc Hbs Hf [B HB] Hw.
  assert (HB2 : fs w2 !! sourcefilePath cfg = Some B).
  { rewrite <- (agree_lookup _ w1 w2 _ Hw); [done|].
    unfold is_fingerprint. intros Heq.
    by apply (fingerprint_ne (sourcefilePath cfg)). }
  unfold main. rewrite !decide_False by (done || lia).
  rewrite decide_True by done.
  unfold generateFingerprint.
  do 4 step. norm. rewrite HB, HB2. do 2 step.
  cbn iota beta. f_equal.
  destruct Hw as (Hin & Hout & Herr & _ & Htr & Hfs).
  unfold with_event, with_fs, with_BlockSize. norm.
  rewrite Hin, Hout, Herr, Htr. f_equal.
  apply map_eq. intros name.
  destruct (decide (name = sourcefilePath cfg +:+ ".fingerprint")) as [->|Hn].
  - by rewrite !lookup_insert_eq.
  - rewrite !lookup_insert_ne by done. by apply Hfs.
Qed.

(** diff and patch start their output afresh as well: take two worlds
    that differ at most in the file named by [-out], which is not the
    input.  If it is not the fingerprint file, the two [makeDiff] runs end
    with the same status, and when they complete they leave the same
    files; if it is not the base file, so do the two [applyPatch] runs. *)
Theorem output_file_is_started_afresh (ctx : Context) (w1 w2 : World) :
  outfilePath cfg ≠ "" →
  outfilePath cfg ≠ infilePath cfg →
  agree (λ name, name = outfilePath cfg) w1 w2 →
  (outfilePath cfg ≠ sourcefilePath cfg +:+ ".fingerprint" →
   (makeDiff cfg ctx w1).1 = (makeDiff cfg ctx w2).1 ∧
   ((makeDiff cfg ctx w1).1 = Ok () →
    fs (makeDiff cfg ctx w1).2 = fs (makeDiff cfg ctx w2).2)) ∧
  (outfilePath cfg ≠ sourcefilePath cfg →
   (applyPatch cfg ctx w1).1 = (applyPatch cfg ctx w2).1 ∧
   ((applyPatch cfg ctx w1).1 = Ok () →
    fs (applyPatch cfg ctx w1).2 = fs (applyPatch cfg ctx w2).2)).
Proof.
  intros Ho Hoi Hw.
  assert (Heq : ∀ w1' w2',
    agree (unwritten cfg (λ name, name = outfilePath cfg)) w1' w2' →
    fs w1' = fs w2').
  { intros w1' w2' (_ & _ & _ & _ & _ & Hfs). apply map_eq. intros name.
    apply Hfs. intros [-> [Hempty|Hne]]; done. }
  split.
  - intros Hfp.
    destruct (blind_makeDiff (λ name, name = outfilePath cfg) ctx
                (λ Heq', Hfp (eq_sym Heq')) (λ _ Heq', Hoi (eq_sym Heq'))
                w1 w2 Hw) as (Hr & _ & Hok).
    split; [done|]. intros Hdone. by apply Heq, (Hok ()).
  - intros Hsrc.
    destruct (blind_applyPatch cfg (λ name, name = outfilePath cfg) ctx
                (λ Heq', Hsrc (eq_sym Heq')) (λ _ Heq', Hoi (eq_sym Heq'))
                w1 w2 Hw) as (Hr & _ & Hok).
    split; [done|]. intros Hdone. by apply Heq, (Hok ()).
Qed.

End blind_diff.

Lemma diff_ignores_base_file_witness :
  let w1 := example_fingerprinted_session in
  let w2 := with_fs (delete "base") example_fingerprinted_session in
  (@main example_primitives example_diff w1).1
  = (@main example_primitives example_diff w2).1 ∧
  agree (λ name, name = "base")
    (@main example_primitives example_diff w1).2
    (@main example_primitives example_diff w2).2.
Proof.
  intros w1 w2.
  apply (@diff_ignores_base_file example_primitives example_diff w1 w2
           (gob.stream [gob.VSig 0 66 [x42]]));
    [done|simpl; lia|done|done|by vm_compute|done|].
  split_and!; try done.
  intros name Hn. simpl. by rewrite lookup_delete_ne.
Defined.

Lemma fpgen_overwrites_fingerprint_witness :
  @main example_primitives example_fpgen example_fingerprinted
  = @main example_primitives example_fpgen example_stdin_session.
Proof.
  apply (@fpgen_overwrites_fingerprint example_primitives example_fpgen
           example_fingerprinted example_stdin_session);
    [done|simpl; lia|done|by eexists|].
  split_and!; try done.
  intros name Hn. simpl. by rewrite lookup_insert_ne.
Defined.

Lemma output_file_is_started_afresh_witness :
  let w1 := example_fingerprinted_session in
  let w2 := with_fs (insert "patch" [x00; x01]) example_fingerprinted_session in
  ("patch" ≠ "base.fingerprint" →
   (@makeDiff example_primitives example_diff context_Background w1).1
   = (@makeDiff example_primitives example_diff context_Background w2).1 ∧
   ((@makeDiff example_primitives example_diff context_Background w1).1 = Ok () →
    fs (@makeDiff example_primitives example_diff context_Background w1).2
    = fs (@makeDiff example_primitives example_diff context_Background w2).2)) ∧
  ("patch" ≠ "base" →
   (@applyPatch example_primitives example_diff context_Background w1).1
   = (@applyPatch example_primitives example_diff context_Background w2).1 ∧
   ((@applyPatch example_primitives example_diff context_Background w1).1 = Ok () →
    fs (@applyPatch example_primitives example_diff context_Background w1).2
    = fs (@applyPatch example_primitives example_diff context_Background w2).2)).
Proof.
  intros w1 w2.
  apply (@output_file_is_started_afresh example_primitives example_diff
           context_Background w1 w2); [done|done|].
  split_and!; try done.
  intros name Hn. simpl. symmetry. apply lookup_insert_ne.
  intros Heq. apply Hn. by rewrite <- Heq.
Defined.

(** * Further properties: standard output in place of the output file *)

Lemma pairs_bind (R R1 R2 Q : World → World → Prop) {A B} (m1 m2 : M A)
    (f1 f2 : A → M B) :
  pairs R R1 Q m1 m2 →
  (∀ a, pairs R1 R2 Q (f1 a) (f2 a)) →
  pairs R R2 Q (m1 ≫= f1) (m2 ≫= f2).
Proof.
  intros Hm Hf w1 w2 Hw. unfold mbind, M_bind.
  destruct (Hm w1 w2 Hw) as (Hr & HQ & HR1).
  destruct (m1 w1) as [[a|c] w1'], (m2 w2) as [[a'|c'] w2']; simpl in *;
    try discriminate Hr.
  - injection Hr as <-. by apply Hf, (HR1 a).
  - injection Hr as <-. by split_and!.
Qed.

(** A statement of the common part, before the output is created. *)
Ltac pairs_same :=
  let Hin := fresh in let Herr := fresh in let Hbs := fresh in
  let Hout := fresh in let HF := fresh in let Hfs := fresh in
  let Hout2 := fresh in
  intros [] [] ((Hin & Herr & Hbs & Hout & HF) & Hfs & Hout2);
  simpl in Hin, Herr, Hbs, Hout, HF, Hfs, Hout2; subst;
  by split_and!.

Ltac pairs_before :=
  cbn [sourcefilePath infilePath outfilePath blockSize debug progress args
       with_outfile];
  repeat lazymatch goal with
    | |- pairs _ _ _ (create_outfile _ ≫= _) _ => idtac
    | |- pairs _ _ _ (open_infile _ ≫= _) _ => idtac
    | |- pairs ?R _ ?Q (_ ≫= _) (_ ≫= _) =>
        apply (pairs_bind R R _ Q); [|intros ?]
    | |- pairs _ _ _ (match ?x with _ => _ end) (match ?x with _ => _ end) =>
        destruct x
    | |- pairs _ _ _ (if ?x then _ else _) (if ?x then _ else _) => destruct x
    | |- pairs _ _ _ (when ?c _) (when ?c _) => destruct c; unfold when
    | |- pairs _ _ _ (int64_div _ _) (int64_div _ _) => unfold int64_div
    | |- pairs _ _ _ (log_Fatal _) (log_Fatal _) => unfold log_Fatal; pairs_same
    | |- pairs _ _ _ ?m ?m => pairs_same
    end.

Section piped.
Context `{Primitives}.
Variable cfg : Flags.

(** Without [-out], patch writes to standard output the bytes it would
    have left in the output file, and ends with the same status: all of
    the rebuilt file on success, what [gsync.Apply] wrote before it failed
    on its error, nothing when the leading value cannot be decoded (the
    named file is removed then).  The output file is assumed to be neither
    the base file nor the patch. *)
Theorem applyPatch_without_out_writes_the_same (ctx : Context) (w : World) :
  outfilePath cfg ≠ "" →
  outfilePath cfg ≠ sourcefilePath cfg →
  outfilePath cfg ≠ infilePath cfg →
  is_Some (fs w !! sourcefilePath cfg) →
  infilePath cfg = "" ∨ is_Some (fs w !! infilePath cfg) →
  let named := applyPatch cfg ctx w in
  let piped := applyPatch (with_outfile "" cfg) ctx w in
  piped.1 = named.1 ∧
  stdout piped.2 = stdout w ++ default [] (fs named.2 !! outfilePath cfg) ∧
  stderr piped.2 = stderr named.2 ∧
  fs piped.2 = fs w ∧
  stdout named.2 = stdout w.
Proof.
  intros Ho Hob Hoi [B HB] Hin named piped. subst named piped.
  unfold applyPatch, remove_outfile.
  cbn [sourcefilePath infilePath outfilePath debug with_outfile].
  do 2 step. norm. rewrite HB.
  do 6 (erewrite bind_Ok
          by first [apply open_infile_Ok; exact Hin|apply create_outfile_Ok
                   |reflexivity]).
  cbn [sourcefilePath infilePath outfilePath debug with_outfile].
  change (infile (with_outfile "" cfg)) with (infile cfg).
  change (outfile (with_outfile "" cfg)) with os_Stdout.
  rewrite (decide_True (P := "" = "")) by done.
  rewrite (decide_False (P := outfilePath cfg = "")) by done.
  rewrite (bool_decide_eq_false_2 ("" ≠ "")) by (by intros ?).
  rewrite (bool_decide_eq_true_2 (outfilePath cfg ≠ "")) by done.
  set (w0 := if decide (infilePath cfg = "") then _ else _).
  assert (Hw0 : fs w0 = fs w ∧ stdout w0 = stdout w).
  { subst w0. by case_decide. }
  destruct Hw0 as [Hfs0 Hout0].
  assert (HP : contents (infile cfg)
                 (with_event (ev_Create (outfilePath cfg))
                    (with_fs <[outfilePath cfg:=[]]> w0))
               = contents (infile cfg) w0).
  { unfold infile. case_decide; [done|]. simpl.
    by rewrite lookup_insert_ne. }
  rewrite HP.
  destruct (gob.decode_int (contents (infile cfg) w0)) as [| |n rest].
  1,2: unfold when; do 2 step; unfold log_Fatal; norm;
    rewrite lookup_delete_eq, Hfs0, Hout0; simpl; by rewrite app_nil_r.
  unfold outfile. rewrite (decide_False (P := outfilePath cfg = "")) by done.
  destruct (debug cfg); unfold when, gsync_Apply; do 4 step; norm;
    rewrite lookup_insert_ne, Hfs0, HB by done; norm.
  all: match goal with |- context [gsync.Apply ?a ?b ?c ?d] =>
         destruct (gsync.Apply a b c d) as [data [e|]] end; norm.
  all: try (do 2 step); unfold log_Fatal, log_Print; norm.
  all: rewrite lookup_alter_eq, lookup_insert_eq, Hout0, Hfs0; done.
Qed.

Variable F : gmap string (list byte).
Variable pre : list byte.

Lemma pairs_after_log (b : bool) (operands : list operand) :
  pairs (paired_after (outfilePath cfg) F pre)
        (paired_after (outfilePath cfg) F pre) (paired F pre)
    (when b (log_Print operands)) (when b (log_Print operands)).
Proof.
  intros w1 w2 Hw. split; [by destruct b|].
  assert (paired_after (outfilePath cfg) F pre
            (when b (log_Print operands) w1).2
            (when b (log_Print operands) w2).2) as Hw'.
  { destruct b; [|done]. destruct Hw as ((? & Herr & ? & ? & ?) & c & ? & ?).
    split; [|by exists c]. split_and!; simpl; try done. by rewrite Herr. }
  split; [apply Hw'|done].
Qed.

Lemma pairs_fail (R' : World → World → Prop) (operands : list operand) :
  pairs (paired_after (outfilePath cfg) F pre) R' (paired F pre)
    (remove_outfile cfg;; @log_Fatal () operands)
    (remove_outfile (with_outfile "" cfg);; @log_Fatal () operands).
Proof.
  intros w1 w2 ((? & Herr & ? & ? & ?) & _). unfold remove_outfile.
  cbn [outfilePath with_outfile].
  rewrite (bool_decide_eq_false_2 ("" ≠ "")) by (by intros ?).
  destruct (bool_decide (outfilePath cfg ≠ "")); unfold when;
    (do 2 step); unfold log_Fatal; cbn [fst snd];
    (split_and!; [done|unfold paired; simpl; rewrite Herr; by split_and!|done]).
Qed.

Lemma pairs_gob_Encode (v : gob.value) :
  pairs (paired_after (outfilePath cfg) F pre)
        (paired_after (outfilePath cfg) F pre) (paired F pre)
    (gob_Encode (os_File (outfilePath cfg)) v) (gob_Encode os_Stdout v).
Proof.
  intros w1 w2 ((? & ? & ? & ? & ?) & c & Hfs & Hout). split; [done|].
  assert (paired_after (outfilePath cfg) F pre
            (gob_Encode (os_File (outfilePath cfg)) v w1).2
            (gob_Encode os_Stdout v w2).2) as Hw'.
  { split; [by split_and!|]. exists (c ++ gob.encode v). simpl.
    rewrite Hfs, Hout, alter_insert_eq, app_assoc. done. }
  split; [apply Hw'|done].
Qed.

Lemma pairs_makeDiff_loop (ctx : Context) (index : N) (k : nat)
    (opsCh : list BlockOperation) :
  pairs (paired_after (outfilePath cfg) F pre)
        (paired_after (outfilePath cfg) F pre) (paired F pre)
    (makeDiff_loop cfg ctx (os_File (outfilePath cfg)) index k opsCh)
    (makeDiff_loop (with_outfile "" cfg) ctx os_Stdout index k opsCh).
Proof.
  revert index k. induction opsCh as [|o rest IH]; intros index k; simpl.
  { intros w1 w2 Hw. split_and!; [done|apply Hw|done]. }
  destruct (ctx in_makeDiff k); [apply pairs_fail|].
  destruct (op_Error o); [apply pairs_fail|].
  eapply pairs_bind; [apply pairs_after_log|intros _].
  eapply pairs_bind; [apply pairs_gob_Encode|intros [e|]];
    [apply pairs_fail|apply IH].
Qed.

Lemma pairs_bind_open_infile (R' : World → World → Prop) {B}
    (f1 f2 : File → M B) :
  pairs (paired_before F pre) R' (paired F pre) (f1 (infile cfg)) (f2 (infile cfg)) →
  pairs (paired_before F pre) R' (paired F pre)
    (open_infile cfg ≫= f1) (open_infile (with_outfile "" cfg) ≫= f2).
Proof.
  intros Hf. unfold open_infile, infile in *.
  cbn [infilePath with_outfile].
  destruct (decide (infilePath cfg = "")) as [Hi|Hi].
  { intros w1 w2 Hw. by apply Hf. }
  intros w1 w2 Hw.
  destruct Hw as ((Hin & Herr & Hbs & Hout & HF) & Hfs & Hout2).
  unfold mbind, M_bind, os_Open. cbn [fst snd]. rewrite Hfs, HF.
  destruct (F !! infilePath cfg); cbn iota beta.
  - apply Hf. by split_and!.
  - unfold log_Fatal. cbn [fst snd]. split_and!; [done| |done].
    unfold paired. simpl. rewrite Herr. by split_and!.
Qed.

Lemma pairs_bind_create_outfile (R' : World → World → Prop) {B}
    (f1 f2 : File → M B) :
  outfilePath cfg ≠ "" →
  pairs (paired_after (outfilePath cfg) F pre) R' (paired F pre)
    (f1 (os_File (outfilePath cfg))) (f2 os_Stdout) →
  pairs (paired_before F pre) R' (paired F pre)
    (create_outfile cfg ≫= f1) (create_outfile (with_outfile "" cfg) ≫= f2).
Proof.
  intros Ho Hf w1 w2 ((Hin & Herr & Hbs & Hout & HF) & Hfs & Hout2).
  rewrite !(bind_Ok _ _ _ _ _ (create_outfile_Ok _ _)).
  unfold outfile. cbn [outfilePath with_outfile].
  rewrite (decide_True (P := "" = "")) by done.
  rewrite !(decide_False (P := outfilePath cfg = "")) by done.
  apply Hf. split; [by split_and!|].
  exists []. simpl. by rewrite Hfs, Hout2, app_nil_r.
Qed.

Lemma pairs_gsync_Sync (ctx : Context) (remote : gmap N (list (N * list byte))) :
  (infilePath cfg ≠ "" → infilePath cfg ≠ outfilePath cfg) →
  pairs (paired_after (outfilePath cfg) F pre)
        (paired_after (outfilePath cfg) F pre) (paired F pre)
    (gsync_Sync ctx (infile cfg) remote) (gsync_Sync ctx (infile cfg) remote).
Proof.
  intros Hio w1 w2 ((Hin & Herr & Hbs & Hout & HF) & c & Hfs & Hout2).
  unfold gsync_Sync. cbn [fst snd].
  assert (Hc : contents (infile cfg) w1 = contents (infile cfg) w2).
  { unfold infile. case_decide as Hi; [done|]. simpl.
    rewrite Hfs, HF, lookup_insert_ne; [done|]. intros Heq. by apply Hio. }
  rewrite Hc, Hbs. split; [done|].
  assert (paired_after (outfilePath cfg) F pre
            (with_event (ev_gsync "Sync" (gsync_BlockSize w2)) w1)
            (with_event (ev_gsync "Sync" (gsync_BlockSize w2)) w2)) as Hw'.
  { split; [by split_and!|by exists c]. }
  split; [apply Hw'|done].
Qed.

Lemma pairs_makeDiff (ctx : Context) :
  outfilePath cfg ≠ "" →
  (infilePath cfg ≠ "" → infilePath cfg ≠ outfilePath cfg) →
  pairs (paired_before F pre) (paired_after (outfilePath cfg) F pre)
    (paired F pre)
    (makeDiff cfg ctx) (makeDiff (with_outfile "" cfg) ctx).
Proof.
  intros Ho Hio. unfold makeDiff. pairs_before.
  apply pairs_bind_open_infile. pairs_before.
  all: apply pairs_bind_create_outfile; [done|].
  all: (eapply pairs_bind; [by apply pairs_gsync_Sync|intros [[opsCh datahash] [e|]]]);
    [apply pairs_fail|].
  all: (eapply pairs_bind; [apply pairs_after_log|intros _]).
  all: (eapply pairs_bind; [apply pairs_gob_Encode|intros [e|]]);
    [apply pairs_fail|].
  all: (eapply pairs_bind; [apply pairs_makeDiff_loop|intros _]).
  all: (eapply pairs_bind; [apply pairs_after_log|intros _]).
  all: apply (pairs_after_log true).
Qed.

End piped.

(** * Further properties: the diff session without an output file *)

(** Without [-out], a diff session that succeeds writes to standard
    output the bytes it would have left in the output file; and whether it
    succeeds or not, it ends with the same status, logs the same lines and
    changes no file.  The output file is assumed not to be the input. *)
Theorem makeDiff_without_out_writes_the_same `{Primitives} (cfg : Flags)
    (ctx : Context) (w : World) :
  outfilePath cfg ≠ "" →
  outfilePath cfg ≠ infilePath cfg →
  let named := makeDiff cfg ctx w in
  let piped := makeDiff (with_outfile "" cfg) ctx w in
  piped.1 = named.1 ∧
  stderr piped.2 = stderr named.2 ∧
  fs piped.2 = fs w ∧
  stdout named.2 = stdout w ∧
  (named.1 = Ok () →
   stdout piped.2 = stdout w ++ default [] (fs named.2 !! outfilePath cfg)).
Proof.
  intros Ho Hoi named piped. subst named piped.
  destruct (pairs_makeDiff cfg (fs w) (stdout w) ctx Ho
              (λ _ Heq, Hoi (eq_sym Heq)) w w)
    as (Hr & (_ & Herr & _ & Hout & Hfs) & Hok); [done|].
  split_and!; try done.
  intros Hnamed. destruct (Hok () Hnamed) as (_ & c & Hfs1 & Hout2).
  by rewrite Hfs1, Hout2, lookup_insert_eq.
Qed.

Lemma applyPatch_without_out_writes_the_same_witness :
  let w := example_world [("base", [x41]); ("patch", example_broken_patch)] [] in
  let named := @applyPatch example_primitives example_patch context_Background w in
  let piped := @applyPatch example_primitives (with_outfile "" example_patch)
                 context_Background w in
  piped.1 = named.1 ∧
  stdout piped.2 = stdout w ++ default [] (fs named.2 !! "out") ∧
  stderr piped.2 = stderr named.2 ∧
  fs piped.2 = fs w ∧
  stdout named.2 = stdout w.
Proof.
  intros w.
  apply (@applyPatch_without_out_writes_the_same example_primitives
           example_patch context_Background w);
    [done|done|done|by eexists|right; by eexists].
Defined.

Lemma makeDiff_without_out_writes_the_same_witness :
  let w := example_fingerprinted_session in
  let named := @makeDiff example_primitives example_diff context_Background w in
  let piped := @makeDiff example_primitives (with_outfile "" example_diff)
                 context_Background w in
  piped.1 = named.1 ∧
  stderr piped.2 = stderr named.2 ∧
  fs piped.2 = fs w ∧
  stdout named.2 = stdout w ∧
  (named.1 = Ok () →
   stdout piped.2 = stdout w ++ default [] (fs named.2 !! "patch")).
Proof.
  intros w.
  by apply (@makeDiff_without_out_writes_the_same example_primitives
              example_diff context_Background w).
Defined.

(** * Further properties: the lookup table is not checked *)

Section unchecked.
Context `{Primitives}.
Variable cfg : Flags.

(** [makeDiff] does not look at the error [gsync.LookUpTable] returns.
    Whatever the fingerprint file holds (records, or bytes that are no
    record) and whatever the cancellation, once the fingerprint file and
    the input are open [makeDiff] goes on to create the output and to call
    [gsync.Sync]. *)
Theorem makeDiff_goes_on_after_LookUpTable (ctx : Context) (w : World) :
  is_Some (fs w !! (sourcefilePath cfg +:+ ".fingerprint")) →
  blockSize cfg ≠ 0 →
  infilePath cfg = "" ∨ is_Some (fs w !! infilePath cfg) →
  ∃ more,
    trace (makeDiff cfg ctx w).2
    = trace w ++ diff_events cfg (gsync_BlockSize w) ++ more.
Proof.
  intros [fp Hfp] Hbs Hin. unfold makeDiff.
  step. norm. rewrite Hfp. step. step_div. step. step_log. step.
  match goal with |- context [match ?t with inl _ => _ | inr _ => _ end] =>
    generalize t; intros tbl end.
  destruct tbl as [e|tbl]; cbn iota beta.
  all: step_log.
  all: assert (Hopen : infilePath cfg = "" ∨ is_Some (fs w1 !! infilePath cfg))
        by (rewrite Hfs0; norm; rewrite Hfs; exact Hin).
  all: erewrite bind_Ok by (apply open_infile_Ok; exact Hopen).
  all: unfold diff_events.
  all: destruct (decide (infilePath cfg = "")) as [Hi|Hi];
    [step|erewrite bind_Ok
            by (erewrite bind_Ok by reflexivity; apply int64_div_Ok; assumption)].
  all: erewrite bind_Ok by apply create_outfile_Ok.
  all: step; cbn iota beta.
  all: match goal with |- ∃ more, trace (?m ?w2).2 = _ =>
         assert (Hk : keeps cfg m); [|destruct (Hk w2) as (_ & new & Hnew & _)]
       end.
  all: try (apply keeps_bind; [apply keeps_when, keeps_log_Print|intros _];
            apply keeps_bind; [apply keeps_gob_Encode|intros [err|]];
            [apply keeps_bind; [apply keeps_remove_outfile|intros _];
             apply keeps_log_Fatal|];
            apply keeps_bind; [apply keeps_makeDiff_loop|intros _];
            apply keeps_bind; [apply keeps_when, keeps_log_Print|intros _];
            apply keeps_log_Print).
  all: exists new; rewrite Hnew; clear Hnew Hk.
  all: destruct (decide (outfilePath cfg = "")); norm;
    rewrite ?Hbs1, Htr0; norm; rewrite ?Hbs0, Htr; norm;
    by rewrite <- !app_assoc.
Qed.

End unchecked.

Lemma makeDiff_goes_on_after_LookUpTable_witness :
  let w := example_world
             [("base", [x41]); ("base.fingerprint", [xff]); ("target", [x41])] [] in
  ∃ more,
    trace (@makeDiff example_primitives example_diff context_Background w).2
    = trace w ++ diff_events example_diff (gsync_BlockSize w) ++ more.
Proof.
  intros w.
  apply (@makeDiff_goes_on_after_LookUpTable example_primitives example_diff
           context_Background w); [by eexists|done|right; by eexists].
Defined.
